(** * RegisterBankInfo: register-bank coverage, mapping inference and
      mapping verification (llvm/CodeGen/GlobalISel/RegisterBankInfo.cpp)

    A shallow embedding of the functions of RegisterBankInfo.cpp, proofs of
    the properties its specification states about them, and proofs of
    further properties of the code.

    Conventions of the embedding:
    - a C++ [unsigned] is a [Z] in [0, 2^32); arithmetic that can wrap is
      written with [wrap32];
    - positions in arrays (operand indices, register-class ids, words of a
      packed mask) are [nat], arrays are lists read with stdpp's [!!] and
      updated with [<[i:=x]>];
    - a nullable pointer is an [option];
    - a call that can stop the program (a failed [assert], an
      [llvm_unreachable], a dereference of a null or dangling pointer) lives
      in the [result] monad;
    - [NDEBUG] is the build flag of that name: when it is [true], [assert]
      and the [#ifndef NDEBUG] blocks are compiled out;
    - a loop whose end is not structural takes [fuel], and is shown to end
      within it.

    The file has the embedding first, then the notions the properties are
    stated with and the examples, then the proofs: those of the properties
    of the specification, C1 to C10, and those of the further properties,
    X1 to X25. *)

From Stdlib Require Import ZArith Bool String Lia.
From stdpp Require Import base list.
Import ListNotations.
Local Open Scope Z_scope.

(** ** Outcomes of a call *)

Inductive failure : Type :=
| AssertionFailed (msg : string)
| Unreachable (msg : string)
| UndefinedBehaviour
| OutOfFuel.

Inductive result (A : Type) : Type :=
| Ok (a : A)
| Fail (f : failure).
Arguments Ok {A} a.
Arguments Fail {A} f.

Definition bind {A B : Type} (r : result A) (k : A -> result B) : result B :=
  match r with
  | Ok a => k a
  | Fail f => Fail f
  end.

Notation "x <- e ;; k" := (bind e (fun x => k))
  (at level 100, e at next level, right associativity).
Notation "e ;;; k" := (bind e (fun _ => k))
  (at level 100, right associativity).

(** [assert(c && msg)]: nothing under NDEBUG, a stop otherwise. *)
Definition assert (NDEBUG : bool) (c : bool) (msg : string) : result unit :=
  if NDEBUG || c then Ok tt else Fail (AssertionFailed msg).

(** A pointer used as a condition: true when it is not null. *)
Definition non_null {A : Type} (p : option A) : bool :=
  match p with Some _ => true | None => false end.

(** ** Unsigned machine integers *)

Definition UINT_MAX : Z := 2 ^ 32 - 1.
Definition wrap32 (z : Z) : Z := z mod 2 ^ 32.
Definition is_unsigned (z : Z) : Prop := 0 <= z < 2 ^ 32.

(** ** APInt

    Modelled from the spec: llvm/ADT/APInt.h is not among the sources.  A
    bitmask of a declared total bit-width: [BitWidth] bits whose value is
    [VAL]; only the operations RegisterBankInfo.cpp calls are given. *)

Record APInt : Type := mkAPInt { BitWidth : Z; VAL : Z }.

(** The class keeps the bits above [BitWidth] clear. *)
Definition wf_APInt (a : APInt) : Prop :=
  is_unsigned (BitWidth a) /\ 0 <= VAL a < 2 ^ BitWidth a.

(** [APInt(numBits, val)] *)
Definition APInt_make (numBits val : Z) : APInt :=
  {| BitWidth := numBits; VAL := val mod 2 ^ numBits |}.

Definition getBitWidth (a : APInt) : Z := BitWidth a.
Definition getBoolValue (a : APInt) : bool := negb (VAL a =? 0).
Definition isAllOnesValue (a : APInt) : bool := VAL a =? Z.ones (BitWidth a).

Definition flipAllBits (a : APInt) : APInt :=
  {| BitWidth := BitWidth a; VAL := Z.lxor (VAL a) (Z.ones (BitWidth a)) |}.

(** [operator|=]; the bit widths are the same at its only call site, which
    asserts so just before. *)
Definition APInt_or (a b : APInt) : APInt :=
  {| BitWidth := BitWidth a; VAL := Z.lor (VAL a) (VAL b) |}.

(** Number of zero bits below the lowest set bit, scanning [n] positions
    upward from [i]; all [n] when none is set. *)
Fixpoint ctz_scan (n : nat) (i : Z) (v : Z) : Z :=
  match n with
  | O => 0
  | S n' => if Z.testbit v i then 0 else 1 + ctz_scan n' (i + 1) v
  end.

(** Number of zero bits above the highest set bit among the low [n]
    positions; all [n] when none is set. *)
Fixpoint clz_scan (n : nat) (v : Z) : Z :=
  match n with
  | O => 0
  | S n' => if Z.testbit v (Z.of_nat n') then 0 else 1 + clz_scan n' v
  end.

Definition countTrailingZeros (a : APInt) : Z :=
  ctz_scan (Z.to_nat (BitWidth a)) 0 (VAL a).
Definition countLeadingZeros (a : APInt) : Z :=
  clz_scan (Z.to_nat (BitWidth a)) (VAL a).

(** ** BitVector

    Modelled from the spec: llvm/ADT/BitVector.h is not among the sources.
    A bit-indexed set of a fixed number of positions. *)

Abbreviation BitVector := (list bool).

(** [empty()] of a vector-like container: it holds no element. *)
Definition is_empty {A : Type} (l : list A) : bool :=
  match l with [] => true | _ :: _ => false end.

Definition BitVector_test (bv : BitVector) (i : nat) : bool :=
  match bv !! i with Some b => b | None => false end.
Definition BitVector_set (bv : BitVector) (i : nat) : BitVector :=
  <[i := true]> bv.
(** [resize(N)]: truncates, or grows with cleared bits. *)
Definition BitVector_resize (bv : BitVector) (n : nat) : BitVector :=
  take n bv ++ replicate (n - length bv)%nat false.
Definition BitVector_empty (bv : BitVector) : bool := is_empty bv.

(** ** RegisterBank

    Modelled from the spec: RegisterBank.h and RegisterBank.cpp are not among
    the sources.  A bank has an identifier, a name, a maximum bit-width
    [Size] and the set [ContainedRegClasses] of the register classes it
    covers; a bank under construction has the invalid identifier, no name,
    size zero or no coverage. *)

Record RegisterBank : Type := mkRegisterBank {
  ID : Z;
  Name : option string;
  Size : Z;
  ContainedRegClasses : BitVector
}.

Definition InvalidID : Z := UINT_MAX.

Definition RegisterBank_default : RegisterBank :=
  {| ID := InvalidID; Name := None; Size := 0; ContainedRegClasses := [] |}.

Definition RegisterBank_isValid (rb : RegisterBank) : bool :=
  negb (ID rb =? InvalidID) && non_null (Name rb) && negb (Size rb =? 0)
  && negb (BitVector_empty (ContainedRegClasses rb)).

Definition RegisterBank_getSize (rb : RegisterBank) : Z := Size rb.
Definition RegisterBank_getID (rb : RegisterBank) : Z := ID rb.

(** ** PartialMapping and ValueMapping *)

Record PartialMapping : Type := mkPartialMapping {
  Mask : APInt;
  RegBank : option RegisterBank
}.

Record ValueMapping : Type := mkValueMapping {
  BreakDown : list PartialMapping
}.

Section Verify.

Variable NDEBUG : bool.

(** RegisterBankInfo::PartialMapping::verify *)
Definition PartialMapping_verify (pm : PartialMapping) : result unit :=
  assert NDEBUG (non_null (RegBank pm)) "Register bank not set" ;;;
  let ActiveWidth :=
    if getBoolValue (Mask pm)
    then wrap32 (getBitWidth (Mask pm) - countLeadingZeros (Mask pm)
                 - countTrailingZeros (Mask pm))
    else 0 in
  assert NDEBUG (ActiveWidth <=? getBitWidth (Mask pm))
    "Wrong computation of ActiveWidth, overflow?" ;;;
  assert NDEBUG
    (match RegBank pm with
     | Some rb => RegisterBank_getSize rb >=? ActiveWidth
     | None => false
     end)
    "Register bank too small for Mask".

(** The loop of ValueMapping::verify over the partial mappings, threading
    [ValueMask]. *)
Fixpoint ValueMapping_verify_loop (ValueBitWidth : Z) (ValueMask : APInt)
    (l : list PartialMapping) : result APInt :=
  match l with
  | [] => Ok ValueMask
  | PartMap :: rest =>
      assert NDEBUG (getBitWidth (Mask PartMap) =? ValueBitWidth)
        "Value does not have the same size accross the partial mappings" ;;;
      let ValueMask' := APInt_or ValueMask (Mask PartMap) in
      PartialMapping_verify PartMap ;;;
      ValueMapping_verify_loop ValueBitWidth ValueMask' rest
  end.

(** RegisterBankInfo::ValueMapping::verify *)
Definition ValueMapping_verify (vm : ValueMapping) (ExpectedBitWidth : Z)
    : result unit :=
  assert NDEBUG (negb (is_empty (BreakDown vm)))
    "Value mapped nowhere?!" ;;;
  match last (BreakDown vm) with
  | None => Fail UndefinedBehaviour
  | Some back =>
      let ValueBitWidth := getBitWidth (Mask back) in
      assert NDEBUG (ValueBitWidth =? ExpectedBitWidth)
        "BitWidth does not match" ;;;
      ValueMask <- ValueMapping_verify_loop ValueBitWidth
                     (APInt_make ValueBitWidth 0) (BreakDown vm) ;;
      assert NDEBUG (isAllOnesValue ValueMask) "Value is not fully mapped"
  end.

End Verify.

(** ** TargetRegisterClass and TargetRegisterInfo

    Modelled from the spec: llvm/Target/TargetRegisterInfo.h is not among
    the sources.  The register-class catalog: per class its identifier, its
    size in bytes ([getSize()]), its subclass bitmask packed in 32-bit
    words ([getSubClassMask()]) and, for each sub-register index, the packed
    bitmask of the classes that reach it through that index (the masks a
    [SuperRegClassIterator] over the class yields, in order). *)

Record TargetRegisterClass : Type := mkTargetRegisterClass {
  RC_ID : nat;
  RC_Size : Z;
  SubClassMask : list Z;
  SuperRegClassMasks : list (list Z)
}.

Record TargetRegisterInfo : Type := mkTargetRegisterInfo {
  RegClasses : list TargetRegisterClass;
  (** [isPhysicalRegister(Reg)], a static predicate on register numbers *)
  isPhysicalRegister : Z -> bool;
  getMinimalPhysRegClass : Z -> option TargetRegisterClass
}.

Definition getNumRegClasses (TRI : TargetRegisterInfo) : nat :=
  length (RegClasses TRI).

(** [countTrailingZeros] on a [uint32_t] *)
Definition countTrailingZeros32 (Mask : Z) : nat :=
  Z.to_nat (ctz_scan 32 0 Mask).

Section Coverage.

Variable NDEBUG : bool.
Variable TRI : TargetRegisterInfo.

(** [TRI.getRegClass(i)]; it asserts that [i] is in range. *)
Definition getRegClass (i : nat) : result TargetRegisterClass :=
  match RegClasses TRI !! i with
  | Some RC => Ok RC
  | None =>
      assert NDEBUG false "Register Class ID out of range" ;;;
      Fail UndefinedBehaviour
  end.

(** [RegisterBank::covers]; it asserts that the bank is valid.  The test of
    a position the vector does not have reads outside its storage. *)
Definition RegisterBank_covers (RB : RegisterBank) (RC : TargetRegisterClass)
    : result bool :=
  assert NDEBUG (RegisterBank_isValid RB) "RB hasn't been initialized yet" ;;;
  match ContainedRegClasses RB !! RC_ID RC with
  | Some b => Ok b
  | None => Fail UndefinedBehaviour
  end.

(** The state of the worklist loop of addRegBankCoverage.  [WorkList] has
    its back first.  [Pushed] is not in the source: it records every
    [WorkList.push_back], latest first. *)
Record CoverageState : Type := mkCoverageState {
  Covered : BitVector;
  WorkList : list nat;
  MaxSize : Z;
  Pushed : list nat
}.

(** [Covered.test(i)] and [Covered.set(i)] on a position the vector does not
    have read or write outside its storage. *)
Definition Covered_test (st : CoverageState) (i : nat) : result bool :=
  match Covered st !! i with
  | Some b => Ok b
  | None => Fail UndefinedBehaviour
  end.

(** [WorkList.push_back(i); Covered.set(i);] *)
Definition push_and_cover (st : CoverageState) (i : nat)
    : result CoverageState :=
  if (i <? length (Covered st))%nat
  then Ok {| Covered := BitVector_set (Covered st) i;
             WorkList := i :: WorkList st;
             MaxSize := MaxSize st;
             Pushed := i :: Pushed st |}
  else Fail UndefinedBehaviour.

(** Lines 128-151: the loop over the set bits of one word of the subclass
    mask.  A word has 32 bits and each round drops at least one, so 33
    rounds of [fuel] let the loop reach its exit test. *)
Fixpoint scan_subclass_word (fuel : nat) (Idx : nat) (Mask : Z)
    (st : CoverageState) : result CoverageState :=
  match fuel with
  | O => Fail OutOfFuel
  | S fuel' =>
      if Mask =? 0 then Ok st
      else
        let Offset := countTrailingZeros32 Mask in
        let SubRCId := (Idx + Offset)%nat in
        c <- Covered_test st SubRCId ;;
        st' <- (if c then Ok st else push_and_cover st SubRCId) ;;
        let Mask := Z.shiftr Mask (Z.of_nat Offset) in
        let Idx := (Idx + Offset)%nat in
        scan_subclass_word fuel' (S Idx) (Z.shiftr Mask 1) st'
  end.

(** Lines 126-152: one word per 32 classes; [*SubClassMask++] takes the head
    of what is left of the array. *)
Fixpoint scan_subclasses (NbOfRegClasses : nat) (Base : nat)
    (SubClassMask : list Z) (st : CoverageState) : result CoverageState :=
  if (Base <? NbOfRegClasses)%nat then
    match SubClassMask with
    | [] => Fail UndefinedBehaviour
    | Mask :: SubClassMask' =>
        st' <- scan_subclass_word 33 Base Mask st ;;
        scan_subclasses NbOfRegClasses (Base + 32) SubClassMask' st'
    end
  else Ok st.

(** Lines 179-203: the loop over one word of a super-register-class mask,
    which stops at [RCId]; the flag is [Pushed] of the source. *)
Fixpoint scan_super_word (fuel : nat) (RCId SubRCId : nat) (Idx : nat)
    (Mask : Z) (st : CoverageState) (pushed : bool)
    : result (CoverageState * bool) :=
  match fuel with
  | O => Fail OutOfFuel
  | S fuel' =>
      if Mask =? 0 then Ok (st, pushed)
      else
        let Offset := countTrailingZeros32 Mask in
        let SuperRCId := (Idx + Offset)%nat in
        if (SuperRCId =? RCId)%nat then
          st' <- push_and_cover st SubRCId ;;
          Ok (st', true)
        else
          let Mask := Z.shiftr Mask (Z.of_nat Offset) in
          let Idx := (Idx + Offset)%nat in
          scan_super_word fuel' RCId SubRCId (S Idx) (Z.shiftr Mask 1)
            st pushed
  end.

(** Lines 177-204: the [break] of line 191 leaves the word loop only, the
    loop over the words goes on. *)
Fixpoint scan_super_mask (NbOfRegClasses : nat) (RCId SubRCId : nat)
    (Base : nat) (SuperRCMask : list Z) (st : CoverageState) (pushed : bool)
    : result (CoverageState * bool) :=
  if (Base <? NbOfRegClasses)%nat then
    match SuperRCMask with
    | [] => Fail UndefinedBehaviour
    | Mask :: SuperRCMask' =>
        r <- scan_super_word 33 RCId SubRCId Base Mask st pushed ;;
        scan_super_mask NbOfRegClasses RCId SubRCId (Base + 32) SuperRCMask'
          (fst r) (snd r)
    end
  else Ok (st, pushed).

(** Lines 172-205: the loop over the SuperRegClassIterator. *)
Fixpoint scan_super_classes (NbOfRegClasses : nat) (RCId SubRCId : nat)
    (SuperRCIt : list (list Z)) (st : CoverageState) (pushed : bool)
    : result (CoverageState * bool) :=
  match SuperRCIt with
  | [] => Ok (st, pushed)
  | SuperRCMask :: SuperRCIt' =>
      if pushed then Ok (st, pushed)
      else
        r <- scan_super_mask NbOfRegClasses RCId SubRCId 0 SuperRCMask
               st pushed ;;
        scan_super_classes NbOfRegClasses RCId SubRCId SuperRCIt'
          (fst r) (snd r)
  end.

(** Lines 167-206: the loop over the [n] classes from [SubRCId] on. *)
Fixpoint scan_subreg_classes (n : nat) (NbOfRegClasses : nat) (RCId : nat)
    (SubRCId : nat) (st : CoverageState) : result CoverageState :=
  match n with
  | O => Ok st
  | S n' =>
      c <- Covered_test st SubRCId ;;
      st' <- (if c then Ok st
              else
                SubRC <- getRegClass SubRCId ;;
                r <- scan_super_classes NbOfRegClasses RCId SubRCId
                       (SuperRegClassMasks SubRC) st false ;;
                Ok (fst r)) ;;
      scan_subreg_classes n' NbOfRegClasses RCId (S SubRCId) st'
  end.

(** Lines 110-209: one round of the [do ... while] loop. *)
Definition worklist_round (NbOfRegClasses : nat) (st : CoverageState)
    : result CoverageState :=
  match WorkList st with
  | [] => Fail UndefinedBehaviour
  | RCId :: WorkList' =>
      CurRC <- getRegClass RCId ;;
      let st1 := {| Covered := Covered st;
                    WorkList := WorkList';
                    MaxSize := Z.max (MaxSize st) (wrap32 (RC_Size CurRC * 8));
                    Pushed := Pushed st |} in
      st2 <- scan_subclasses NbOfRegClasses 0 (SubClassMask CurRC) st1 ;;
      scan_subreg_classes NbOfRegClasses NbOfRegClasses RCId 0 st2
  end.

(** The [do ... while (!WorkList.empty())] loop, with [fuel] rounds. *)
Fixpoint worklist_loop (fuel : nat) (NbOfRegClasses : nat)
    (st : CoverageState) : result CoverageState :=
  match fuel with
  | O => Fail OutOfFuel
  | S fuel' =>
      st' <- worklist_round NbOfRegClasses st ;;
      if is_empty (WorkList st') then Ok st'
      else worklist_loop fuel' NbOfRegClasses st'
  end.

(** RegisterBankInfo::addRegBankCoverage on the bank [RB] that
    [getRegBank(ID)] refers to; it also gives the history of the pushes. *)
Definition addRegBankCoverage_RB (fuel : nat) (RB : RegisterBank)
    (RCId : nat) : result (RegisterBank * list nat) :=
  let NbOfRegClasses := getNumRegClasses TRI in
  let under_construction := negb (RegisterBank_isValid RB) in
  let RB1 :=
    if under_construction
    then {| ID := ID RB; Name := Name RB; Size := Size RB;
            ContainedRegClasses :=
              BitVector_resize (ContainedRegClasses RB) NbOfRegClasses |}
    else RB in
  done <- (if under_construction then Ok false
           else RC <- getRegClass RCId ;; RegisterBank_covers RB RC) ;;
  if done then Ok (RB, [])
  else
    st0 <- push_and_cover {| Covered := ContainedRegClasses RB1;
                             WorkList := []; MaxSize := Size RB1;
                             Pushed := [] |} RCId ;;
    st <- worklist_loop fuel NbOfRegClasses st0 ;;
    Ok ({| ID := ID RB1; Name := Name RB1; Size := MaxSize st;
           ContainedRegClasses := Covered st |}, Pushed st).

(** [RegisterBankInfo::getRegBank(ID)] on the array [RegBanks]. *)
Definition getRegBank_ID (RegBanks : list RegisterBank) (ID : nat)
    : result RegisterBank :=
  match RegBanks !! ID with
  | Some RB => Ok RB
  | None =>
      assert NDEBUG false "Accessing an unknown register bank" ;;;
      Fail UndefinedBehaviour
  end.

(** RegisterBankInfo::addRegBankCoverage. *)
Definition addRegBankCoverage (fuel : nat) (RegBanks : list RegisterBank)
    (ID RCId : nat) : result (list RegisterBank) :=
  RB <- getRegBank_ID RegBanks ID ;;
  r <- addRegBankCoverage_RB fuel RB RCId ;;
  Ok (<[ID := fst r]> RegBanks).

End Coverage.

(** RegisterBankInfo::RegisterBankInfo(NumRegBanks): the array of banks,
    each default-constructed. *)
Definition RegisterBankInfo_new (NumRegBanks : nat) : list RegisterBank :=
  replicate NumRegBanks RegisterBank_default.

(** RegisterBankInfo::createRegisterBank *)
Definition createRegisterBank (NDEBUG : bool) (RegBanks : list RegisterBank)
    (ID : nat) (Name : string) : result (list RegisterBank) :=
  RB <- getRegBank_ID NDEBUG RegBanks ID ;;
  assert NDEBUG (RegisterBank_getID RB =? InvalidID)
    "A register bank should be created only once" ;;;
  Ok (<[ID := mkRegisterBank (Z.of_nat ID) (Some Name) (Size RB)
                (ContainedRegClasses RB)]> RegBanks).

(** RegisterBankInfo::verify.  [RegisterBank::verify(TRI)] is a method of
    RegisterBank.cpp, which is not among the sources: the check of one bank
    is a parameter, [RegisterBank_verify]. *)
Section VerifyBanks.

Variable NDEBUG : bool.
Variable RegisterBank_verify : RegisterBank -> result unit.

(** Lines 69-75: the loop over the [n] banks from [Idx] on. *)
Fixpoint RegisterBankInfo_verify_loop (RegBanks : list RegisterBank)
    (n : nat) (Idx : nat) : result unit :=
  match n with
  | O => Ok tt
  | S n' =>
      RegBank <- getRegBank_ID NDEBUG RegBanks Idx ;;
      assert NDEBUG (Z.of_nat Idx =? RegisterBank_getID RegBank)
        "ID does not match the index in the array" ;;;
      RegisterBank_verify RegBank ;;;
      RegisterBankInfo_verify_loop RegBanks n' (S Idx)
  end.

(** RegisterBankInfo::verify; [getNumRegBanks()] is the length of the
    array. *)
Definition RegisterBankInfo_verify (RegBanks : list RegisterBank)
    : result unit :=
  RegisterBankInfo_verify_loop RegBanks (length RegBanks) 0.

End VerifyBanks.

(** ** Machine instructions

    Modelled from the spec: MachineInstr.h, MachineOperand.h,
    MachineRegisterInfo.h and TargetOpcodes.h are not among the sources.
    An instruction has an opcode and operands; an operand is a register
    operand, with its register number (0 is NoRegister), or something else;
    a register copy has opcode COPY, a phi has opcode PHI, and neither is
    one of the generic opcodes that precede instruction selection. *)

Inductive Opcode : Type :=
| PHI
| COPY
| PreISelGenericOpcode (n : nat)
| TargetOpcode (n : nat).

Inductive MachineOperand : Type :=
| MO_Register (Reg : Z)
| MO_Other.

Record MachineInstr : Type := mkMachineInstr {
  getOpcode : Opcode;
  Operands : list MachineOperand
}.

Definition isCopy (MI : MachineInstr) : bool :=
  match getOpcode MI with COPY => true | _ => false end.
Definition isPHI (MI : MachineInstr) : bool :=
  match getOpcode MI with PHI => true | _ => false end.
Definition isPreISelGenericOpcode (Opc : Opcode) : bool :=
  match Opc with PreISelGenericOpcode _ => true | _ => false end.
Definition getNumOperands (MI : MachineInstr) : nat := length (Operands MI).
Definition isReg (MO : MachineOperand) : bool :=
  match MO with MO_Register _ => true | MO_Other => false end.

(** What MachineRegisterInfo knows of a virtual register: a register class
    (possibly none yet) or a register bank. *)
Inductive RegClassOrRegBank : Type :=
| IsRegClass (RC : option TargetRegisterClass)
| IsRegBank (RB : option RegisterBank).

Record MachineRegisterInfo : Type := mkMachineRegisterInfo {
  (** [getSize(Reg)]: the size in bits of a generic register, 0 otherwise *)
  MRI_getSize : Z -> Z;
  getRegClassOrRegBank : Z -> RegClassOrRegBank
}.

(** ** InstructionMapping

    Modelled from the spec: RegisterBankInfo.h is not among the sources.  A
    mapping identifier, a cost and one ValueMapping per operand; the default
    constructor gives the invalid mapping, which has the invalid identifier,
    cost zero and no operand. *)

Definition DefaultMappingID : Z := UINT_MAX.
Definition InvalidMappingID : Z := UINT_MAX - 1.

Record InstructionMapping : Type := mkInstructionMapping {
  IM_ID : Z;
  Cost : Z;
  NumOperands : nat;
  OperandsMapping : list ValueMapping
}.

Definition InstructionMapping_invalid : InstructionMapping :=
  {| IM_ID := InvalidMappingID; Cost := 0; NumOperands := 0;
     OperandsMapping := [] |}.

Definition InstructionMapping_isValid (IM : InstructionMapping) : bool :=
  negb (IM_ID IM =? InvalidMappingID).

Abbreviation InstructionMappings := (list InstructionMapping).

(** Where a loop body leaves the loop: to the next round, out of the loop
    ([break]) or out of the function ([return]). *)
Inductive control (S R : Type) : Type :=
| Continue (s : S)
| Break (s : S)
| Return (r : R).
Arguments Continue {S R} s.
Arguments Break {S R} s.
Arguments Return {S R} r.

(** The locals of getInstrMappingImpl that its first loop updates. *)
Record InferState : Type := mkInferState {
  st_Mapping : InstructionMapping;
  st_CompleteMapping : bool;
  st_RegBank : option RegisterBank;
  st_RegSize : Z
}.

(** The decomposition setOperandMapping gives an operand: one partial
    mapping, of all the [MaskSize] bits, in the bank. *)
Definition single_mapping (RB : RegisterBank) (MaskSize : Z) : ValueMapping :=
  {| BreakDown := [ {| Mask := {| BitWidth := MaskSize;
                                  VAL := Z.ones MaskSize |};
                       RegBank := Some RB |} ] |}.

Section Inference.

Variable NDEBUG : bool.
Variable TRI : TargetRegisterInfo.
Variable MRI : MachineRegisterInfo.
(** [MI.getRegClassConstraint(OpIdx, &TII, &TRI)]: the register class the
    encoding of the instruction asks for at an operand, if any. *)
Variable getRegClassConstraint :
  MachineInstr -> nat -> option TargetRegisterClass.
(** [getRegBankFromRegClass], which the target supplies. *)
Variable getRegBankFromRegClass : TargetRegisterClass -> RegisterBank.

(** [MRI.getRegClass(Reg)]: the register must not hold a bank. *)
Definition MRI_getRegClass (Reg : Z) : result (option TargetRegisterClass) :=
  match getRegClassOrRegBank MRI Reg with
  | IsRegClass RC => Ok RC
  | IsRegBank _ =>
      assert NDEBUG false "Invalid accessor called" ;;;
      Fail UndefinedBehaviour
  end.

(** The end of getSizeInBits: [assert(RC); return RC->getSize() * 8;] *)
Definition sizeInBits_of_class (RC : option TargetRegisterClass) : result Z :=
  assert NDEBUG (non_null RC) "Unable to deduce the register class" ;;;
  match RC with
  | Some RC => Ok (wrap32 (RC_Size RC * 8))
  | None => Fail UndefinedBehaviour
  end.

(** getSizeInBits *)
Definition getSizeInBits (Reg : Z) : result Z :=
  if isPhysicalRegister TRI Reg then
    sizeInBits_of_class (getMinimalPhysRegClass TRI Reg)
  else
    let RegSize := MRI_getSize MRI Reg in
    if negb (RegSize =? 0) then Ok RegSize
    else
      RC <- MRI_getRegClass Reg ;;
      sizeInBits_of_class RC.

(** RegisterBankInfo::getRegBank(Reg, MRI, TRI) *)
Definition getRegBank (Reg : Z) : result (option RegisterBank) :=
  if isPhysicalRegister TRI Reg then
    match getMinimalPhysRegClass TRI Reg with
    | Some RC => Ok (Some (getRegBankFromRegClass RC))
    | None => Fail UndefinedBehaviour
    end
  else
    assert NDEBUG (negb (Reg =? 0))
      "NoRegister does not have a register bank" ;;;
    match getRegClassOrRegBank MRI Reg with
    | IsRegBank RB => Ok RB
    | IsRegClass (Some RC) => Ok (Some (getRegBankFromRegClass RC))
    | IsRegClass None => Ok None
    end.

(** [InstructionMapping(ID, Cost, NumOperands)] *)
Definition InstructionMapping_make (ID Cost : Z) (NumOperands : nat)
    : result InstructionMapping :=
  assert NDEBUG (negb (ID =? InvalidMappingID))
    "Use the default constructor for invalid mapping" ;;;
  Ok (mkInstructionMapping ID Cost NumOperands
        (replicate NumOperands (mkValueMapping []))).

(** [InstructionMapping::getOperandMapping(i)] *)
Definition getOperandMapping (IM : InstructionMapping) (i : nat)
    : result ValueMapping :=
  assert NDEBUG (i <? NumOperands IM)%nat "Out of bound operand" ;;;
  match OperandsMapping IM !! i with
  | Some VM => Ok VM
  | None => Fail UndefinedBehaviour
  end.

(** RegisterBankInfo::InstructionMapping::setOperandMapping *)
Definition setOperandMapping (IM : InstructionMapping) (OpIdx : nat)
    (MaskSize : Z) (RegBank : RegisterBank) : result InstructionMapping :=
  assert NDEBUG (MaskSize <=? RegisterBank_getSize RegBank)
    "Register bank is too small" ;;;
  let Mask := flipAllBits (APInt_make MaskSize 0) in
  VM <- getOperandMapping IM OpIdx ;;
  Ok (mkInstructionMapping (IM_ID IM) (Cost IM) (NumOperands IM)
        (<[OpIdx := mkValueMapping
                      (BreakDown VM ++ [mkPartialMapping Mask (Some RegBank)])]>
           (OperandsMapping IM))).

(** Lines 257-266: the bank of the register of operand [OpIdx], from the
    register itself or else from the register-class constraint. *)
Definition operand_bank (MI : MachineInstr) (OpIdx : nat) (Reg : Z)
    : result (option RegisterBank) :=
  CurRegBank <- getRegBank Reg ;;
  match CurRegBank with
  | Some RB => Ok (Some RB)
  | None =>
      match getRegClassConstraint MI OpIdx with
      | Some RC => Ok (Some (getRegBankFromRegClass RC))
      | None => Ok None
      end
  end.

(** Lines 251-282: the body of the first loop of getInstrMappingImpl. *)
Definition operand_step (MI : MachineInstr) (OpIdx : nat)
    (MO : MachineOperand) (s : InferState)
    : result (control InferState InstructionMapping) :=
  match MO with
  | MO_Other => Ok (Continue s)
  | MO_Register Reg =>
      if Reg =? 0 then Ok (Continue s)
      else
        CurRegBank <- operand_bank MI OpIdx Reg ;;
        match CurRegBank with
        | None =>
            let s := mkInferState (st_Mapping s) false (st_RegBank s)
                       (st_RegSize s) in
            if negb (isCopy MI || isPHI MI)
            then Ok (Return InstructionMapping_invalid)
            else if non_null (st_RegBank s) then Ok (Break s)
            else Ok (Continue s)
        | Some RB =>
            RegSize <- getSizeInBits Reg ;;
            Mapping <- setOperandMapping (st_Mapping s) OpIdx RegSize RB ;;
            Ok (Continue (mkInferState Mapping (st_CompleteMapping s)
                            (Some RB) RegSize))
        end
  end.

(** Lines 250-283: the loop over the operands from [OpIdx] on. *)
Fixpoint operands_loop (MI : MachineInstr) (OpIdx : nat)
    (ops : list MachineOperand) (s : InferState)
    : result (InferState + InstructionMapping) :=
  match ops with
  | [] => Ok (inl s)
  | MO :: ops' =>
      c <- operand_step MI OpIdx MO s ;;
      match c with
      | Continue s' => operands_loop MI (S OpIdx) ops' s'
      | Break s' => Ok (inl s')
      | Return r => Ok (inr r)
      end
  end.

(** Lines 297-303: the loop that gives [RegBank] to the [n] operands from
    [OpIdx] on that have no mapping yet. *)
Fixpoint propagate_loop (n : nat) (OpIdx : nat) (RegSize : Z)
    (RegBank : RegisterBank) (Mapping : InstructionMapping)
    : result InstructionMapping :=
  match n with
  | O => Ok Mapping
  | S n' =>
      VM <- getOperandMapping Mapping OpIdx ;;
      Mapping' <- (if negb (is_empty (BreakDown VM)) then Ok Mapping
                   else setOperandMapping Mapping OpIdx RegSize RegBank) ;;
      propagate_loop n' (S OpIdx) RegSize RegBank Mapping'
  end.

(** RegisterBankInfo::getInstrMappingImpl *)
Definition getInstrMappingImpl (MI : MachineInstr)
    : result InstructionMapping :=
  Mapping <- InstructionMapping_make DefaultMappingID 1 (getNumOperands MI) ;;
  let isCopyLike := isCopy MI || isPHI MI in
  r <- operands_loop MI 0 (Operands MI) (mkInferState Mapping true None 0) ;;
  match r with
  | inr early => Ok early
  | inl s =>
      if st_CompleteMapping s then Ok (st_Mapping s)
      else
        assert NDEBUG isCopyLike
          "We should have bailed on non-copies at this point" ;;;
        match st_RegBank s with
        | None => Ok InstructionMapping_invalid
        | Some RegBank =>
            propagate_loop (getNumOperands MI) 0 (st_RegSize s) RegBank
              (st_Mapping s)
        end
  end.

(** RegisterBankInfo::getInstrMapping, the base implementation *)
Definition getInstrMapping_base (MI : MachineInstr)
    : result InstructionMapping :=
  fallthrough <-
    (if negb (isPreISelGenericOpcode (getOpcode MI)) then
       Mapping <- getInstrMappingImpl MI ;;
       if InstructionMapping_isValid Mapping then Ok (Some Mapping)
       else Ok None
     else Ok None) ;;
  match fallthrough with
  | Some Mapping => Ok Mapping
  | None => Fail (Unreachable "The target must implement this")
  end.

(** RegisterBankInfo::getInstrAlternativeMappings, the base implementation *)
Definition getInstrAlternativeMappings_base (MI : MachineInstr)
    : result InstructionMappings :=
  Ok [].

(** [MI.getOperand(i)] *)
Definition getOperand (MI : MachineInstr) (i : nat) : result MachineOperand :=
  match Operands MI !! i with
  | Some MO => Ok MO
  | None =>
      assert NDEBUG false "getOperand() out of range!" ;;;
      Fail UndefinedBehaviour
  end.

(** Lines 418-433: the loop of InstructionMapping::verify over the [n]
    operands from [Idx] on. *)
Fixpoint InstructionMapping_verify_loop (IM : InstructionMapping)
    (MI : MachineInstr) (n : nat) (Idx : nat) : result unit :=
  match n with
  | O => Ok tt
  | S n' =>
      MO <- getOperand MI Idx ;;
      MOMapping <- getOperandMapping IM Idx ;;
      (match MO with
       | MO_Other =>
           assert NDEBUG (is_empty (BreakDown MOMapping))
             "We should not care about non-reg mapping"
       | MO_Register Reg =>
           if Reg =? 0 then Ok tt
           else
             RegSize <- getSizeInBits Reg ;;
             ValueMapping_verify NDEBUG MOMapping RegSize
       end) ;;;
      InstructionMapping_verify_loop IM MI n' (S Idx)
  end.

(** RegisterBankInfo::InstructionMapping::verify; the instruction is taken
    to be in a function, whose register information is [MRI] and [TRI]. *)
Definition InstructionMapping_verify (IM : InstructionMapping)
    (MI : MachineInstr) : result unit :=
  assert NDEBUG (NumOperands IM =? getNumOperands MI)%nat
    "NumOperands must match, see constructor" ;;;
  InstructionMapping_verify_loop IM MI (NumOperands IM) 0.

(** The methods of RegisterBankInfo a target overrides. *)
Class RegisterBankInfoTarget : Type := {
  getInstrMapping : MachineInstr -> result InstructionMapping;
  getInstrAlternativeMappings : MachineInstr -> result InstructionMappings
}.

(** RegisterBankInfo itself, with no override. *)
Definition RegisterBankInfo_base : RegisterBankInfoTarget :=
  {| getInstrMapping := getInstrMapping_base;
     getInstrAlternativeMappings := getInstrAlternativeMappings_base |}.

(** Lines 327-328: [Mapping.verify(MI)] for each possible mapping. *)
Fixpoint verify_mappings (l : InstructionMappings) (MI : MachineInstr)
    : result unit :=
  match l with
  | [] => Ok tt
  | Mapping :: l' =>
      InstructionMapping_verify Mapping MI ;;; verify_mappings l' MI
  end.

(** RegisterBankInfo::getInstrPossibleMappings *)
Definition getInstrPossibleMappings (T : RegisterBankInfoTarget)
    (MI : MachineInstr) : result InstructionMappings :=
  Default <- getInstrMapping MI ;;
  let PossibleMappings := [Default] in
  AltMappings <- getInstrAlternativeMappings MI ;;
  let PossibleMappings :=
    fold_left (fun acc AltMapping => acc ++ [AltMapping]) AltMappings
      PossibleMappings in
  (if NDEBUG then Ok tt else verify_mappings PossibleMappings MI) ;;;
  Ok PossibleMappings.

(** *** What the first loop of getInstrMappingImpl makes of an operand *)

Inductive operand_class : Type :=
| Skipped
| Unresolved
| Yields (RB : RegisterBank) (RegSize : Z).

(** [Skipped]: not a register operand, or NoRegister.  [Unresolved]: a
    register with no bank, neither of its own nor from the register-class
    constraint.  [Yields RB RegSize]: a register of [RegSize] bits whose
    bank is [RB], which is large enough for it where that is asserted. *)
Definition classifies (MI : MachineInstr) (OpIdx : nat) (MO : MachineOperand)
    (c : operand_class) : Prop :=
  match c with
  | Skipped => MO = MO_Other \/ MO = MO_Register 0
  | Unresolved =>
      exists Reg, MO = MO_Register Reg /\ Reg <> 0 /\
        operand_bank MI OpIdx Reg = Ok None
  | Yields RB RegSize =>
      exists Reg, MO = MO_Register Reg /\ Reg <> 0 /\
        operand_bank MI OpIdx Reg = Ok (Some RB) /\
        getSizeInBits Reg = Ok RegSize /\
        (NDEBUG = false -> RegSize <= Size RB)
  end.

(** The operands [ops], which start at index [OpIdx], have the classes
    [cs], one by one. *)
Fixpoint classified (MI : MachineInstr) (OpIdx : nat)
    (ops : list MachineOperand) (cs : list operand_class) : Prop :=
  match ops, cs with
  | [], [] => True
  | MO :: ops', c :: cs' =>
      classifies MI OpIdx MO c /\ classified MI (S OpIdx) ops' cs'
  | _, _ => False
  end.

(** The first operand, in operand order, whose register yields bank [RB]:
    operand [OpIdx], a register of [RegSize] bits. *)
Definition first_producer (MI : MachineInstr) (RB : RegisterBank)
    (OpIdx : nat) (RegSize : Z) : Prop :=
  (exists MO, Operands MI !! OpIdx = Some MO /\
     classifies MI OpIdx MO (Yields RB RegSize)) /\
  forall j MO RegSize', (j < OpIdx)%nat -> Operands MI !! j = Some MO ->
    ~ classifies MI j MO (Yields RB RegSize').

(** The locals of getInstrMappingImpl when its first loop is left without a
    [return]. *)
Definition after_first_loop (MI : MachineInstr)
    : result (InferState + InstructionMapping) :=
  Mapping <- InstructionMapping_make DefaultMappingID 1 (getNumOperands MI) ;;
  operands_loop MI 0 (Operands MI) (mkInferState Mapping true None 0).

(** The propagation as the specification words it: on a copy-like
    instruction whose banks the first loop resolves in part, every operand
    whose decomposition is still empty gets the bank found, sized to the
    bit-width of the register that first produced that bank. *)
Definition propagates_width_of_first_producer (MI : MachineInstr) : Prop :=
  isCopy MI || isPHI MI = true ->
  forall s RB OpIdx RegSize,
    after_first_loop MI = Ok (inl s) ->
    st_CompleteMapping s = false ->
    st_RegBank s = Some RB ->
    first_producer MI RB OpIdx RegSize ->
    exists m, getInstrMappingImpl MI = Ok m /\
      forall i VM, OperandsMapping (st_Mapping s) !! i = Some VM ->
        BreakDown VM = [] ->
        OperandsMapping m !! i = Some (single_mapping RB RegSize).

End Inference.

Definition is_Yields (c : operand_class) : bool :=
  match c with Yields _ _ => true | _ => false end.
Definition is_Unresolved (c : operand_class) : bool :=
  match c with Unresolved => true | _ => false end.
Definition is_Skipped (c : operand_class) : bool :=
  match c with Skipped => true | _ => false end.

(** What an operand of class [c] ends with when [RB] at [RegSize] bits is
    propagated: its own bank and width if it yielded one, the propagated
    ones otherwise. *)
Definition mapping_of_class (RB : RegisterBank) (RegSize : Z)
    (c : operand_class) : ValueMapping :=
  match c with
  | Yields RB' RegSize' => single_mapping RB' RegSize'
  | _ => single_mapping RB RegSize
  end.

(** * Notions of the specification *)

(** ** Notions for the mappings *)

(** Bits [lo] and [hi] of the mask are set, [lo] not above [hi]: the mask
    occupies at least the [hi - lo + 1] positions from [lo] to [hi]. *)
Definition spans (m : APInt) (lo hi : Z) : Prop :=
  0 <= lo <= hi /\ hi < BitWidth m /\
  Z.testbit (VAL m) lo = true /\ Z.testbit (VAL m) hi = true.

(** The bitwise OR of [acc] and of all the masks of a break-down. *)
Definition masks_or (l : list PartialMapping) (acc : Z) : Z :=
  fold_left Z.lor (map (fun pm => VAL (Mask pm)) l) acc.

(** What the first loop leaves in the slot of an operand of class [c]. *)
Definition scan_slot (c : operand_class) : ValueMapping :=
  match c with
  | Yields RB RegSize => single_mapping RB RegSize
  | _ => {| BreakDown := [] |}
  end.

(** The bank and width the first loop remembers after operands of classes
    [cs]: those of the last one that yielded a bank. *)
Fixpoint last_yield (cs : list operand_class)
    (init : option RegisterBank * Z) : option RegisterBank * Z :=
  match cs with
  | [] => init
  | Yields RB RegSize :: cs' => last_yield cs' (Some RB, RegSize)
  | _ :: cs' => last_yield cs' init
  end.

(** What the second loop does to a slot. *)
Definition propagate_slot (RB : RegisterBank) (RegSize : Z)
    (VM : ValueMapping) : ValueMapping :=
  if is_empty (BreakDown VM) then single_mapping RB RegSize else VM.

(** ** Notions for the coverage closure *)

(** Bit [i] of a mask packed in 32-bit words. *)
Definition has_bit (mask : list Z) (i : nat) : bool :=
  match mask !! (i / 32)%nat with
  | Some w => Z.testbit w (Z.of_nat (i mod 32))
  | None => false
  end.

(** A packed mask over [N] classes has a word for every 32 classes, and its
    words are [uint32_t]. *)
Definition wf_words (N : nat) (mask : list Z) : Prop :=
  ((N + 31) / 32 <= length mask)%nat /\ Forall is_unsigned mask.

(** The catalog is well formed: a class is at the index that is its
    identifier, its masks are packed masks over the catalog, and its
    subclass mask names classes of the catalog only.  The catalog is small
    enough for the [unsigned] counters of the loops not to wrap. *)
Definition wf_TRI (TRI : TargetRegisterInfo) : Prop :=
  Z.of_nat (getNumRegClasses TRI) + 32 < 2 ^ 32 /\
  forall i RC, RegClasses TRI !! i = Some RC ->
    RC_ID RC = i /\
    wf_words (getNumRegClasses TRI) (SubClassMask RC) /\
    (forall j, has_bit (SubClassMask RC) j = true ->
       (j < getNumRegClasses TRI)%nat) /\
    Forall (wf_words (getNumRegClasses TRI)) (SuperRegClassMasks RC).

(** Class [j] is named by the subclass mask of class [i]. *)
Definition is_subclass (TRI : TargetRegisterInfo) (i j : nat) : bool :=
  match RegClasses TRI !! i with
  | Some RC => has_bit (SubClassMask RC) j
  | None => false
  end.

(** Class [i] is named by one of the super-register-class masks of class
    [j]: [j] is a subreg-class of [i]. *)
Definition is_subreg_class (TRI : TargetRegisterInfo) (i j : nat) : bool :=
  match RegClasses TRI !! j with
  | Some RC => existsb (fun mask => has_bit mask i) (SuperRegClassMasks RC)
  | None => false
  end.

(** The size in bits the loop reads for class [i]. *)
Definition class_width (TRI : TargetRegisterInfo) (i : nat) : Z :=
  match RegClasses TRI !! i with
  | Some RC => wrap32 (RC_Size RC * 8)
  | None => 0
  end.

(** The vector after [Covered.set] of each class of [new], last one first. *)
Fixpoint cover_list (new : list nat) (bv : BitVector) : BitVector :=
  match new with
  | [] => bv
  | i :: new' => BitVector_set (cover_list new' bv) i
  end.

(** The state after the pushes of the classes of [new], last one first. *)
Definition push_list (new : list nat) (st : CoverageState) : CoverageState :=
  {| Covered := cover_list new (Covered st);
     WorkList := new ++ WorkList st;
     MaxSize := MaxSize st;
     Pushed := new ++ Pushed st |}.

(** The classes of [new] are distinct and none is covered in [bv]. *)
Definition fresh (bv : BitVector) (new : list nat) : Prop :=
  NoDup new /\ forall i, i ∈ new -> bv !! i = Some false.

(** The number of classes that are not covered. *)
Definition uncovered_count (bv : BitVector) : nat :=
  length (filter (fun b => b = false) bv).

(** The bank is no smaller than any class it covers. *)
Definition bank_holds_classes (TRI : TargetRegisterInfo) (RB : RegisterBank)
    : Prop :=
  forall i, BitVector_test (ContainedRegClasses RB) i = true ->
    class_width TRI i <= Size RB.

(** A coverage vector that has been allocated is one over this catalog. *)
Definition sized_for (TRI : TargetRegisterInfo) (RB : RegisterBank) : Prop :=
  RegisterBank_isValid RB = true ->
  length (ContainedRegClasses RB) = getNumRegClasses TRI.

(** The vector the worklist loop of addRegBankCoverage starts from. *)
Definition start_vector (TRI : TargetRegisterInfo) (RB : RegisterBank)
    : BitVector :=
  if RegisterBank_isValid RB then ContainedRegClasses RB
  else BitVector_resize (ContainedRegClasses RB) (getNumRegClasses TRI).



(** The arrays of banks a target can build: the fresh array, then calls of
    createRegisterBank and of addRegBankCoverage that return. *)
Inductive built (NDEBUG : bool) (TRI : TargetRegisterInfo)
    : list RegisterBank -> Prop :=
| built_new (NumRegBanks : nat) :
    built NDEBUG TRI (RegisterBankInfo_new NumRegBanks)
| built_create (RegBanks RegBanks' : list RegisterBank) (ID : nat)
    (Name : string) :
    built NDEBUG TRI RegBanks ->
    createRegisterBank NDEBUG RegBanks ID Name = Ok RegBanks' ->
    built NDEBUG TRI RegBanks'
| built_cover (RegBanks RegBanks' : list RegisterBank) (fuel ID RCId : nat) :
    built NDEBUG TRI RegBanks ->
    addRegBankCoverage NDEBUG TRI fuel RegBanks ID RCId = Ok RegBanks' ->
    built NDEBUG TRI RegBanks'.

(** What holds of every bank of a built array. *)
Definition bank_inv (TRI : TargetRegisterInfo) (RB : RegisterBank) : Prop :=
  bank_holds_classes TRI RB /\
  (ContainedRegClasses RB = [] \/
   length (ContainedRegClasses RB) = getNumRegClasses TRI).

(** Class [j] is a subclass or a subreg-class of class [i]: one of the
    classes a round of the loop of addRegBankCoverage pushes for [i]. *)
Definition coverage_edge (TRI : TargetRegisterInfo) (i j : nat) : Prop :=
  is_subclass TRI i j = true \/ is_subreg_class TRI i j = true.

(** Class [j] is reached from class [i] through subclasses and
    subreg-classes. *)
Inductive reaches (TRI : TargetRegisterInfo) (i : nat) : nat -> Prop :=
| reaches_refl : reaches TRI i i
| reaches_step (j k : nat) :
    reaches TRI i j -> coverage_edge TRI j k -> reaches TRI i k.

(** The classes a bank covers are closed under subclasses and
    subreg-classes. *)
Definition bank_closed (TRI : TargetRegisterInfo) (RB : RegisterBank)
    : Prop :=
  forall i j, BitVector_test (ContainedRegClasses RB) i = true ->
    coverage_edge TRI i j ->
    BitVector_test (ContainedRegClasses RB) j = true.

(** The size of a bank is zero or the width of a class it covers. *)
Definition bank_size_attained (TRI : TargetRegisterInfo) (RB : RegisterBank)
    : Prop :=
  Size RB = 0 \/
  exists i, BitVector_test (ContainedRegClasses RB) i = true /\
    class_width TRI i = Size RB.

(** What holds of every bank of a built array, with [bank_inv]. *)
Definition bank_inv_closure (TRI : TargetRegisterInfo) (RB : RegisterBank)
    : Prop :=
  bank_inv TRI RB /\ bank_closed TRI RB /\ bank_size_attained TRI RB.

(** Every slot of a mapping is empty or holds one partial mapping, of all
    the bits of a value, in a bank. *)
Definition slot_ok (VM : ValueMapping) : Prop :=
  BreakDown VM = [] \/ exists RB MaskSize, VM = single_mapping RB MaskSize.

(** What InstructionMapping::verify asks of the slot of an operand: nothing
    in it for an operand that is not a register, and for a register other
    than NoRegister a decomposition that ValueMapping::verify accepts for
    the size in bits of the register. *)
Definition slot_accepted (TRI : TargetRegisterInfo)
    (MRI : MachineRegisterInfo) (MO : MachineOperand) (VM : ValueMapping)
    : Prop :=
  match MO with
  | MO_Other => BreakDown VM = []
  | MO_Register Reg =>
      Reg <> 0 ->
      exists RegSize, getSizeInBits false TRI MRI Reg = Ok RegSize /\
        ValueMapping_verify false VM RegSize = Ok tt
  end.

(** A default mapping for an instruction of [n] operands: the default
    identifier, cost 1, [n] operands and a slot for each. *)
Definition mapping_shape (n : nat) (M : InstructionMapping) : Prop :=
  IM_ID M = DefaultMappingID /\ Cost M = 1 /\ NumOperands M = n /\
  length (OperandsMapping M) = n /\ Forall slot_ok (OperandsMapping M).

(** What holds of the locals of getInstrMappingImpl in its first loop, before
    operand [k] of the [n] of the instruction: the mapping is a default
    mapping whose slots from [k] on are empty, the bank remembered is large
    enough for the width remembered, where that is asserted, and the
    mapping is only found incomplete on a copy-like instruction. *)
Definition scan_inv (NDEBUG : bool) (MI : MachineInstr) (n k : nat)
    (s : InferState) : Prop :=
  IM_ID (st_Mapping s) = DefaultMappingID /\ Cost (st_Mapping s) = 1 /\
  NumOperands (st_Mapping s) = n /\
  (exists done,
     OperandsMapping (st_Mapping s)
     = done ++ replicate (n - k) {| BreakDown := [] |} /\
     length done = k /\ Forall slot_ok done) /\
  (forall RB, st_RegBank s = Some RB -> NDEBUG = false ->
     st_RegSize s <= Size RB) /\
  (st_CompleteMapping s = false -> isCopy MI || isPHI MI = true).

(** The widths of the registers that yield a bank are those of an
    [unsigned] that is not zero. *)
Definition width_ok (c : operand_class) : Prop :=
  match c with
  | Yields _ RegSize => 0 < RegSize < 2 ^ 32
  | _ => True
  end.

(** * Examples *)

(** ** Banks and mappings *)

(** A bank of 64 bits that covers the one class of a catalog. *)
Definition bank_F64 : RegisterBank :=
  {| ID := 1; Name := Some "F64"%string; Size := 64;
     ContainedRegClasses := [true] |}.

(** A bank of 32 bits. *)
Definition bank_G32 : RegisterBank :=
  {| ID := 0; Name := Some "G32"%string; Size := 32;
     ContainedRegClasses := [true] |}.

(** A bank of 4 bits. *)
Definition bank_B4 : RegisterBank :=
  {| ID := 0; Name := Some "B4"%string; Size := 4;
     ContainedRegClasses := [true] |}.

(** Bits 2 to 5 of 8, in the 4-bit bank. *)
Definition pm_mid4 : PartialMapping :=
  {| Mask := {| BitWidth := 8; VAL := 60 |}; RegBank := Some bank_B4 |}.

(** Two partial mappings that both hold all 8 bits of a value. *)
Definition pm_all8 : PartialMapping :=
  {| Mask := {| BitWidth := 8; VAL := 255 |}; RegBank := Some bank_F64 |}.
Definition vm_twice : ValueMapping := {| BreakDown := [pm_all8; pm_all8] |}.

(** The low and the high four bits of a value of 8 bits, each in the 4-bit
    bank. *)
Definition pm_low4 : PartialMapping :=
  {| Mask := {| BitWidth := 8; VAL := 15 |}; RegBank := Some bank_B4 |}.
Definition pm_high4 : PartialMapping :=
  {| Mask := {| BitWidth := 8; VAL := 240 |}; RegBank := Some bank_B4 |}.
Definition vm_halves : ValueMapping := {| BreakDown := [pm_low4; pm_high4] |}.

(** A default mapping for two operands, with nothing set yet. *)
Definition IM_empty2 : InstructionMapping :=
  {| IM_ID := DefaultMappingID; Cost := 1; NumOperands := 2;
     OperandsMapping := [ {| BreakDown := [] |}; {| BreakDown := [] |} ] |}.

(** ** A function *)

(** A function whose registers are all virtual: register [2^31 + i] is
    virtual register [i].  Virtual registers 0, of 32 bits, and 4, of 64
    bits, have neither class nor bank; 1 is a 32-bit register in
    [bank_F64]; 2 is a 64-bit register in [bank_F64]; 3 is a 32-bit
    register in [bank_G32]. *)
Definition vreg (i : Z) : Z := 2 ^ 31 + i.

Definition TRI_ex : TargetRegisterInfo :=
  {| RegClasses := [];
     isPhysicalRegister := fun Reg => (0 <? Reg) && (Reg <? 2 ^ 31);
     getMinimalPhysRegClass := fun _ => None |}.

Definition MRI_ex : MachineRegisterInfo :=
  {| MRI_getSize := fun Reg =>
       if (Reg =? vreg 2) || (Reg =? vreg 4) then 64 else 32;
     getRegClassOrRegBank := fun Reg =>
       if Reg =? vreg 1 then IsRegBank (Some bank_F64)
       else if Reg =? vreg 2 then IsRegBank (Some bank_F64)
       else if Reg =? vreg 3 then IsRegBank (Some bank_G32)
       else IsRegClass None |}.

Definition no_constraint (MI : MachineInstr) (OpIdx : nat)
    : option TargetRegisterClass := None.

Definition bank_of_class_ex (RC : TargetRegisterClass) : RegisterBank :=
  bank_F64.

(** [%4 = COPY %2] *)
Definition copy_ex : MachineInstr :=
  {| getOpcode := COPY;
     Operands := [MO_Register (vreg 4); MO_Register (vreg 2)] |}.

(** [%0 = PHI %1, bb, %2, bb]: the two incoming registers are in the same
    bank, the first of 32 bits, the second of 64. *)
Definition phi_ex : MachineInstr :=
  {| getOpcode := PHI;
     Operands := [MO_Register (vreg 0); MO_Register (vreg 1); MO_Other;
                  MO_Register (vreg 2); MO_Other] |}.

(** [%3 = PHI %0, bb, %2, bb]: the loop stops at [%0], before [%2]. *)
Definition phi_stop_ex : MachineInstr :=
  {| getOpcode := PHI;
     Operands := [MO_Register (vreg 3); MO_Register (vreg 0); MO_Other;
                  MO_Register (vreg 2); MO_Other] |}.

(** A target instruction [%3 = OP %0, %2]. *)
Definition op_ex : MachineInstr :=
  {| getOpcode := TargetOpcode 7;
     Operands := [MO_Register (vreg 3); MO_Register (vreg 0);
                  MO_Register (vreg 2)] |}.

(** A target instruction [%3 = OP %1, imm], whose registers have a bank. *)
Definition add_ex : MachineInstr :=
  {| getOpcode := TargetOpcode 7;
     Operands := [MO_Register (vreg 3); MO_Register (vreg 1); MO_Other] |}.

(** [%0 = COPY %4]: neither register has a bank. *)
Definition copy_nobank_ex : MachineInstr :=
  {| getOpcode := COPY;
     Operands := [MO_Register (vreg 0); MO_Register (vreg 4)] |}.

(** [%4 = PHI %2, bb]: the two registers have 64 bits, the incoming one is
    in [bank_F64], the other has no bank; and the locals of
    getInstrMappingImpl after its first loop on it. *)
Definition phi_bb_ex : MachineInstr :=
  {| getOpcode := PHI;
     Operands := [MO_Register (vreg 4); MO_Register (vreg 2); MO_Other] |}.

Definition phi_bb_state : InferState :=
  {| st_Mapping :=
       {| IM_ID := DefaultMappingID; Cost := 1; NumOperands := 3;
          OperandsMapping :=
            [ {| BreakDown := [] |}; single_mapping bank_F64 64;
              {| BreakDown := [] |} ] |};
     st_CompleteMapping := false;
     st_RegBank := Some bank_F64;
     st_RegSize := 64 |}.

(** The encoding asks for the class of 4 bytes at operand 1 of every
    instruction, and for nothing elsewhere. *)
Definition constraint_ex (MI : MachineInstr) (OpIdx : nat)
    : option TargetRegisterClass :=
  match OpIdx with
  | 1%nat => Some {| RC_ID := 1; RC_Size := 4; SubClassMask := [2];
                     SuperRegClassMasks := [] |}
  | _ => None
  end.

(** A function in which virtual register 1 has 64 bits and is in the bank
    of 32 bits, and [%1 = COPY %1] in it. *)
Definition MRI_wide_ex : MachineRegisterInfo :=
  {| MRI_getSize := fun Reg => 64;
     getRegClassOrRegBank := fun Reg => IsRegBank (Some bank_G32) |}.

Definition copy_wide_ex : MachineInstr :=
  {| getOpcode := COPY;
     Operands := [MO_Register (vreg 1); MO_Register (vreg 1)] |}.

(** ** A catalog *)

(** A catalog of three classes: class 0, of 8 bytes, has subclasses 0 and
    1; class 1 has 4 bytes; class 2, of 2 bytes, is a subreg-class of
    class 0. *)
Definition TRI_cov : TargetRegisterInfo :=
  {| RegClasses :=
       [ {| RC_ID := 0; RC_Size := 8; SubClassMask := [3];
            SuperRegClassMasks := [] |};
         {| RC_ID := 1; RC_Size := 4; SubClassMask := [2];
            SuperRegClassMasks := [] |};
         {| RC_ID := 2; RC_Size := 2; SubClassMask := [4];
            SuperRegClassMasks := [[1]] |} ];
     isPhysicalRegister := fun Reg => (0 <? Reg) && (Reg <? 2 ^ 31);
     getMinimalPhysRegClass := fun _ => None |}.

(** One bank, created and not covering anything yet; and the same bank
    after the coverage of class 0 was added. *)
Definition RegBanks_ex : list RegisterBank :=
  [ {| ID := 0; Name := Some "GPR"%string; Size := 0;
       ContainedRegClasses := [] |} ].
Definition RegBanks1_ex : list RegisterBank :=
  [ {| ID := 0; Name := Some "GPR"%string; Size := 64;
       ContainedRegClasses := [true; true; true] |} ].

(** A catalog of one class, of no bytes; and the bank of [RegBanks_ex]
    after the coverage of that class was added. *)
Definition TRI_void_ex : TargetRegisterInfo :=
  {| RegClasses :=
       [ {| RC_ID := 0; RC_Size := 0; SubClassMask := [1];
            SuperRegClassMasks := [] |} ];
     isPhysicalRegister := fun Reg => (0 <? Reg) && (Reg <? 2 ^ 31);
     getMinimalPhysRegClass := fun _ => None |}.
Definition RegBanks_void_ex : list RegisterBank :=
  [ {| ID := 0; Name := Some "GPR"%string; Size := 0;
       ContainedRegClasses := [true] |} ].

(** Two banks, created and not covering anything yet. *)
Definition RegBanks_two_ex : list RegisterBank :=
  [ {| ID := 0; Name := Some "GPR"%string; Size := 0;
       ContainedRegClasses := [] |};
    {| ID := 1; Name := Some "FPR"%string; Size := 0;
       ContainedRegClasses := [] |} ].

(** The bank of [RegBanks_ex] after the coverage of class 1, and after the
    coverage of classes 1 and 2. *)
Definition RegBanks_c1_ex : list RegisterBank :=
  [ {| ID := 0; Name := Some "GPR"%string; Size := 32;
       ContainedRegClasses := [false; true; false] |} ].
Definition RegBanks_c12_ex : list RegisterBank :=
  [ {| ID := 0; Name := Some "GPR"%string; Size := 32;
       ContainedRegClasses := [false; true; true] |} ].

(** * Proofs *)

(** ** The result monad *)

Lemma bind_Ok_inv {A B : Type} (r : result A) (k : A -> result B) (b : B) :
  bind r k = Ok b -> exists a, r = Ok a /\ k a = Ok b.
Proof. destruct r as [a|f]; simpl; intros H; [eauto | discriminate]. Qed.

Lemma assert_debug_Ok (c : bool) (msg : string) (u : unit) :
  assert false c msg = Ok u <-> c = true.
Proof. unfold assert; destruct u, c; simpl; split; congruence. Qed.

Lemma assert_true (NDEBUG : bool) (msg : string) :
  assert NDEBUG true msg = Ok tt.
Proof. unfold assert; destruct NDEBUG; reflexivity. Qed.

(** Inverts a hypothesis [e = Ok x] where [e] is a chain of binds. *)
Ltac inv_Ok H :=
  match type of H with
  | bind _ _ = Ok _ =>
      let a := fresh "a" in
      let H1 := fresh H "a" in
      let H2 := fresh H "b" in
      apply bind_Ok_inv in H; destruct H as (a & H1 & H2);
      try inv_Ok H1; try inv_Ok H2
  | assert false _ _ = Ok _ => apply assert_debug_Ok in H
  | Ok _ = Ok _ => injection H as H
  | Fail _ = Ok _ => discriminate H
  end.

(** ** Bit counts *)

Lemma ctz_scan_range (n : nat) (i v : Z) : 0 <= ctz_scan n i v <= Z.of_nat n.
Proof.
  revert i; induction n as [|n IH]; intros i; simpl ctz_scan; [lia|].
  destruct (Z.testbit v i); [lia | specialize (IH (i + 1)); lia].
Qed.

Lemma ctz_scan_below (n : nat) (i v k : Z) :
  0 <= k < ctz_scan n i v -> Z.testbit v (i + k) = false.
Proof.
  revert i k; induction n as [|n IH]; intros i k Hk; simpl ctz_scan in Hk;
    [lia|].
  destruct (Z.testbit v i) eqn:Hb; [lia|].
  destruct (Z.eq_dec k 0) as [->|Hne]; [now rewrite Z.add_0_r|].
  replace (i + k) with (i + 1 + (k - 1)) by lia. apply IH. lia.
Qed.

Lemma ctz_scan_hit (n : nat) (i v : Z) :
  ctz_scan n i v < Z.of_nat n -> Z.testbit v (i + ctz_scan n i v) = true.
Proof.
  revert i; induction n as [|n IH]; intros i Hlt; simpl ctz_scan in *; [lia|].
  destruct (Z.testbit v i) eqn:Hb; [now rewrite Z.add_0_r|].
  replace (i + (1 + ctz_scan n (i + 1) v))
    with (i + 1 + ctz_scan n (i + 1) v) by lia.
  apply IH. lia.
Qed.

Lemma clz_scan_range (n : nat) (v : Z) : 0 <= clz_scan n v <= Z.of_nat n.
Proof.
  induction n as [|n IH]; simpl clz_scan; [lia|].
  destruct (Z.testbit v (Z.of_nat n)); lia.
Qed.

Lemma clz_scan_above (n : nat) (v k : Z) :
  Z.of_nat n - clz_scan n v <= k < Z.of_nat n -> Z.testbit v k = false.
Proof.
  induction n as [|n IH]; intros Hk; simpl clz_scan in Hk; [lia|].
  destruct (Z.testbit v (Z.of_nat n)) eqn:Hb; [lia|].
  destruct (Z.eq_dec k (Z.of_nat n)) as [->|Hne]; [exact Hb|].
  apply IH. lia.
Qed.

Lemma clz_scan_hit (n : nat) (v : Z) :
  clz_scan n v < Z.of_nat n ->
  Z.testbit v (Z.of_nat n - 1 - clz_scan n v) = true.
Proof.
  induction n as [|n IH]; intros Hlt; simpl clz_scan in *; [lia|].
  destruct (Z.testbit v (Z.of_nat n)) eqn:Hb.
  - replace (Z.of_nat (S n) - 1 - 0) with (Z.of_nat n) by lia. exact Hb.
  - replace (Z.of_nat (S n) - 1 - (1 + clz_scan n v))
      with (Z.of_nat n - 1 - clz_scan n v) by lia.
    apply IH. lia.
Qed.

(** A non-zero value below [2 ^ w] has a set bit below [w]. *)
Lemma nonzero_has_bit (w v : Z) :
  0 <= v < 2 ^ w -> v <> 0 -> exists k, 0 <= k < w /\ Z.testbit v k = true.
Proof.
  intros Hv Hne. exists (Z.log2 v). split.
  - split; [apply Z.log2_nonneg|].
    destruct (Z_lt_le_dec w 0) as [Hw|Hw].
    + rewrite Z.pow_neg_r in Hv by lia. lia.
    + apply Z.log2_lt_pow2; lia.
  - apply Z.bit_log2. lia.
Qed.

(** ** PartialMapping::verify *)

(** The width the source computes, between the lowest and the highest set
    bit. *)
Lemma ActiveWidth_bounds (m : APInt) (lo hi : Z) :
  is_unsigned (BitWidth m) -> spans m lo hi ->
  let aw := BitWidth m - countLeadingZeros m - countTrailingZeros m in
  hi - lo + 1 <= aw <= BitWidth m /\ wrap32 aw = aw /\ VAL m <> 0.
Proof.
  intros Hw (Hlo & Hhi & Blo & Bhi). unfold countLeadingZeros, countTrailingZeros.
  set (n := Z.to_nat (BitWidth m)).
  assert (Hn : Z.of_nat n = BitWidth m) by (unfold n, is_unsigned in *; lia).
  pose proof (ctz_scan_range n 0 (VAL m)) as Hc.
  pose proof (clz_scan_range n (VAL m)) as Hl.
  assert (Hc' : ctz_scan n 0 (VAL m) <= lo).
  { destruct (Z_le_gt_dec (ctz_scan n 0 (VAL m)) lo) as [|Hgt]; [assumption|].
    pose proof (ctz_scan_below n 0 (VAL m) lo) as Hf. rewrite Z.add_0_l in Hf.
    rewrite Hf in Blo by lia. discriminate. }
  assert (Hl' : clz_scan n (VAL m) <= BitWidth m - 1 - hi).
  { destruct (Z_le_gt_dec (clz_scan n (VAL m)) (BitWidth m - 1 - hi))
      as [|Hgt]; [assumption|].
    rewrite (clz_scan_above n (VAL m) hi) in Bhi by lia. discriminate. }
  cbv zeta. repeat split; try lia.
  - unfold wrap32, is_unsigned in *. apply Z.mod_small. lia.
  - intros H0. rewrite H0, Z.testbit_0_l in Blo. discriminate.
Qed.

(** A non-zero mask spans from its lowest to its highest set bit, which are
    the bits the counts of the source find. *)
Lemma ActiveWidth_spans (m : APInt) :
  wf_APInt m -> VAL m <> 0 ->
  exists lo hi, spans m lo hi /\
    hi - lo + 1 = BitWidth m - countLeadingZeros m - countTrailingZeros m.
Proof.
  intros [Hw Hv] Hne. unfold countLeadingZeros, countTrailingZeros.
  set (n := Z.to_nat (BitWidth m)).
  assert (Hn : Z.of_nat n = BitWidth m) by (unfold n, is_unsigned in *; lia).
  destruct (nonzero_has_bit (BitWidth m) (VAL m) Hv Hne) as (k & Hk & Bk).
  pose proof (ctz_scan_range n 0 (VAL m)) as Hc.
  pose proof (clz_scan_range n (VAL m)) as Hl.
  assert (Hc' : ctz_scan n 0 (VAL m) <= k).
  { destruct (Z_le_gt_dec (ctz_scan n 0 (VAL m)) k) as [|Hgt]; [assumption|].
    pose proof (ctz_scan_below n 0 (VAL m) k) as Hf. rewrite Z.add_0_l in Hf.
    rewrite Hf in Bk by lia. discriminate. }
  assert (Hl' : clz_scan n (VAL m) <= BitWidth m - 1 - k).
  { destruct (Z_le_gt_dec (clz_scan n (VAL m)) (BitWidth m - 1 - k))
      as [|Hgt]; [assumption|].
    rewrite (clz_scan_above n (VAL m) k) in Bk by lia. discriminate. }
  exists (ctz_scan n 0 (VAL m)), (BitWidth m - 1 - clz_scan n (VAL m)).
  split; [|lia]. unfold spans. repeat split; try lia.
  - pose proof (ctz_scan_hit n 0 (VAL m)) as Hh. rewrite Z.add_0_l in Hh. apply Hh. lia.
  - rewrite <- Hn. apply clz_scan_hit. lia.
Qed.

(** C8: with assertions on, PartialMapping::verify accepts a partial mapping
    exactly when the size of its bank is at least the number of positions
    between any two set bits of its mask, both included; so it fails when
    the span from the lowest to the highest set bit exceeds the size of the
    bank, and an all-zero mask, which spans nothing, asks nothing of the
    bank. *)
Theorem PartialMapping_verify_span (pm : PartialMapping) (rb : RegisterBank) :
  wf_APInt (Mask pm) -> is_unsigned (Size rb) -> RegBank pm = Some rb ->
  (PartialMapping_verify false pm = Ok tt <->
   forall lo hi, spans (Mask pm) lo hi -> hi - lo + 1 <= Size rb).
Proof.
  intros Hwf Hsz Hrb. unfold PartialMapping_verify. rewrite Hrb.
  unfold getBitWidth, RegisterBank_getSize, getBoolValue. simpl non_null.
  rewrite assert_true. simpl bind. split.
  - intros H lo hi Hsp.
    destruct (ActiveWidth_bounds (Mask pm) lo hi (proj1 Hwf) Hsp)
      as (Hb & Hwrap & Hne).
    apply Z.eqb_neq in Hne. rewrite Hne in H. simpl negb in H. cbv iota in H.
    rewrite Hwrap in H. inv_Ok H. lia.
  - intros H. destruct (Z.eqb_spec (VAL (Mask pm)) 0) as [H0|Hne]; simpl negb;
      cbv iota.
    + destruct Hwf as [Hw _]. unfold is_unsigned in *.
      replace (0 <=? BitWidth (Mask pm)) with true by (symmetry; lia).
      replace (Size rb >=? 0) with true by (symmetry; lia).
      reflexivity.
    + destruct (ActiveWidth_spans (Mask pm) Hwf Hne) as (lo & hi & Hsp & Heq).
      destruct (ActiveWidth_bounds (Mask pm) lo hi (proj1 Hwf) Hsp)
        as (Hb & Hwrap & _).
      rewrite Hwrap. specialize (H lo hi Hsp).
      replace (_ <=? BitWidth (Mask pm)) with true by (symmetry; lia).
      replace (Size rb >=? _) with true by (symmetry; lia).
      reflexivity.
Qed.

Lemma PartialMapping_verify_span_witness :
  PartialMapping_verify false pm_mid4 = Ok tt <->
  forall lo hi, spans (Mask pm_mid4) lo hi -> hi - lo + 1 <= Size bank_B4.
Proof.
  apply (PartialMapping_verify_span pm_mid4 bank_B4).
  - unfold wf_APInt, is_unsigned; simpl; lia.
  - unfold is_unsigned; simpl; lia.
  - reflexivity.
Defined.

(** ** ValueMapping::verify *)

Lemma masks_or_acc (l : list PartialMapping) (x : Z) :
  masks_or l x = Z.lor x (masks_or l 0).
Proof.
  unfold masks_or. revert x.
  induction l as [|a l IH]; intros x; simpl.
  - now rewrite Z.lor_0_r.
  - rewrite IH, (IH (Z.lor 0 _)), Z.lor_0_l, Z.lor_assoc. reflexivity.
Qed.

Lemma masks_or_absorb (l : list PartialMapping) (pm : PartialMapping) :
  In pm l -> Z.lor (VAL (Mask pm)) (masks_or l 0) = masks_or l 0.
Proof.
  induction l as [|a l IH]; intros Hin; [destruct Hin|].
  change (masks_or (a :: l) 0) with (masks_or l (Z.lor 0 (VAL (Mask a)))).
  rewrite masks_or_acc, Z.lor_0_l.
  destruct Hin as [->|Hin].
  - now rewrite Z.lor_assoc, Z.lor_diag.
  - rewrite Z.lor_assoc, (Z.lor_comm (VAL (Mask pm))), <- Z.lor_assoc.
    now rewrite IH.
Qed.

Lemma ValueMapping_verify_loop_sound (w : Z) (l : list PartialMapping) :
  forall M M', ValueMapping_verify_loop false w M l = Ok M' ->
  Forall (fun pm => getBitWidth (Mask pm) = w /\
                    PartialMapping_verify false pm = Ok tt) l /\
  M' = {| BitWidth := BitWidth M; VAL := masks_or l (VAL M) |}.
Proof.
  induction l as [|pm l IH]; intros M M' H; simpl in H.
  - injection H as <-. split; [constructor | now destruct M].
  - inv_Ok H. destruct a0. apply IH in Hbb as [HF ->]. split.
    + constructor; [split; [lia | assumption] | assumption].
    + reflexivity.
Qed.

Lemma ValueMapping_verify_loop_complete (w : Z) (l : list PartialMapping) :
  forall M,
  Forall (fun pm => getBitWidth (Mask pm) = w /\
                    PartialMapping_verify false pm = Ok tt) l ->
  ValueMapping_verify_loop false w M l
  = Ok {| BitWidth := BitWidth M; VAL := masks_or l (VAL M) |}.
Proof.
  induction l as [|pm l IH]; intros M HF; simpl.
  - now destruct M.
  - inversion HF as [|? ? [Hw Hv] HF']; subst.
    rewrite Z.eqb_refl, assert_true, Hv. simpl bind. now rewrite IH.
Qed.

(** C7: with assertions on, a ValueMapping that ValueMapping::verify accepts
    for a bit-width has a non-empty break-down, each mask of which has that
    bit-width, and the bitwise OR of the masks is the all-ones value of that
    width.  Bits that two partial mappings both cover are not rejected: the
    accepted mapping stays accepted when one of its partial mappings is
    added to it once more. *)
Theorem ValueMapping_verify_coverage (vm : ValueMapping) (w : Z) :
  ValueMapping_verify false vm w = Ok tt ->
  BreakDown vm <> [] /\
  Forall (fun pm => getBitWidth (Mask pm) = w) (BreakDown vm) /\
  masks_or (BreakDown vm) 0 = Z.ones w /\
  (forall pm, In pm (BreakDown vm) ->
     ValueMapping_verify false {| BreakDown := pm :: BreakDown vm |} w
     = Ok tt).
Proof.
  unfold ValueMapping_verify. intros H. inv_Ok H.
  destruct (last (BreakDown vm)) as [back|] eqn:Hlast; [|discriminate].
  inv_Ok Hb. apply ValueMapping_verify_loop_sound in Hbba as [HF ->].
  unfold isAllOnesValue in Hbbb. simpl in Hbbb.
  unfold getBitWidth in *.
  assert (Hw : BitWidth (Mask back) = w) by lia.
  rewrite Zmod_0_l in Hbbb. apply Z.eqb_eq in Hbbb.
  destruct (BreakDown vm) as [|pm0 l0] eqn:Hbd; [discriminate|].
  rewrite <- Hbd in *. rewrite Hw in *.
  assert (HF' : Forall (fun pm => BitWidth (Mask pm) = w) (BreakDown vm)).
  { eapply Forall_impl; [exact HF | intros ? [? _]; assumption]. }
  repeat split; try assumption.
  - rewrite Hbd. discriminate.
  - intros pm Hin. simpl BreakDown.
    assert (Hpm : BitWidth (Mask pm) = w /\
                  PartialMapping_verify false pm = Ok tt).
    { rewrite Forall_forall in HF. apply HF. apply list_elem_of_In, Hin. }
    replace (last (pm :: BreakDown vm)) with (Some back)
      by (rewrite Hbd in *; symmetry; exact Hlast).
    unfold is_empty. rewrite assert_true. simpl bind. rewrite Hw.
    rewrite Z.eqb_refl, assert_true. simpl bind.
    destruct Hpm as [Hpw Hpv]. unfold getBitWidth.
    rewrite Hpw, Z.eqb_refl, assert_true, Hpv. simpl bind.
    rewrite (ValueMapping_verify_loop_complete w (BreakDown vm)) by assumption.
    simpl bind. unfold isAllOnesValue. simpl BitWidth. simpl VAL.
    rewrite Zmod_0_l.
    rewrite masks_or_acc, Z.lor_0_l, masks_or_absorb by assumption.
    rewrite Hbbb, Z.eqb_refl. apply assert_true.
Qed.

Lemma ValueMapping_verify_coverage_witness :
  BreakDown vm_twice <> [] /\
  Forall (fun pm => getBitWidth (Mask pm) = 8) (BreakDown vm_twice) /\
  masks_or (BreakDown vm_twice) 0 = Z.ones 8 /\
  (forall pm, In pm (BreakDown vm_twice) ->
     ValueMapping_verify false {| BreakDown := pm :: BreakDown vm_twice |} 8
     = Ok tt).
Proof.
  apply (ValueMapping_verify_coverage vm_twice 8). vm_compute. reflexivity.
Defined.

(** The two partial mappings of [vm_twice] share every bit, and it is
    accepted. *)
Example vm_twice_overlaps :
  ValueMapping_verify false vm_twice 8 = Ok tt /\
  Z.land (VAL (Mask pm_all8)) (VAL (Mask pm_all8)) = 255.
Proof. split; vm_compute; reflexivity. Qed.

(** ** setOperandMapping and the loops of getInstrMappingImpl *)

Lemma assert_when (NDEBUG c : bool) (msg : string) :
  (NDEBUG = false -> c = true) -> assert NDEBUG c msg = Ok tt.
Proof. unfold assert. destruct NDEBUG; simpl; [reflexivity|]. intros ->; reflexivity. Qed.

Lemma full_mask (MaskSize : Z) :
  flipAllBits (APInt_make MaskSize 0)
  = {| BitWidth := MaskSize; VAL := Z.ones MaskSize |}.
Proof.
  unfold flipAllBits, APInt_make. simpl BitWidth. simpl VAL.
  now rewrite Zmod_0_l, Z.lxor_0_l.
Qed.

Lemma getOperandMapping_lookup (NDEBUG : bool) (IM : InstructionMapping)
    (i : nat) (VM : ValueMapping) :
  (i < NumOperands IM)%nat -> OperandsMapping IM !! i = Some VM ->
  getOperandMapping NDEBUG IM i = Ok VM.
Proof.
  intros Hi Hl. unfold getOperandMapping.
  rewrite assert_when by (intros _; apply Nat.ltb_lt, Hi).
  simpl bind. now rewrite Hl.
Qed.

Lemma setOperandMapping_empty (NDEBUG : bool) (IM : InstructionMapping)
    (i : nat) (MaskSize : Z) (RB : RegisterBank) :
  (NDEBUG = false -> MaskSize <= Size RB) ->
  (i < NumOperands IM)%nat ->
  OperandsMapping IM !! i = Some {| BreakDown := [] |} ->
  setOperandMapping NDEBUG IM i MaskSize RB
  = Ok (mkInstructionMapping (IM_ID IM) (Cost IM) (NumOperands IM)
          (<[i := single_mapping RB MaskSize]> (OperandsMapping IM))).
Proof.
  intros Hsz Hi Hl. unfold setOperandMapping, RegisterBank_getSize.
  rewrite assert_when by (intros Hd; apply Z.leb_le, Hsz, Hd).
  simpl bind. rewrite (getOperandMapping_lookup _ _ _ _ Hi Hl). simpl bind.
  now rewrite full_mask.
Qed.

Section InferenceProofs.

Variable NDEBUG : bool.
Variable TRI : TargetRegisterInfo.
Variable MRI : MachineRegisterInfo.
Variable getRegClassConstraint :
  MachineInstr -> nat -> option TargetRegisterClass.
Variable getRegBankFromRegClass : TargetRegisterClass -> RegisterBank.

Local Abbreviation operand_step' :=
  (operand_step NDEBUG TRI MRI getRegClassConstraint getRegBankFromRegClass).
Local Abbreviation operands_loop' :=
  (operands_loop NDEBUG TRI MRI getRegClassConstraint getRegBankFromRegClass).
Local Abbreviation operand_bank' :=
  (operand_bank NDEBUG TRI MRI getRegClassConstraint getRegBankFromRegClass).
Local Abbreviation classifies' :=
  (classifies NDEBUG TRI MRI getRegClassConstraint getRegBankFromRegClass).
Local Abbreviation classified' :=
  (classified NDEBUG TRI MRI getRegClassConstraint getRegBankFromRegClass).
Local Abbreviation getInstrMappingImpl' :=
  (getInstrMappingImpl NDEBUG TRI MRI getRegClassConstraint
     getRegBankFromRegClass).
Local Abbreviation getInstrMapping_base' :=
  (getInstrMapping_base NDEBUG TRI MRI getRegClassConstraint
     getRegBankFromRegClass).
Local Abbreviation empty_slot := {| BreakDown := [] |}.

Lemma classified_length (MI : MachineInstr) (cs : list operand_class) :
  forall k ops, classified' MI k ops cs -> length ops = length cs.
Proof.
  induction cs as [|c cs IH]; intros k [|MO ops] H; simpl in H; try tauto.
  destruct H as [_ H]. simpl. f_equal. eauto.
Qed.

Lemma classified_app_inv (MI : MachineInstr) (cs1 cs2 : list operand_class) :
  forall k ops, classified' MI k ops (cs1 ++ cs2) ->
  exists ops1 ops2, ops = ops1 ++ ops2 /\
    classified' MI k ops1 cs1 /\
    classified' MI (k + length cs1) ops2 cs2.
Proof.
  induction cs1 as [|c cs1 IH]; intros k ops H.
  - exists [], ops. simpl. rewrite Nat.add_0_r. auto.
  - destruct ops as [|MO ops]; simpl in H; [tauto|]. destruct H as [Hc H].
    destruct (IH _ _ H) as (ops1 & ops2 & -> & H1 & H2).
    exists (MO :: ops1), ops2. simpl.
    replace (k + S (length cs1))%nat with (S k + length cs1)%nat by lia.
    auto.
Qed.

Lemma operand_step_Skipped (MI : MachineInstr) (k : nat)
    (MO : MachineOperand) (s : InferState) :
  classifies' MI k MO Skipped -> operand_step' MI k MO s = Ok (Continue s).
Proof. intros [-> | ->]; reflexivity. Qed.

Lemma operand_step_Yields (MI : MachineInstr) (k : nat) (MO : MachineOperand)
    (s : InferState) (RB : RegisterBank) (RegSize : Z) :
  classifies' MI k MO (Yields RB RegSize) ->
  (k < NumOperands (st_Mapping s))%nat ->
  OperandsMapping (st_Mapping s) !! k = Some empty_slot ->
  operand_step' MI k MO s
  = Ok (Continue
          (mkInferState
             (mkInstructionMapping (IM_ID (st_Mapping s)) (Cost (st_Mapping s))
                (NumOperands (st_Mapping s))
                (<[k := single_mapping RB RegSize]>
                   (OperandsMapping (st_Mapping s))))
             (st_CompleteMapping s) (Some RB) RegSize)).
Proof.
  intros (Reg & -> & Hne & Hb & Hs & Hfit) Hk Hl. unfold operand_step.
  apply Z.eqb_neq in Hne. rewrite Hne, Hb. simpl bind. rewrite Hs. simpl bind.
  now rewrite (setOperandMapping_empty _ _ _ _ _ Hfit Hk Hl).
Qed.

Lemma operand_step_Unresolved (MI : MachineInstr) (k : nat)
    (MO : MachineOperand) (s : InferState) :
  classifies' MI k MO Unresolved ->
  operand_step' MI k MO s
  = Ok (if negb (isCopy MI || isPHI MI) then Return InstructionMapping_invalid
        else
          let s' := mkInferState (st_Mapping s) false (st_RegBank s)
                      (st_RegSize s) in
          if non_null (st_RegBank s) then Break s' else Continue s').
Proof.
  intros (Reg & -> & Hne & Hb). unfold operand_step.
  apply Z.eqb_neq in Hne. rewrite Hne, Hb. simpl bind.
  destruct (negb _); [reflexivity|]. simpl st_RegBank.
  destruct (non_null _); reflexivity.
Qed.

Lemma insert_middle {A : Type} (l1 l2 : list A) (x y : A) :
  <[length l1 := x]> (l1 ++ y :: l2) = l1 ++ x :: l2.
Proof. rewrite insert_app_r_alt by lia. now rewrite Nat.sub_diag. Qed.

Lemma operands_loop_cons (MI : MachineInstr) (k : nat) (MO : MachineOperand)
    (ops : list MachineOperand) (s : InferState) :
  operands_loop' MI k (MO :: ops) s
  = (c <- operand_step' MI k MO s ;;
     match c with
     | Continue s' => operands_loop' MI (S k) ops s'
     | Break s' => Ok (inl s')
     | Return r => Ok (inr r)
     end).
Proof. reflexivity. Qed.

(** The first loop over operands none of which yields a bank, before any
    bank was found, in a copy-like instruction. *)
Lemma operands_loop_no_bank (MI : MachineInstr) (cs : list operand_class) :
  isCopy MI || isPHI MI = true ->
  forall k ops s rest,
  classified' MI k ops cs ->
  Forall (fun c => is_Yields c = false) cs ->
  st_RegBank s = None ->
  operands_loop' MI k (ops ++ rest) s
  = operands_loop' MI (k + length ops) rest
      (mkInferState (st_Mapping s)
         (st_CompleteMapping s && negb (existsb is_Unresolved cs))
         (st_RegBank s) (st_RegSize s)).
Proof.
  intros Hcopy. induction cs as [|c cs IH]; intros k [|MO ops] s rest Hc HF Hnone;
    simpl in Hc; try tauto.
  - simpl. rewrite Nat.add_0_r, andb_true_r. now destruct s.
  - destruct Hc as [Hc Hcs]. inversion HF as [|? ? Hy HF']; subst.
    simpl app. rewrite operands_loop_cons.
    replace (k + length (MO :: ops))%nat with (S k + length ops)%nat
      by (simpl; lia).
    destruct c as [| |RB sz]; [| |discriminate].
    + rewrite (operand_step_Skipped _ _ _ _ Hc). simpl bind.
      now rewrite (IH _ _ _ _ Hcs HF' Hnone).
    + rewrite (operand_step_Unresolved _ _ _ _ Hc), Hcopy, Hnone. simpl.
      rewrite (IH _ _ _ _ Hcs HF') by reflexivity. simpl.
      now rewrite andb_false_r.
Qed.

(** The first loop over operands each of which is skipped or yields a
    bank. *)
Lemma operands_loop_resolved (MI : MachineInstr) (cs : list operand_class) :
  forall k ops s done m rest,
  classified' MI k ops cs ->
  Forall (fun c => is_Unresolved c = false) cs ->
  length done = k ->
  OperandsMapping (st_Mapping s)
  = done ++ replicate (length ops + m) empty_slot ->
  NumOperands (st_Mapping s) = (k + length ops + m)%nat ->
  operands_loop' MI k (ops ++ rest) s
  = operands_loop' MI (k + length ops) rest
      (mkInferState
         (mkInstructionMapping (IM_ID (st_Mapping s)) (Cost (st_Mapping s))
            (NumOperands (st_Mapping s))
            (done ++ map scan_slot cs ++ replicate m empty_slot))
         (st_CompleteMapping s)
         (fst (last_yield cs (st_RegBank s, st_RegSize s)))
         (snd (last_yield cs (st_RegBank s, st_RegSize s)))).
Proof.
  induction cs as [|c cs IH]; intros k [|MO ops] s done m rest Hc HF Hlen HM HN;
    simpl in Hc; try tauto.
  - simpl. simpl in HM. rewrite Nat.add_0_r, <- HM.
    destruct s as [[] ? ? ?]; reflexivity.
  - destruct Hc as [Hc Hcs]. inversion HF as [|? ? Hu HF']; subst.
    simpl app. rewrite operands_loop_cons.
    replace (length done + length (MO :: ops))%nat
      with (S (length done) + length ops)%nat by (simpl; lia).
    simpl length in HM, HN. simpl replicate in HM.
    destruct c as [| |RB sz]; [|discriminate|].
    + rewrite (operand_step_Skipped _ _ _ _ Hc). simpl bind.
      rewrite (IH _ _ s (done ++ [empty_slot]) m rest Hcs HF').
      * simpl. now rewrite <- !app_assoc.
      * rewrite length_app. simpl. lia.
      * rewrite HM, <- app_assoc. reflexivity.
      * lia.
    + rewrite (operand_step_Yields _ _ _ _ _ _ Hc).
      * simpl bind. rewrite HM.
        rewrite (IH _ _ _ (done ++ [single_mapping RB sz]) m rest Hcs HF').
        -- simpl. now rewrite <- !app_assoc.
        -- rewrite length_app. simpl. lia.
        -- simpl. rewrite <- app_assoc. simpl.
           rewrite insert_middle; reflexivity.
        -- simpl. lia.
      * lia.
      * rewrite HM. now rewrite list_lookup_middle.
Qed.

Lemma propagate_loop_spec (RB : RegisterBank) (RegSize : Z) :
  (NDEBUG = false -> RegSize <= Size RB) ->
  forall todo done (Mapping : InstructionMapping),
  OperandsMapping Mapping = done ++ todo ->
  NumOperands Mapping = (length done + length todo)%nat ->
  propagate_loop NDEBUG (length todo) (length done) RegSize RB Mapping
  = Ok (mkInstructionMapping (IM_ID Mapping) (Cost Mapping)
          (NumOperands Mapping)
          (done ++ map (propagate_slot RB RegSize) todo)).
Proof.
  intros Hfit. induction todo as [|VM todo IH]; intros done Mapping HM HN.
  - simpl. rewrite <- HM. now destruct Mapping.
  - simpl length in *. simpl propagate_loop.
    rewrite (getOperandMapping_lookup _ _ _ VM)
      by (lia || (rewrite HM; apply list_lookup_middle; reflexivity)).
    simpl bind.
    assert (Hstep :
      (if negb (is_empty (BreakDown VM)) then Ok Mapping
       else setOperandMapping NDEBUG Mapping (length done) RegSize RB)
      = Ok (mkInstructionMapping (IM_ID Mapping) (Cost Mapping)
              (NumOperands Mapping)
              ((done ++ [propagate_slot RB RegSize VM]) ++ todo))).
    { unfold propagate_slot. destruct VM as [[|pm bd]]; simpl.
      - rewrite setOperandMapping_empty; [|assumption|lia|].
        + rewrite HM, insert_middle, <- app_assoc. reflexivity.
        + rewrite HM. now apply list_lookup_middle.
      - rewrite <- app_assoc. simpl app. rewrite <- HM. now destruct Mapping. }
    rewrite Hstep. simpl bind.
    replace (S (length done)) with (length (done ++ [propagate_slot RB RegSize VM]))
      by (rewrite length_app; simpl; lia).
    rewrite IH.
    + simpl. now rewrite <- app_assoc.
    + reflexivity.
    + simpl. rewrite length_app. simpl. lia.
Qed.

Lemma last_yield_app (cs1 cs2 : list operand_class)
    (init : option RegisterBank * Z) :
  last_yield (cs1 ++ cs2) init = last_yield cs2 (last_yield cs1 init).
Proof.
  revert init. induction cs1 as [|[| |RB sz] cs1 IH]; intros init; simpl; auto.
Qed.

Lemma last_yield_Skipped (cs : list operand_class)
    (init : option RegisterBank * Z) :
  Forall (fun c => is_Skipped c = true) cs -> last_yield cs init = init.
Proof.
  induction 1 as [|[| |RB sz] cs Hc _ IH]; simpl; auto; discriminate.
Qed.

Lemma map_propagate_scan_slot (RB : RegisterBank) (RegSize : Z)
    (cs : list operand_class) :
  map (propagate_slot RB RegSize) (map scan_slot cs)
  = map (mapping_of_class RB RegSize) cs.
Proof.
  rewrite map_map. apply map_ext. intros [| |RB' sz']; reflexivity.
Qed.

Lemma map_propagate_empty (RB : RegisterBank) (RegSize : Z) (n : nat) :
  map (propagate_slot RB RegSize) (replicate n empty_slot)
  = replicate n (single_mapping RB RegSize).
Proof. induction n as [|n IH]; simpl; [reflexivity | now rewrite IH]. Qed.

Lemma map_not_Yields (RB : RegisterBank) (RegSize : Z)
    (cs : list operand_class) :
  Forall (fun c => is_Yields c = false) cs ->
  map (mapping_of_class RB RegSize) cs
  = replicate (length cs) (single_mapping RB RegSize).
Proof.
  induction 1 as [|[| |RB' sz'] cs Hc _ IH]; simpl; try discriminate;
    now rewrite ?IH.
Qed.

Lemma final_slots (RB : RegisterBank) (RegSize : Z)
    (cs_a cs cs_u : list operand_class) (p : nat) :
  Forall (fun c => is_Yields c = false) cs_a ->
  Forall (fun c => is_Yields c = false) cs_u ->
  map (propagate_slot RB RegSize)
    (replicate (length cs_a) empty_slot ++ map scan_slot cs
     ++ replicate (length cs_u + p) empty_slot)
  = map (mapping_of_class RB RegSize) (cs_a ++ cs ++ cs_u)
    ++ replicate p (single_mapping RB RegSize).
Proof.
  intros Ha Hu.
  rewrite !map_app, map_propagate_scan_slot, !map_propagate_empty.
  rewrite replicate_add, (map_not_Yields _ _ cs_a Ha).
  rewrite (map_not_Yields _ _ cs_u Hu), <- !app_assoc. reflexivity.
Qed.

Lemma InstructionMapping_make_default (n : nat) :
  InstructionMapping_make NDEBUG DefaultMappingID 1 n
  = Ok (mkInstructionMapping DefaultMappingID 1 n (replicate n empty_slot)).
Proof.
  unfold InstructionMapping_make. now rewrite assert_when by reflexivity.
Qed.

(** getInstrMappingImpl on a copy-like instruction whose first loop finds a
    bank but not one for every operand.  The operands the loop reads are
    [ops]: some that yield no bank ([cs_a]), then some that do not lack one
    ([cs_b]), then the last one to yield a bank, [RB] at [RegSize] bits,
    then skipped ones ([cs_skip]), up to the operand without a bank that
    stops the loop, or up to the end.  It never reads [post]. *)
Lemma getInstrMappingImpl_propagates (MI : MachineInstr)
    (ops post : list MachineOperand)
    (cs_a cs_b cs_skip cs_u : list operand_class)
    (RB : RegisterBank) (RegSize : Z) :
  isCopy MI || isPHI MI = true ->
  Operands MI = ops ++ post ->
  classified' MI 0 ops (cs_a ++ cs_b ++ Yields RB RegSize :: cs_skip ++ cs_u) ->
  Forall (fun c => is_Yields c = false) cs_a ->
  Forall (fun c => is_Unresolved c = false) cs_b ->
  Forall (fun c => is_Skipped c = true) cs_skip ->
  cs_u = [Unresolved] \/
  (cs_u = [] /\ post = [] /\ existsb is_Unresolved cs_a = true) ->
  getInstrMappingImpl' MI
  = Ok (mkInstructionMapping DefaultMappingID 1 (getNumOperands MI)
          (map (mapping_of_class RB RegSize)
             (cs_a ++ cs_b ++ Yields RB RegSize :: cs_skip ++ cs_u)
           ++ replicate (length post) (single_mapping RB RegSize))).
Proof.
  intros Hcopy Hops Hcl Ha Hb Hskip Hu.
  replace (cs_a ++ cs_b ++ Yields RB RegSize :: cs_skip ++ cs_u)
    with (cs_a ++ (cs_b ++ Yields RB RegSize :: cs_skip) ++ cs_u) in *
    by (now rewrite <- (app_assoc cs_b)).
  destruct (classified_app_inv _ _ _ _ _ Hcl) as (ops_a & ops' & -> & Hca & Hcl').
  destruct (classified_app_inv _ _ _ _ _ Hcl') as (ops_b & ops_u & -> & Hcb & Hcu).
  pose proof (classified_length _ _ _ _ Hca) as La.
  pose proof (classified_length _ _ _ _ Hcb) as Lb.
  pose proof (classified_length _ _ _ _ Hcu) as Lu.
  assert (Hfit : NDEBUG = false -> RegSize <= Size RB).
  { destruct (classified_app_inv _ _ _ _ _ Hcb) as (o1 & [|MO o2] & _ & _ & H2);
      simpl in H2; [tauto|].
    destruct H2 as [(Reg & _ & _ & _ & _ & Hfit) _]. exact Hfit. }
  assert (Hbb : Forall (fun c => is_Unresolved c = false)
                  (cs_b ++ Yields RB RegSize :: cs_skip)).
  { apply Forall_app. split; [assumption|]. constructor; [reflexivity|].
    eapply Forall_impl; [exact Hskip|]. intros [| |]; simpl; congruence. }
  assert (Hlast : forall init,
            last_yield (cs_b ++ Yields RB RegSize :: cs_skip) init
            = (Some RB, RegSize)).
  { intros init. rewrite last_yield_app. simpl.
    now apply last_yield_Skipped. }
  rewrite <- La in Hcb, Hcu. rewrite <- Lb in Hcu.
  unfold getInstrMappingImpl, getNumOperands.
  rewrite InstructionMapping_make_default. simpl bind.
  rewrite <- !app_assoc in Hops. rewrite Hops.
  rewrite (operands_loop_no_bank MI cs_a Hcopy 0 ops_a _
             (ops_b ++ ops_u ++ post) Hca Ha) by reflexivity.
  simpl st_Mapping. simpl st_CompleteMapping. simpl st_RegBank.
  simpl st_RegSize.
  rewrite (operands_loop_resolved MI _ (0 + length ops_a) ops_b _
             (replicate (length ops_a) empty_slot)
             (length ops_u + length post) (ops_u ++ post) Hcb Hbb).
  2: { rewrite length_replicate. reflexivity. }
  2: { simpl. rewrite !length_app, <- replicate_add. reflexivity. }
  2: { simpl. rewrite !length_app. lia. }
  simpl st_Mapping. simpl st_CompleteMapping. simpl st_RegBank.
  simpl st_RegSize. rewrite Hlast. simpl fst. simpl snd.
  simpl IM_ID. simpl Cost. simpl NumOperands.
  set (n := length (ops_a ++ ops_b ++ ops_u ++ post)).
  set (om := replicate (length ops_a) empty_slot
             ++ map scan_slot (cs_b ++ Yields RB RegSize :: cs_skip)
             ++ replicate (length ops_u + length post) empty_slot).
  assert (Hn : n = length om).
  { unfold n, om. rewrite !length_app, !length_replicate, length_map. lia. }
  assert (Hprop :
    propagate_loop NDEBUG n 0 RegSize RB
      (mkInstructionMapping DefaultMappingID 1 n om)
    = Ok (mkInstructionMapping DefaultMappingID 1 n
            (map (mapping_of_class RB RegSize)
               (cs_a ++ (cs_b ++ Yields RB RegSize :: cs_skip) ++ cs_u)
             ++ replicate (length post) (single_mapping RB RegSize)))).
  { rewrite Hn.
    pose proof (propagate_loop_spec RB RegSize Hfit om []
                  (mkInstructionMapping DefaultMappingID 1 (length om) om)
                  eq_refl eq_refl) as Hp.
    change (length (@nil ValueMapping)) with 0%nat in Hp. rewrite Hp.
    simpl app. simpl IM_ID. simpl Cost. simpl NumOperands. do 2 f_equal.
    unfold om. rewrite La, Lu. apply final_slots; [assumption|].
    destruct Hu as [-> | (-> & _)]; repeat constructor. }
  destruct Hu as [-> | (-> & -> & Hex)].
  - destruct ops_u as [|MO [|? ?]]; simpl in Hcu; try tauto.
    destruct Hcu as [Hcu _]. simpl app. rewrite operands_loop_cons.
    rewrite (operand_step_Unresolved _ _ _ _ Hcu), Hcopy. simpl bind.
    simpl st_CompleteMapping. cbv iota. rewrite assert_true. simpl bind.
    simpl st_RegBank. simpl st_RegSize. simpl st_Mapping.
    exact Hprop.
  - destruct ops_u; simpl in Hcu; [|tauto]. simpl app. simpl operands_loop.
    simpl bind. rewrite Hex. simpl. rewrite Hcopy, assert_true. simpl bind.
    exact Hprop.
Qed.

Local Abbreviation getRegBank' :=
  (getRegBank NDEBUG TRI MRI getRegBankFromRegClass).
Local Abbreviation getSizeInBits' := (getSizeInBits NDEBUG TRI MRI).

Lemma operand_bank_None (MI : MachineInstr) (OpIdx : nat) (Reg : Z) :
  getRegBank' Reg = Ok None -> getRegClassConstraint MI OpIdx = None ->
  operand_bank' MI OpIdx Reg = Ok None.
Proof. intros H1 H2. unfold operand_bank. now rewrite H1, H2. Qed.

Lemma operand_bank_Some (MI : MachineInstr) (OpIdx : nat) (Reg : Z)
    (RB : RegisterBank) :
  getRegBank' Reg = Ok (Some RB) -> operand_bank' MI OpIdx Reg = Ok (Some RB).
Proof. intros H1. unfold operand_bank. now rewrite H1. Qed.

(** C1: for a copy of two operands, the first a register with no bank of its
    own and no register-class constraint, the second a register of 64 bits
    in bank F64 (which, where assertions are on, holds 64 bits),
    getInstrMapping returns the default mapping in which each of the two
    operands has one partial mapping, of all 64 bits, in F64. *)
Theorem getInstrMapping_copy_propagates (MI : MachineInstr)
    (F64 : RegisterBank) (Reg0 Reg1 : Z) :
  getOpcode MI = COPY ->
  Operands MI = [MO_Register Reg0; MO_Register Reg1] ->
  Reg0 <> 0 -> Reg1 <> 0 ->
  getRegBank' Reg0 = Ok None ->
  getRegClassConstraint MI 0 = None ->
  getRegBank' Reg1 = Ok (Some F64) ->
  getSizeInBits' Reg1 = Ok 64 ->
  (NDEBUG = false -> 64 <= Size F64) ->
  getInstrMapping_base' MI
  = Ok {| IM_ID := DefaultMappingID; Cost := 1; NumOperands := 2;
          OperandsMapping :=
            [ {| BreakDown :=
                   [ {| Mask := {| BitWidth := 64; VAL := 2 ^ 64 - 1 |};
                        RegBank := Some F64 |} ] |};
              {| BreakDown :=
                   [ {| Mask := {| BitWidth := 64; VAL := 2 ^ 64 - 1 |};
                        RegBank := Some F64 |} ] |} ] |}.
Proof.
  intros Hopc Hops H0 H1 Hb0 Hc0 Hb1 Hs1 Hfit.
  assert (Hcopy : isCopy MI || isPHI MI = true)
    by (unfold isCopy; now rewrite Hopc).
  pose proof (getInstrMappingImpl_propagates MI
                [MO_Register Reg0; MO_Register Reg1] []
                [Unresolved] [] [] [] F64 64 Hcopy) as Himpl.
  unfold getInstrMapping_base. rewrite Hopc. simpl isPreISelGenericOpcode.
  simpl negb. cbv iota. rewrite Himpl; clear Himpl.
  - unfold getNumOperands. rewrite Hops. reflexivity.
  - now rewrite Hops.
  - simpl. repeat split.
    + exists Reg0. repeat split; try assumption.
      now apply operand_bank_None.
    + exists Reg1. repeat split; try assumption.
      now apply operand_bank_Some.
  - repeat constructor.
  - constructor.
  - constructor.
  - right. repeat split.
Qed.

(** The first loop of an instruction that is not copy-like, on operands one
    of which is a register without a bank, gives nothing but the invalid
    mapping. *)
Lemma operands_loop_not_copy_like (MI : MachineInstr) :
  isCopy MI || isPHI MI = false ->
  forall ops k s r,
  (exists j Reg, ops !! j = Some (MO_Register Reg) /\ Reg <> 0 /\
     operand_bank' MI (k + j) Reg = Ok None) ->
  operands_loop' MI k ops s = Ok r -> r = inr InstructionMapping_invalid.
Proof.
  intros Hnc. induction ops as [|MO ops IH]; intros k s r (j & Reg & Hj & Hne & Hb) H.
  - discriminate.
  - rewrite operands_loop_cons in H. apply bind_Ok_inv in H as (c & Hstep & H).
    destruct j as [|j].
    + injection Hj as ->. rewrite Nat.add_0_r in Hb.
      rewrite (operand_step_Unresolved MI k (MO_Register Reg) s) in Hstep
        by (exists Reg; auto).
      rewrite Hnc in Hstep. simpl in Hstep. injection Hstep as <-.
      now injection H as <-.
    + simpl in Hj. destruct c as [s'|s'|r'].
      * apply (IH (S k) s' r); [|assumption].
        exists j, Reg. repeat split; try assumption.
        now replace (S k + j)%nat with (k + S j)%nat by lia.
      * exfalso. unfold operand_step in Hstep.
        destruct MO as [Reg'|]; [|discriminate].
        destruct (Reg' =? 0); [discriminate|].
        apply bind_Ok_inv in Hstep as ([RB|] & _ & Hstep).
        -- apply bind_Ok_inv in Hstep as (? & _ & Hstep).
           apply bind_Ok_inv in Hstep as (? & _ & Hstep). discriminate.
        -- rewrite Hnc in Hstep. discriminate.
      * injection H as <-. f_equal. unfold operand_step in Hstep.
        destruct MO as [Reg'|]; [|discriminate].
        destruct (Reg' =? 0); [discriminate|].
        apply bind_Ok_inv in Hstep as ([RB|] & _ & Hstep).
        -- apply bind_Ok_inv in Hstep as (? & _ & Hstep).
           apply bind_Ok_inv in Hstep as (? & _ & Hstep). discriminate.
        -- rewrite Hnc in Hstep. simpl in Hstep. now injection Hstep as <-.
Qed.

Lemma classified_app (MI : MachineInstr) (cs1 cs2 : list operand_class) :
  forall k ops1 ops2,
  classified' MI k ops1 cs1 ->
  classified' MI (k + length ops1) ops2 cs2 ->
  classified' MI k (ops1 ++ ops2) (cs1 ++ cs2).
Proof.
  induction cs1 as [|c cs1 IH]; intros k [|MO ops1] ops2 H1 H2; simpl in H1;
    try tauto.
  - simpl in *. now rewrite Nat.add_0_r in H2.
  - destruct H1 as [Hc H1]. simpl. split; [assumption|].
    apply IH; [assumption|].
    now replace (S k + length ops1)%nat with (k + length (MO :: ops1))%nat
      by (simpl; lia).
Qed.

Lemma first_Unresolved (cs : list operand_class) :
  exists cs1 cs2, cs ++ [Unresolved] = cs1 ++ Unresolved :: cs2 /\
    Forall (fun c => is_Unresolved c = false) cs1.
Proof.
  induction cs as [|c cs (cs1 & cs2 & E & HF)].
  - exists [], []. split; [reflexivity | constructor].
  - destruct (is_Unresolved c) eqn:Hc.
    + destruct c; try discriminate.
      exists [], (cs ++ [Unresolved]). split; [reflexivity | constructor].
    + exists (c :: cs1), cs2. simpl. rewrite E. split; [reflexivity|].
      now constructor.
Qed.

(** C3: when an instruction is neither a copy nor a phi and one of its
    operands is a register (not NoRegister) with no bank of its own and no
    register-class constraint at that operand, getInstrMappingImpl gives no
    mapping but the invalid one, which has no operand at all; and it does
    return the invalid mapping when the operands before that one are read
    without a failed assertion or an undefined size. *)
Theorem getInstrMappingImpl_not_copy_like (MI : MachineInstr) (OpIdx : nat)
    (Reg : Z) :
  isCopy MI || isPHI MI = false ->
  Operands MI !! OpIdx = Some (MO_Register Reg) ->
  Reg <> 0 ->
  getRegBank' Reg = Ok None ->
  getRegClassConstraint MI OpIdx = None ->
  (forall m, getInstrMappingImpl' MI = Ok m ->
     m = InstructionMapping_invalid) /\
  ((exists cs, classified' MI 0 (take OpIdx (Operands MI)) cs) ->
   getInstrMappingImpl' MI = Ok InstructionMapping_invalid) /\
  OperandsMapping InstructionMapping_invalid = [] /\
  InstructionMapping_isValid InstructionMapping_invalid = false.
Proof.
  intros Hnc Hop Hne Hb Hc.
  pose proof (operand_bank_None MI OpIdx Reg Hb Hc) as Hob.
  split; [|split; [|split; reflexivity]].
  - intros m H. unfold getInstrMappingImpl in H.
    rewrite InstructionMapping_make_default in H. simpl bind in H.
    apply bind_Ok_inv in H as (r & Hloop & H).
    apply operands_loop_not_copy_like in Hloop; [|assumption|].
    + subst r. now injection H as <-.
    + exists OpIdx, Reg. auto.
  - intros [cs Hcs].
    destruct (first_Unresolved cs) as (cs1 & cs2 & E & HF).
    assert (Hall : classified' MI 0
                     (take OpIdx (Operands MI) ++ [MO_Register Reg])
                     (cs ++ [Unresolved])).
    { apply classified_app; [assumption|]. simpl. split; [|exact I].
      exists Reg. repeat split; try assumption.
      rewrite length_take_le; [assumption|].
      apply lookup_lt_Some in Hop. lia. }
    rewrite E in Hall.
    destruct (classified_app_inv _ _ _ _ _ Hall) as (o1 & o2 & Eo & H1 & H2).
    destruct o2 as [|u o2]; simpl in H2; [tauto|]. destruct H2 as [Hu _].
    pose proof (classified_length _ _ _ _ H1) as L1.
    assert (Hops : Operands MI
                   = o1 ++ u :: (o2 ++ drop (S OpIdx) (Operands MI))).
    { rewrite <- (take_drop_middle _ _ _ Hop) at 1.
      change (u :: o2 ++ drop (S OpIdx) (Operands MI))
        with ((u :: o2) ++ drop (S OpIdx) (Operands MI)).
      rewrite app_assoc, <- Eo, <- app_assoc. reflexivity. }
    unfold getInstrMappingImpl, getNumOperands.
    rewrite InstructionMapping_make_default. simpl bind. rewrite Hops.
    set (rest := o2 ++ drop (S OpIdx) (Operands MI)).
    rewrite (operands_loop_resolved MI cs1 0 o1 _ [] (S (length rest))
               (u :: rest) H1 HF eq_refl).
    + rewrite operands_loop_cons. rewrite <- L1 in Hu.
      rewrite (operand_step_Unresolved _ _ _ _ Hu), Hnc. reflexivity.
    + simpl. rewrite length_app. reflexivity.
    + simpl. rewrite length_app. reflexivity.
Qed.

(** C10: in a copy-like instruction, once an operand has yielded a bank, the
    first operand after it that has no bank stops the first loop.  Whatever
    the operands [post] after that one are, they are not read, and each of
    them, also one whose register has a bank and a width of its own, ends
    with one partial mapping in the bank found before the stop, [RB], at the
    width [RegSize] of the register that yielded [RB]. *)
Theorem getInstrMappingImpl_scan_stops (MI : MachineInstr)
    (ops post : list MachineOperand) (cs_a cs_b cs_skip : list operand_class)
    (RB : RegisterBank) (RegSize : Z) :
  isCopy MI || isPHI MI = true ->
  Operands MI = ops ++ post ->
  classified' MI 0 ops
    (cs_a ++ cs_b ++ Yields RB RegSize :: cs_skip ++ [Unresolved]) ->
  Forall (fun c => is_Yields c = false) cs_a ->
  Forall (fun c => is_Unresolved c = false) cs_b ->
  Forall (fun c => is_Skipped c = true) cs_skip ->
  exists m, getInstrMappingImpl' MI = Ok m /\
    (forall j MO, post !! j = Some MO ->
       OperandsMapping m !! (length ops + j)%nat
       = Some (single_mapping RB RegSize) /\
       forall RB' RegSize',
         classifies' MI (length ops + j) MO (Yields RB' RegSize') ->
         (RB', RegSize') <> (RB, RegSize) ->
         OperandsMapping m !! (length ops + j)%nat
         <> Some (single_mapping RB' RegSize')) /\
    (forall MI' post',
       getOpcode MI' = getOpcode MI ->
       Operands MI' = ops ++ post' -> length post' = length post ->
       classified' MI' 0 ops
         (cs_a ++ cs_b ++ Yields RB RegSize :: cs_skip ++ [Unresolved]) ->
       getInstrMappingImpl' MI' = Ok m).
Proof.
  intros Hcopy Hops Hcl Ha Hb Hskip.
  eexists. split; [|split].
  - apply (getInstrMappingImpl_propagates MI ops post cs_a cs_b cs_skip
             [Unresolved] RB RegSize); auto.
  - intros j MO Hj.
    assert (Hl : (map (mapping_of_class RB RegSize)
                    (cs_a ++ cs_b ++ Yields RB RegSize :: cs_skip
                     ++ [Unresolved])
                  ++ replicate (length post) (single_mapping RB RegSize))
                   !! (length ops + j)%nat
                 = Some (single_mapping RB RegSize)).
    { apply classified_length in Hcl.
      rewrite lookup_app_r by (rewrite length_map; lia).
      rewrite length_map, <- Hcl.
      replace (length ops + j - length ops)%nat with j by lia.
      apply lookup_replicate. split; [reflexivity|].
      now apply lookup_lt_Some in Hj. }
    simpl OperandsMapping. split; [exact Hl|].
    intros RB' RegSize' _ Hdiff. rewrite Hl. intros E. apply Hdiff.
    injection E as E1 E2 E3. now subst.
  - intros MI' post' Hopc Hops' Hlen Hcl'.
    rewrite (getInstrMappingImpl_propagates MI' ops post' cs_a cs_b cs_skip
               [Unresolved] RB RegSize); auto.
    + unfold getNumOperands. rewrite Hops, Hops', !length_app, Hlen.
      reflexivity.
    + unfold isCopy, isPHI in *. now rewrite Hopc.
Qed.

(** C2, amended: on a copy-like instruction whose first loop finds a bank but
    not one for every operand, getInstrMappingImpl gives every operand whose
    decomposition is still empty (one the loop skipped, found without a
    bank, or never read) one partial mapping in the bank of the last
    operand that yielded a bank before the loop stopped, sized to the
    bit-width of the register of that operand; an operand that yielded a
    bank keeps its own bank and width. *)
Theorem getInstrMappingImpl_propagates_last (MI : MachineInstr)
    (ops post : list MachineOperand)
    (cs_a cs_b cs_skip cs_u : list operand_class)
    (RB : RegisterBank) (RegSize : Z) :
  isCopy MI || isPHI MI = true ->
  Operands MI = ops ++ post ->
  classified' MI 0 ops (cs_a ++ cs_b ++ Yields RB RegSize :: cs_skip ++ cs_u) ->
  Forall (fun c => is_Yields c = false) cs_a ->
  Forall (fun c => is_Unresolved c = false) cs_b ->
  Forall (fun c => is_Skipped c = true) cs_skip ->
  cs_u = [Unresolved] \/
  (cs_u = [] /\ post = [] /\ existsb is_Unresolved cs_a = true) ->
  exists m, getInstrMappingImpl' MI = Ok m /\
    InstructionMapping_isValid m = true /\
    forall i, (i < getNumOperands MI)%nat ->
      OperandsMapping m !! i
      = Some match (cs_a ++ cs_b ++ Yields RB RegSize :: cs_skip ++ cs_u) !! i
             with
             | Some (Yields RB' RegSize') => single_mapping RB' RegSize'
             | _ => single_mapping RB RegSize
             end.
Proof.
  intros Hcopy Hops Hcl Ha Hb Hskip Hu.
  eexists. split; [|split].
  - apply (getInstrMappingImpl_propagates MI ops post cs_a cs_b cs_skip
             cs_u RB RegSize); assumption.
  - reflexivity.
  - intros i Hi. simpl OperandsMapping.
    set (cs := cs_a ++ cs_b ++ Yields RB RegSize :: cs_skip ++ cs_u) in *.
    apply classified_length in Hcl.
    unfold getNumOperands in Hi. rewrite Hops, length_app, Hcl in Hi.
    destruct (cs !! i) as [c|] eqn:Hc.
    + rewrite lookup_app_l
        by (rewrite length_map; now apply lookup_lt_Some in Hc).
      rewrite list_lookup_fmap_Some. exists c. split; [|assumption].
      now destruct c.
    + apply lookup_ge_None in Hc.
      rewrite lookup_app_r by (rewrite length_map; lia).
      apply lookup_replicate. split; [reflexivity|].
      rewrite length_map. lia.
Qed.

End InferenceProofs.

(** ** getInstrPossibleMappings *)

Section PossibleMappings.

Variable NDEBUG : bool.
Variable TRI : TargetRegisterInfo.
Variable MRI : MachineRegisterInfo.
Variable getRegClassConstraint :
  MachineInstr -> nat -> option TargetRegisterClass.
Variable getRegBankFromRegClass : TargetRegisterClass -> RegisterBank.

Local Abbreviation base :=
  (RegisterBankInfo_base NDEBUG TRI MRI getRegClassConstraint
     getRegBankFromRegClass).

Lemma push_all_back {A : Type} (Alts l : list A) :
  fold_left (fun acc AltMapping => acc ++ [AltMapping]) Alts l = l ++ Alts.
Proof.
  revert l. induction Alts as [|a Alts IH]; intros l; simpl.
  - now rewrite app_nil_r.
  - now rewrite IH, <- app_assoc.
Qed.

(** C9: whatever getInstrPossibleMappings returns starts with the mapping
    getInstrMapping returns and goes on with the alternative mappings of
    the target, in their order and nothing else; it does return that
    sequence whenever those two calls return and, where assertions are on,
    each mapping verifies.  getInstrAlternativeMappings of the base class
    gives no mapping, so with the base class the sequence has length 1. *)
Theorem getInstrPossibleMappings_default_first (T : RegisterBankInfoTarget)
    (MI : MachineInstr) :
  (forall l, getInstrPossibleMappings NDEBUG TRI MRI T MI = Ok l ->
     exists Default Alts,
       @getInstrMapping T MI = Ok Default /\
       @getInstrAlternativeMappings T MI = Ok Alts /\
       l = Default :: Alts /\ l !! 0%nat = Some Default) /\
  (forall Default Alts,
     @getInstrMapping T MI = Ok Default ->
     @getInstrAlternativeMappings T MI = Ok Alts ->
     (NDEBUG = false ->
      verify_mappings NDEBUG TRI MRI (Default :: Alts) MI = Ok tt) ->
     getInstrPossibleMappings NDEBUG TRI MRI T MI = Ok (Default :: Alts)) /\
  @getInstrAlternativeMappings base MI = Ok [] /\
  (forall l, getInstrPossibleMappings NDEBUG TRI MRI base MI = Ok l ->
     exists Default,
       getInstrMapping_base NDEBUG TRI MRI getRegClassConstraint
         getRegBankFromRegClass MI = Ok Default /\
       l = [Default] /\ length l = 1%nat).
Proof.
  assert (Hgen : forall (T' : RegisterBankInfoTarget) l,
            getInstrPossibleMappings NDEBUG TRI MRI T' MI = Ok l ->
            exists Default Alts,
              @getInstrMapping T' MI = Ok Default /\
              @getInstrAlternativeMappings T' MI = Ok Alts /\
              l = Default :: Alts /\ l !! 0%nat = Some Default).
  { intros T' l H. unfold getInstrPossibleMappings in H.
    apply bind_Ok_inv in H as (Default & HD & H).
    apply bind_Ok_inv in H as (Alts & HA & H).
    apply bind_Ok_inv in H as (u & _ & H). injection H as <-.
    exists Default, Alts. rewrite push_all_back. auto. }
  split; [apply Hgen|]. split; [|split; [reflexivity|]].
  - intros Default Alts HD HA Hv. unfold getInstrPossibleMappings.
    rewrite HD, HA. simpl bind. rewrite push_all_back. simpl app.
    destruct NDEBUG; [reflexivity|]. now rewrite Hv.
  - intros l H. destruct (Hgen base l H) as (Default & Alts & HD & HA & -> & _).
    simpl in HA. unfold getInstrAlternativeMappings_base in HA.
    injection HA as <-. exists Default. auto.
Qed.

End PossibleMappings.

(** ** The theorems on the example function *)

Lemma getInstrMapping_copy_propagates_witness :
  getInstrMapping_base false TRI_ex MRI_ex no_constraint bank_of_class_ex
    copy_ex
  = Ok {| IM_ID := DefaultMappingID; Cost := 1; NumOperands := 2;
          OperandsMapping :=
            [ {| BreakDown :=
                   [ {| Mask := {| BitWidth := 64; VAL := 2 ^ 64 - 1 |};
                        RegBank := Some bank_F64 |} ] |};
              {| BreakDown :=
                   [ {| Mask := {| BitWidth := 64; VAL := 2 ^ 64 - 1 |};
                        RegBank := Some bank_F64 |} ] |} ] |}.
Proof.
  apply (getInstrMapping_copy_propagates false TRI_ex MRI_ex no_constraint
           bank_of_class_ex copy_ex bank_F64 (vreg 4) (vreg 2));
    first [reflexivity | unfold vreg; lia | intros _; simpl; lia].
Defined.

Lemma getInstrMappingImpl_not_copy_like_witness :
  (forall m,
     getInstrMappingImpl false TRI_ex MRI_ex no_constraint bank_of_class_ex
       op_ex = Ok m -> m = InstructionMapping_invalid) /\
  ((exists cs,
      classified false TRI_ex MRI_ex no_constraint bank_of_class_ex op_ex 0
        (take 1 (Operands op_ex)) cs) ->
   getInstrMappingImpl false TRI_ex MRI_ex no_constraint bank_of_class_ex
     op_ex = Ok InstructionMapping_invalid) /\
  OperandsMapping InstructionMapping_invalid = [] /\
  InstructionMapping_isValid InstructionMapping_invalid = false.
Proof.
  apply (getInstrMappingImpl_not_copy_like false TRI_ex MRI_ex no_constraint
           bank_of_class_ex op_ex 1 (vreg 0));
    try reflexivity. unfold vreg; lia.
Defined.

Lemma classifies_vreg0 (MI : MachineInstr) (k : nat) :
  classifies false TRI_ex MRI_ex no_constraint bank_of_class_ex MI k
    (MO_Register (vreg 0)) Unresolved.
Proof. exists (vreg 0). repeat split. unfold vreg; lia. Qed.

Lemma classifies_vreg1 (MI : MachineInstr) (k : nat) :
  classifies false TRI_ex MRI_ex no_constraint bank_of_class_ex MI k
    (MO_Register (vreg 1)) (Yields bank_F64 32).
Proof.
  exists (vreg 1). repeat split; [unfold vreg; lia|]. intros _. simpl. lia.
Qed.

Lemma classifies_vreg2 (MI : MachineInstr) (k : nat) :
  classifies false TRI_ex MRI_ex no_constraint bank_of_class_ex MI k
    (MO_Register (vreg 2)) (Yields bank_F64 64).
Proof.
  exists (vreg 2). repeat split; [unfold vreg; lia|]. intros _. simpl. lia.
Qed.

Lemma classifies_vreg3 (MI : MachineInstr) (k : nat) :
  classifies false TRI_ex MRI_ex no_constraint bank_of_class_ex MI k
    (MO_Register (vreg 3)) (Yields bank_G32 32).
Proof.
  exists (vreg 3). repeat split; [unfold vreg; lia|]. intros _. simpl. lia.
Qed.

Lemma getInstrMappingImpl_scan_stops_witness :
  exists m,
    getInstrMappingImpl false TRI_ex MRI_ex no_constraint bank_of_class_ex
      phi_stop_ex = Ok m /\
    (forall j MO, [MO_Other; MO_Register (vreg 2); MO_Other] !! j = Some MO ->
       OperandsMapping m !! (2 + j)%nat = Some (single_mapping bank_G32 32) /\
       forall RB' RegSize',
         classifies false TRI_ex MRI_ex no_constraint bank_of_class_ex
           phi_stop_ex (2 + j) MO (Yields RB' RegSize') ->
         (RB', RegSize') <> (bank_G32, 32) ->
         OperandsMapping m !! (2 + j)%nat
         <> Some (single_mapping RB' RegSize')) /\
    (forall MI' post',
       getOpcode MI' = getOpcode phi_stop_ex ->
       Operands MI' = [MO_Register (vreg 3); MO_Register (vreg 0)] ++ post' ->
       length post' = 3%nat ->
       classified false TRI_ex MRI_ex no_constraint bank_of_class_ex MI' 0
         [MO_Register (vreg 3); MO_Register (vreg 0)]
         ([] ++ [] ++ Yields bank_G32 32 :: [] ++ [Unresolved]) ->
       getInstrMappingImpl false TRI_ex MRI_ex no_constraint bank_of_class_ex
         MI' = Ok m).
Proof.
  apply (getInstrMappingImpl_scan_stops false TRI_ex MRI_ex no_constraint
           bank_of_class_ex phi_stop_ex
           [MO_Register (vreg 3); MO_Register (vreg 0)]
           [MO_Other; MO_Register (vreg 2); MO_Other] [] [] []
           bank_G32 32); try reflexivity; try constructor.
  - apply classifies_vreg3.
  - split; [apply classifies_vreg0 | exact I].
Defined.

(** [op_ex] is not copy-like and its operand 1 has no bank. *)
Example op_ex_mapping :
  getInstrMappingImpl false TRI_ex MRI_ex no_constraint bank_of_class_ex op_ex
  = Ok InstructionMapping_invalid.
Proof. vm_compute. reflexivity. Qed.

(** In [phi_ex] operands 1 and 3 keep their own widths; the others get
    [bank_F64] at the 64 bits of the register of operand 3. *)
Example phi_ex_mapping :
  getInstrMappingImpl false TRI_ex MRI_ex no_constraint bank_of_class_ex phi_ex
  = Ok {| IM_ID := DefaultMappingID; Cost := 1; NumOperands := 5;
          OperandsMapping :=
            [single_mapping bank_F64 64; single_mapping bank_F64 32;
             single_mapping bank_F64 64; single_mapping bank_F64 64;
             single_mapping bank_F64 64] |}.
Proof. vm_compute. reflexivity. Qed.

(** In [phi_stop_ex] the register of operand 3 is in [bank_F64] and has 64
    bits, and the operand gets [bank_G32] at 32 bits. *)
Example phi_stop_ex_mapping :
  getInstrMappingImpl false TRI_ex MRI_ex no_constraint bank_of_class_ex
    phi_stop_ex
  = Ok {| IM_ID := DefaultMappingID; Cost := 1; NumOperands := 5;
          OperandsMapping := replicate 5 (single_mapping bank_G32 32) |}.
Proof. vm_compute. reflexivity. Qed.

Lemma getInstrMappingImpl_propagates_last_witness :
  exists m,
    getInstrMappingImpl false TRI_ex MRI_ex no_constraint bank_of_class_ex
      phi_ex = Ok m /\
    InstructionMapping_isValid m = true /\
    forall i, (i < getNumOperands phi_ex)%nat ->
      OperandsMapping m !! i
      = Some match ([Unresolved] ++ [Yields bank_F64 32; Skipped]
                    ++ Yields bank_F64 64 :: [Skipped] ++ []) !! i with
             | Some (Yields RB' RegSize') => single_mapping RB' RegSize'
             | _ => single_mapping bank_F64 64
             end.
Proof.
  apply (getInstrMappingImpl_propagates_last false TRI_ex MRI_ex
           no_constraint bank_of_class_ex phi_ex (Operands phi_ex) []
           [Unresolved] [Yields bank_F64 32; Skipped] [Skipped] []
           bank_F64 64); try reflexivity.
  - cbn [classified app Operands phi_ex].
    repeat (split;
            [first [apply classifies_vreg0 | apply classifies_vreg1
                   | apply classifies_vreg2 | left; reflexivity]|]).
    exact I.
  - repeat constructor.
  - repeat constructor.
  - repeat constructor.
  - right. repeat split.
Defined.

(** C2 as the specification words it fails on [phi_ex]: the first register
    to produce [bank_F64] is that of operand 1, of 32 bits, and operand 0,
    which has no bank, gets [bank_F64] at the 64 bits of the register of
    operand 3. *)
Lemma propagates_width_of_first_producer_fails :
  ~ propagates_width_of_first_producer false TRI_ex MRI_ex no_constraint
      bank_of_class_ex phi_ex.
Proof.
  intros H. unfold propagates_width_of_first_producer in H.
  assert (Hs : exists s,
            after_first_loop false TRI_ex MRI_ex no_constraint
              bank_of_class_ex phi_ex = Ok (inl s) /\
            st_CompleteMapping s = false /\
            st_RegBank s = Some bank_F64 /\
            OperandsMapping (st_Mapping s) !! 0%nat
            = Some {| BreakDown := [] |}).
  { vm_compute. eexists. repeat split; reflexivity. }
  destruct Hs as (s & Hs & Hc & Hb & H0).
  destruct (H eq_refl s bank_F64 1%nat 32 Hs Hc Hb) as (m & Hm & Hslot).
  - split.
    + exists (MO_Register (vreg 1)). split; [reflexivity|].
      apply classifies_vreg1.
    + intros [|j] MO sz Hj Hop (Reg & -> & _ & Hbank & _); [|lia].
      injection Hop as <-. vm_compute in Hbank. discriminate.
  - specialize (Hslot 0%nat _ H0 eq_refl).
    vm_compute in Hm. injection Hm as <-. vm_compute in Hslot. discriminate.
Qed.

(** ** The coverage vector *)

Lemma cover_list_length (new : list nat) (bv : BitVector) :
  length (cover_list new bv) = length bv.
Proof.
  induction new as [|i new IH]; simpl; [reflexivity|].
  unfold BitVector_set. now rewrite length_insert.
Qed.

Lemma cover_list_app (a b : list nat) (bv : BitVector) :
  cover_list (a ++ b) bv = cover_list a (cover_list b bv).
Proof. induction a as [|i a IH]; simpl; [reflexivity | now rewrite IH]. Qed.

Lemma cover_list_in (new : list nat) (bv : BitVector) (j : nat) :
  j ∈ new -> (j < length bv)%nat -> cover_list new bv !! j = Some true.
Proof.
  induction new as [|i new IH]; intros Hin Hlt; [inversion Hin|].
  simpl. unfold BitVector_set. destruct (decide (i = j)) as [->|Hne].
  - apply list_lookup_insert_eq. now rewrite cover_list_length.
  - rewrite list_lookup_insert_ne by assumption. apply IH; [|assumption].
    apply elem_of_cons in Hin as [->|Hin]; [congruence | assumption].
Qed.

Lemma cover_list_notin (new : list nat) (bv : BitVector) (j : nat) :
  j ∉ new -> cover_list new bv !! j = bv !! j.
Proof.
  induction new as [|i new IH]; intros Hnin; [reflexivity|].
  apply not_elem_of_cons in Hnin as [Hne Hnin].
  simpl. unfold BitVector_set. rewrite list_lookup_insert_ne by congruence.
  now apply IH.
Qed.

Lemma cover_list_mono (new : list nat) (bv : BitVector) (j : nat) :
  bv !! j = Some true -> cover_list new bv !! j = Some true.
Proof.
  intros H. destruct (decide (j ∈ new)) as [Hin|Hnin].
  - apply cover_list_in; [assumption|]. now apply lookup_lt_Some in H.
  - now rewrite cover_list_notin.
Qed.

Lemma cover_list_inv (new : list nat) (bv : BitVector) (j : nat) :
  cover_list new bv !! j = Some true -> bv !! j = Some true \/ j ∈ new.
Proof.
  intros H. destruct (decide (j ∈ new)) as [Hin|Hnin]; [now right|].
  left. now rewrite cover_list_notin in H.
Qed.

Lemma fresh_nil (bv : BitVector) : fresh bv [].
Proof. split; [constructor | intros i Hi; inversion Hi]. Qed.

Lemma fresh_lt (bv : BitVector) (new : list nat) (i : nat) :
  fresh bv new -> i ∈ new -> (i < length bv)%nat.
Proof. intros [_ H] Hi. apply H in Hi. now apply lookup_lt_Some in Hi. Qed.

Lemma fresh_app (bv : BitVector) (a b : list nat) :
  fresh bv b -> fresh (cover_list b bv) a -> fresh bv (a ++ b).
Proof.
  intros [Nb Hb] [Na Ha]. split.
  - apply NoDup_app. repeat split; try assumption.
    intros i Hia Hib. apply Ha in Hia.
    rewrite cover_list_in in Hia; [discriminate | assumption |].
    apply Hb in Hib. now apply lookup_lt_Some in Hib.
  - intros i Hi. apply elem_of_app in Hi as [Hi|Hi]; [|now apply Hb].
    pose proof (Ha i Hi) as H.
    destruct (decide (i ∈ b)) as [Hib|Hnib].
    + rewrite cover_list_in in H; [discriminate | assumption |].
      apply Hb in Hib. now apply lookup_lt_Some in Hib.
    + now rewrite cover_list_notin in H.
Qed.

Lemma uncovered_count_set (bv : BitVector) (i : nat) :
  bv !! i = Some false ->
  S (uncovered_count (BitVector_set bv i)) = uncovered_count bv.
Proof.
  intros H. unfold uncovered_count, BitVector_set.
  rewrite <- (take_drop_middle bv i false H) at 2.
  rewrite insert_take_drop by (now apply lookup_lt_Some in H).
  rewrite !filter_app, !filter_cons.
  destruct (decide (true = false)) as [E|_]; [discriminate|].
  destruct (decide (false = false)) as [_|E]; [|congruence].
  rewrite !length_app. simpl. lia.
Qed.

Lemma uncovered_count_cover_list (bv : BitVector) (new : list nat) :
  fresh bv new ->
  (uncovered_count (cover_list new bv) + length new)%nat = uncovered_count bv.
Proof.
  induction new as [|i new IH]; intros [Nd Hf]; simpl; [lia|].
  apply NoDup_cons in Nd as [Hnin Nd].
  rewrite <- IH by (split; [assumption | intros j Hj; apply Hf; now right]).
  rewrite <- (uncovered_count_set (cover_list new bv) i).
  - lia.
  - rewrite cover_list_notin by assumption. apply Hf. now left.
Qed.

Lemma uncovered_count_lt (bv : BitVector) (i : nat) :
  bv !! i = Some true -> (uncovered_count bv < length bv)%nat.
Proof.
  intros H. unfold uncovered_count.
  rewrite <- (take_drop_middle bv i true H).
  rewrite !filter_app, !filter_cons.
  destruct (decide (true = false)) as [E|_]; [discriminate|].
  rewrite !length_app. simpl.
  pose proof (length_filter (λ b : bool, b = false) (take i bv)).
  pose proof (length_filter (λ b : bool, b = false) (drop (S i) bv)).
  lia.
Qed.

(** ** Walking the set bits of a word *)

Lemma ctz32_step (Mask : Z) (n : nat) :
  (n <= 32)%nat -> 0 <= Mask < 2 ^ Z.of_nat n -> Mask <> 0 ->
  let o := countTrailingZeros32 Mask in
  let Mask' := Z.shiftr (Z.shiftr Mask (Z.of_nat o)) 1 in
  (1 <= n)%nat /\ (o < n)%nat /\
  Z.testbit Mask (Z.of_nat o) = true /\
  (forall b : nat, (b < o)%nat -> Z.testbit Mask (Z.of_nat b) = false) /\
  (forall b : nat,
     Z.testbit Mask' (Z.of_nat b) = Z.testbit Mask (Z.of_nat (S (o + b)))) /\
  0 <= Mask' < 2 ^ Z.of_nat (n - 1).
Proof.
  intros Hn HM Hne. unfold countTrailingZeros32. cbv zeta.
  set (c := ctz_scan 32 0 Mask).
  destruct (nonzero_has_bit _ _ HM Hne) as (k & Hk & Bk).
  pose proof (ctz_scan_range 32 0 Mask) as Hc. fold c in Hc.
  assert (Hck : c <= k).
  { destruct (Z_le_gt_dec c k) as [|Hgt]; [assumption|].
    pose proof (ctz_scan_below 32 0 Mask k) as Hf. fold c in Hf.
    rewrite Z.add_0_l in Hf. rewrite Hf in Bk by lia. discriminate. }
  assert (Eo : Z.of_nat (Z.to_nat c) = c) by lia. rewrite Eo.
  assert (Hhit : Z.testbit Mask c = true).
  { pose proof (ctz_scan_hit 32 0 Mask) as Hh. fold c in Hh.
    rewrite Z.add_0_l in Hh. apply Hh. lia. }
  assert (Hsh : Z.shiftr (Z.shiftr Mask c) 1 = Z.shiftr Mask (c + 1))
    by (apply Z.shiftr_shiftr; lia).
  rewrite Hsh. repeat split; try lia; try assumption.
  - intros b Hb. pose proof (ctz_scan_below 32 0 Mask (Z.of_nat b)) as Hf.
    fold c in Hf. rewrite Z.add_0_l in Hf. apply Hf. lia.
  - intros b. rewrite Z.shiftr_spec by lia. f_equal. lia.
  - apply Z.shiftr_nonneg. lia.
  - rewrite Z.shiftr_div_pow2 by lia.
    apply Z.div_lt_upper_bound; [apply Z.pow_pos_nonneg; lia|].
    rewrite <- Z.pow_add_r by lia.
    eapply Z.lt_le_trans; [apply HM|].
    apply Z.pow_le_mono_r; lia.
Qed.

Section CoverageProofs.

Variable NDEBUG : bool.
Variable TRI : TargetRegisterInfo.

Local Abbreviation N := (getNumRegClasses TRI).

Lemma push_list_nil (st : CoverageState) : push_list [] st = st.
Proof. now destruct st. Qed.

Lemma push_list_app (a b : list nat) (st : CoverageState) :
  push_list (a ++ b) st = push_list a (push_list b st).
Proof.
  unfold push_list. simpl. now rewrite cover_list_app, <- !app_assoc.
Qed.

Lemma push_and_cover_fresh (st : CoverageState) (i : nat) :
  (i < length (Covered st))%nat ->
  push_and_cover st i = Ok (push_list [i] st).
Proof.
  intros Hi. unfold push_and_cover.
  now replace (i <? length (Covered st))%nat with true
    by (symmetry; apply Nat.ltb_lt, Hi).
Qed.

Lemma Covered_test_lookup (st : CoverageState) (i : nat) (b : bool) :
  Covered st !! i = Some b -> Covered_test st i = Ok b.
Proof. intros H. unfold Covered_test. now rewrite H. Qed.

(** The loop of lines 128-151 pushes the classes of the set bits of the word
    that are not covered, once each. *)
Lemma scan_subclass_word_spec (fuel : nat) :
  forall (n Idx : nat) (Mask : Z) (st : CoverageState),
  (n < fuel)%nat -> (n <= 32)%nat -> 0 <= Mask < 2 ^ Z.of_nat n ->
  (forall b : nat, Z.testbit Mask (Z.of_nat b) = true ->
     (Idx + b < length (Covered st))%nat) ->
  exists new,
    scan_subclass_word fuel Idx Mask st = Ok (push_list new st) /\
    fresh (Covered st) new /\
    forall i, i ∈ new <->
      Covered st !! i = Some false /\
      exists b : nat, Z.testbit Mask (Z.of_nat b) = true /\ i = (Idx + b)%nat.
Proof.
  induction fuel as [|fuel IH]; intros n Idx Mask st Hfuel Hn HM Hin; [lia|].
  simpl scan_subclass_word. destruct (Z.eqb_spec Mask 0) as [->|Hne].
  - exists []. rewrite push_list_nil. split; [reflexivity|].
    split; [apply fresh_nil|]. intros i. split; [intros H; inversion H|].
    intros (_ & b & Hb & _). rewrite Z.testbit_0_l in Hb. discriminate.
  - destruct (ctz32_step Mask n Hn HM Hne) as (Hn1 & Ho & Hhit & Hlow & Hbits & HM').
    set (o := countTrailingZeros32 Mask) in *.
    set (Mask' := Z.shiftr (Z.shiftr Mask (Z.of_nat o)) 1) in *.
    pose proof (Hin o Hhit) as Hrange.
    destruct (lookup_lt_is_Some_2 _ _ Hrange) as [c Hc].
    rewrite (Covered_test_lookup _ _ _ Hc). simpl bind.
    assert (Hcases : forall b : nat, Z.testbit Mask (Z.of_nat b) = true ->
              b = o \/ exists b' : nat, b = S (o + b') /\
                         Z.testbit Mask' (Z.of_nat b') = true).
    { intros b Hb. destruct (Nat.lt_trichotomy b o) as [Hlt|[->|Hgt]].
      - rewrite Hlow in Hb by assumption. discriminate.
      - now left.
      - right. exists (b - o - 1)%nat. split; [lia|]. rewrite Hbits.
        now replace (S (o + (b - o - 1))) with b by lia. }
    destruct c.
    + destruct (IH (n - 1)%nat (S (Idx + o)) Mask' st) as (new & E & Hf & Hiff);
        try lia; try assumption.
      { intros b Hb. rewrite Hbits in Hb. apply Hin in Hb. lia. }
      exists new. split; [exact E|]. split; [exact Hf|].
      intros i. rewrite Hiff. split.
      * intros (Hu & b & Hb & ->). split; [assumption|].
        exists (S (o + b)). rewrite <- Hbits. split; [assumption | lia].
      * intros (Hu & b & Hb & ->). split; [assumption|].
        destruct (Hcases b Hb) as [->|(b' & -> & Hb')]; [congruence|].
        exists b'. split; [assumption | lia].
    + rewrite (push_and_cover_fresh _ _ Hrange). simpl bind.
      destruct (IH (n - 1)%nat (S (Idx + o)) Mask' (push_list [(Idx + o)%nat] st))
        as (new & E & Hf & Hiff); try lia; try assumption.
      { intros b Hb. simpl. unfold BitVector_set. rewrite length_insert.
        rewrite Hbits in Hb. apply Hin in Hb. lia. }
      exists (new ++ [(Idx + o)%nat]). rewrite push_list_app.
      split; [exact E|].
      assert (Hfx : fresh (Covered st) [(Idx + o)%nat]).
      { split; [apply NoDup_singleton|]. intros i Hi.
        apply list_elem_of_singleton in Hi as ->. exact Hc. }
      split; [apply fresh_app; assumption|].
      intros i. rewrite elem_of_app, list_elem_of_singleton, Hiff. split.
      * intros [(Hu & b & Hb & ->) | ->].
        -- split.
           ++ simpl in Hu. unfold BitVector_set in Hu.
              destruct (decide ((Idx + o)%nat = (S (Idx + o) + b)%nat));
                [lia|]. now rewrite list_lookup_insert_ne in Hu.
           ++ exists (S (o + b)). rewrite <- Hbits.
              split; [assumption | lia].
        -- split; [assumption|]. exists o. auto.
      * intros (Hu & b & Hb & ->).
        destruct (Hcases b Hb) as [->|(b' & -> & Hb')]; [now right|].
        left. split.
        -- simpl. unfold BitVector_set.
           rewrite list_lookup_insert_ne by lia. exact Hu.
        -- exists b'. split; [assumption | lia].
Qed.

Lemma fresh_compose (bv : BitVector) (new1 new2 : list nat)
    (P1 P2 : nat -> Prop) :
  fresh bv new1 ->
  (forall i, i ∈ new1 <-> bv !! i = Some false /\ P1 i) ->
  (forall i, i ∈ new2 <-> cover_list new1 bv !! i = Some false /\ P2 i) ->
  forall i, i ∈ new2 ++ new1 <-> bv !! i = Some false /\ (P2 i \/ P1 i).
Proof.
  intros Hf H1 H2 i. rewrite elem_of_app, H1, H2. split.
  - intros [[Hc HP] | [Hc HP]]; [|tauto]. split; [|tauto].
    destruct (decide (i ∈ new1)) as [Hin|Hnin].
    + rewrite cover_list_in in Hc; [discriminate | assumption|].
      eapply fresh_lt; eassumption.
    + now rewrite cover_list_notin in Hc.
  - intros [Hc [HP | HP]]; [|tauto].
    destruct (decide (i ∈ new1)) as [Hin|Hnin].
    + right. now apply H1.
    + left. now rewrite cover_list_notin.
Qed.

Lemma unsigned_bit_lt (w : Z) (b : nat) :
  is_unsigned w -> Z.testbit w (Z.of_nat b) = true -> (b < 32)%nat.
Proof.
  intros [H0 H1] Hb. destruct (Nat.lt_ge_cases b 32) as [|Hge]; [assumption|].
  destruct (Z.eq_dec w 0) as [->|Hne];
    [rewrite Z.testbit_0_l in Hb; discriminate|].
  rewrite Z.bits_above_log2 in Hb; [discriminate | lia|].
  assert (Z.log2 w < 32) by (apply Z.log2_lt_pow2; lia). lia.
Qed.

Lemma has_bit_cons_lt (w : Z) (ws : list Z) (j : nat) :
  (j < 32)%nat -> has_bit (w :: ws) j = Z.testbit w (Z.of_nat j).
Proof.
  intros Hj. unfold has_bit.
  rewrite Nat.div_small, Nat.mod_small by assumption. reflexivity.
Qed.

Lemma has_bit_cons_ge (w : Z) (ws : list Z) (j : nat) :
  (32 <= j)%nat -> has_bit (w :: ws) j = has_bit ws (j - 32).
Proof.
  intros Hj. unfold has_bit.
  assert (E1 : (j / 32 = S ((j - 32) / 32))%nat).
  { replace j with ((j - 32) + 1 * 32)%nat at 1 by lia.
    rewrite Nat.div_add by lia. lia. }
  assert (E2 : (j mod 32 = (j - 32) mod 32)%nat).
  { replace j with ((j - 32) + 1 * 32)%nat at 1 by lia.
    now rewrite Nat.Div0.mod_add. }
  rewrite E1, E2. reflexivity.
Qed.

Lemma scan_subclasses_cons (Base : nat) (w : Z) (ws : list Z)
    (st : CoverageState) :
  scan_subclasses N Base (w :: ws) st
  = if (Base <? N)%nat
    then st' <- scan_subclass_word 33 Base w st ;;
         scan_subclasses N (Base + 32) ws st'
    else Ok st.
Proof. reflexivity. Qed.

(** The loop of lines 126-152 pushes the classes of the set bits of the
    words it reads that are not covered, once each. *)
Lemma scan_subclasses_spec (ws : list Z) :
  forall (Base : nat) (st : CoverageState),
  Forall is_unsigned ws ->
  (N <= Base + 32 * length ws)%nat ->
  (forall j, has_bit ws j = true -> (Base + j < length (Covered st))%nat) ->
  exists new,
    scan_subclasses N Base ws st = Ok (push_list new st) /\
    fresh (Covered st) new /\
    forall i, i ∈ new <->
      Covered st !! i = Some false /\
      exists j, (Base + j - j mod 32 < N)%nat /\ has_bit ws j = true /\
                i = (Base + j)%nat.
Proof.
  induction ws as [|w ws IH]; intros Base st Hu Hlen Hin.
  - exists []. rewrite push_list_nil. simpl in *.
    replace (Base <? N)%nat with false by (symmetry; apply Nat.ltb_ge; lia).
    split; [reflexivity|]. split; [apply fresh_nil|].
    intros i. split; [intros H; inversion H|].
    intros (_ & j & _ & Hj & _). unfold has_bit in Hj.
    rewrite lookup_nil in Hj. discriminate.
  - rewrite scan_subclasses_cons. inversion Hu as [|? ? Hw Hu']; subst.
    destruct (Nat.ltb_spec Base N) as [HB|HB].
    + destruct (scan_subclass_word_spec 33 32 Base w st) as (new1 & E1 & F1 & I1);
        try lia; try assumption.
      { intros b Hb. apply Hin. rewrite has_bit_cons_lt; [assumption|].
        eapply unsigned_bit_lt; eassumption. }
      rewrite E1. simpl bind.
      destruct (IH (Base + 32)%nat (push_list new1 st)) as (new2 & E2 & F2 & I2);
        try assumption.
      { simpl in Hlen. lia. }
      { intros j Hj. simpl. rewrite cover_list_length.
        replace (Base + 32 + j)%nat with (Base + (32 + j))%nat by lia.
        apply Hin. rewrite has_bit_cons_ge by lia.
        now replace (32 + j - 32)%nat with j by lia. }
      exists (new2 ++ new1). rewrite push_list_app. split; [exact E2|].
      split; [now apply fresh_app|].
      intros i. rewrite (fresh_compose _ _ _ _ _ F1 I1 I2). split.
      * intros [Hc [(j & Hj1 & Hj2 & ->) | (b & Hb & ->)]]; split;
          try assumption.
        -- exists (32 + j)%nat. rewrite has_bit_cons_ge by lia.
           replace (32 + j - 32)%nat with j by lia.
           replace ((32 + j) mod 32)%nat with (j mod 32)%nat
             by (replace (32 + j)%nat with (j + 1 * 32)%nat by lia;
                 now rewrite Nat.Div0.mod_add).
           repeat split; [lia | assumption | lia].
        -- pose proof (unsigned_bit_lt _ _ Hw Hb) as Hb32.
           exists b. rewrite has_bit_cons_lt by assumption.
           rewrite Nat.mod_small by assumption.
           repeat split; [lia | assumption].
      * intros [Hc (j & Hj1 & Hj2 & ->)]. split; [assumption|].
        destruct (Nat.lt_ge_cases j 32) as [Hlt|Hge].
        -- right. exists j. rewrite has_bit_cons_lt in Hj2 by assumption. auto.
        -- left. exists (j - 32)%nat. rewrite has_bit_cons_ge in Hj2 by lia.
           replace ((j - 32) mod 32)%nat with (j mod 32)%nat.
           ++ repeat split; [lia | assumption | lia].
           ++ replace j with ((j - 32) + 1 * 32)%nat at 1 by lia.
              now rewrite Nat.Div0.mod_add.
    + exists []. rewrite push_list_nil. split; [reflexivity|].
      split; [apply fresh_nil|].
      intros i. split; [intros H; inversion H|].
      intros (_ & j & Hj1 & _ & _).
      pose proof (Nat.Div0.mod_le j 32). lia.
Qed.

(** The loop of lines 179-203 pushes [SubRCId] when bit [RCId] is in the
    word, which starts at class [Idx]. *)
Lemma scan_super_word_spec (RCId SubRCId : nat) (fuel : nat) :
  forall (n Idx : nat) (Mask : Z) (st : CoverageState) (pushed : bool),
  (n < fuel)%nat -> (n <= 32)%nat -> 0 <= Mask < 2 ^ Z.of_nat n ->
  (SubRCId < length (Covered st))%nat ->
  scan_super_word fuel RCId SubRCId Idx Mask st pushed
  = Ok (if (Idx <=? RCId)%nat && Z.testbit Mask (Z.of_nat (RCId - Idx))
        then (push_list [SubRCId] st, true)
        else (st, pushed)).
Proof.
  induction fuel as [|fuel IH]; intros n Idx Mask st pushed Hfuel Hn HM Hsub;
    [lia|].
  simpl scan_super_word. destruct (Z.eqb_spec Mask 0) as [->|Hne].
  - now rewrite Z.testbit_0_l, andb_false_r.
  - destruct (ctz32_step Mask n Hn HM Hne) as (Hn1 & Ho & Hhit & Hlow & Hbits & HM').
    set (o := countTrailingZeros32 Mask) in *.
    set (Mask' := Z.shiftr (Z.shiftr Mask (Z.of_nat o)) 1) in *.
    destruct (Nat.eqb_spec (Idx + o) RCId) as [E|Hneq].
    + rewrite (push_and_cover_fresh _ _ Hsub). simpl bind.
      replace (RCId - Idx)%nat with o by lia. rewrite Hhit.
      now replace (Idx <=? RCId)%nat with true
        by (symmetry; apply Nat.leb_le; lia).
    + rewrite (IH (n - 1)%nat) by (lia || assumption).
      assert (Hcond :
        (S (Idx + o) <=? RCId)%nat
        && Z.testbit Mask' (Z.of_nat (RCId - S (Idx + o)))
        = (Idx <=? RCId)%nat && Z.testbit Mask (Z.of_nat (RCId - Idx))).
      { rewrite Hbits.
        destruct (Nat.leb_spec (S (Idx + o)) RCId) as [Hle|Hgt];
          destruct (Nat.leb_spec Idx RCId) as [Hle'|Hgt']; try lia;
          rewrite ?andb_true_l, ?andb_false_l; try reflexivity.
        - do 2 f_equal. lia.
        - symmetry. apply Hlow. lia. }
      now rewrite Hcond.
Qed.

Lemma scan_super_mask_cons (RCId SubRCId Base : nat) (w : Z) (ws : list Z)
    (st : CoverageState) (pushed : bool) :
  scan_super_mask N RCId SubRCId Base (w :: ws) st pushed
  = if (Base <? N)%nat
    then r <- scan_super_word 33 RCId SubRCId Base w st pushed ;;
         scan_super_mask N RCId SubRCId (Base + 32) ws (fst r) (snd r)
    else Ok (st, pushed).
Proof. reflexivity. Qed.

(** The loop of lines 177-204 pushes [SubRCId], once, when bit [RCId] is in
    the mask, whose words left start at class [Base]. *)
Lemma scan_super_mask_spec (RCId SubRCId : nat) (ws : list Z) :
  forall (Base : nat) (st : CoverageState) (pushed : bool),
  (RCId < N)%nat ->
  Forall is_unsigned ws ->
  (N <= Base + 32 * length ws)%nat ->
  (SubRCId < length (Covered st))%nat ->
  (pushed = true -> (RCId < Base)%nat) ->
  scan_super_mask N RCId SubRCId Base ws st pushed
  = Ok (if pushed then (st, true)
        else if (Base <=? RCId)%nat && has_bit ws (RCId - Base)
             then (push_list [SubRCId] st, true)
             else (st, false)).
Proof.
  induction ws as [|w ws IH]; intros Base st pushed HR Hu Hlen Hsub Hp.
  - simpl in *.
    replace (Base <? N)%nat with false by (symmetry; apply Nat.ltb_ge; lia).
    replace (Base <=? RCId)%nat with false
      by (symmetry; apply Nat.leb_gt; lia).
    now destruct pushed.
  - rewrite scan_super_mask_cons. inversion Hu as [|? ? Hw Hu']; subst.
    destruct (Nat.ltb_spec Base N) as [HB|HB].
    + rewrite (scan_super_word_spec RCId SubRCId 33 32) by (lia || assumption).
      simpl bind. destruct pushed.
      * specialize (Hp eq_refl).
        replace (Base <=? RCId)%nat with false
          by (symmetry; apply Nat.leb_gt; lia).
        simpl. rewrite IH; try assumption; try reflexivity.
        -- simpl in Hlen. lia.
        -- intros _. lia.
      * destruct (Nat.leb_spec Base RCId) as [Hle|Hgt]; simpl andb.
        -- destruct (Z.testbit w (Z.of_nat (RCId - Base))) eqn:Hb.
           ++ pose proof (unsigned_bit_lt _ _ Hw Hb) as Hb32.
              simpl fst. simpl snd. rewrite IH; try assumption.
              ** now rewrite has_bit_cons_lt, Hb by assumption.
              ** simpl in Hlen. lia.
              ** simpl. unfold BitVector_set. now rewrite length_insert.
              ** intros _. lia.
           ++ simpl fst. simpl snd. rewrite IH; try assumption.
              ** destruct (Nat.lt_ge_cases (RCId - Base) 32) as [Hlt|Hge].
                 --- rewrite has_bit_cons_lt, Hb by assumption.
                     now replace (Base + 32 <=? RCId)%nat with false
                       by (symmetry; apply Nat.leb_gt; lia).
                 --- rewrite has_bit_cons_ge by assumption.
                     replace (Base + 32 <=? RCId)%nat with true
                       by (symmetry; apply Nat.leb_le; lia).
                     simpl andb.
                     now replace (RCId - (Base + 32))%nat
                       with (RCId - Base - 32)%nat by lia.
              ** simpl in Hlen. lia.
              ** discriminate.
        -- simpl fst. simpl snd. rewrite IH; try assumption.
           ++ now replace (Base + 32 <=? RCId)%nat with false
                by (symmetry; apply Nat.leb_gt; lia).
           ++ simpl in Hlen. lia.
           ++ discriminate.
    + replace (Base <=? RCId)%nat with false
        by (symmetry; apply Nat.leb_gt; lia).
      now destruct pushed.
Qed.

(** The loop of lines 172-205 pushes [SubRCId], once, when bit [RCId] is in
    one of the masks. *)
Lemma scan_super_classes_spec (RCId SubRCId : nat) (masks : list (list Z)) :
  forall (st : CoverageState) (pushed : bool),
  (RCId < N)%nat ->
  Forall (wf_words N) masks ->
  (SubRCId < length (Covered st))%nat ->
  scan_super_classes N RCId SubRCId masks st pushed
  = Ok (if pushed then (st, true)
        else if existsb (fun mask => has_bit mask RCId) masks
             then (push_list [SubRCId] st, true)
             else (st, false)).
Proof.
  induction masks as [|mask masks IH]; intros st pushed HR Hwf Hsub.
  - simpl. now destruct pushed.
  - simpl scan_super_classes. destruct pushed; [reflexivity|].
    inversion Hwf as [|? ? [Hlen Hu] Hwf']; subst.
    rewrite scan_super_mask_spec; try assumption; try discriminate.
    2: { pose proof (Nat.Div0.div_mul_le (N + 31) 32).
         assert ((N + 31) mod 32 < 32)%nat by (apply Nat.mod_upper_bound; lia).
         pose proof (Nat.div_mod_eq (N + 31) 32). lia. }
    simpl bind. rewrite Nat.sub_0_r. simpl andb. simpl existsb.
    destruct (has_bit mask RCId); simpl fst; simpl snd.
    + rewrite IH; try assumption; [reflexivity|].
      simpl. unfold BitVector_set. now rewrite length_insert.
    + now rewrite IH.
Qed.

Lemma getRegClass_lookup (i : nat) (RC : TargetRegisterClass) :
  RegClasses TRI !! i = Some RC -> getRegClass NDEBUG TRI i = Ok RC.
Proof. intros H. unfold getRegClass. now rewrite H. Qed.

(** The loop of lines 167-206 pushes the subreg-classes of [RCId] that are
    not covered, once each. *)
Lemma scan_subreg_classes_spec (RCId : nat) (n : nat) :
  forall (s : nat) (st : CoverageState),
  wf_TRI TRI -> (RCId < N)%nat ->
  length (Covered st) = N -> (s + n <= N)%nat ->
  exists new,
    scan_subreg_classes NDEBUG TRI n N RCId s st = Ok (push_list new st) /\
    fresh (Covered st) new /\
    forall i, i ∈ new <->
      Covered st !! i = Some false /\
      ((s <= i < s + n)%nat /\ is_subreg_class TRI RCId i = true).
Proof.
  induction n as [|n IH]; intros s st Hwf HR Hlen Hs.
  - exists []. rewrite push_list_nil. split; [reflexivity|].
    split; [apply fresh_nil|]. intros i. split; [intros H; inversion H|].
    intros (_ & ? & _). lia.
  - simpl scan_subreg_classes.
    assert (Hs' : (s < length (Covered st))%nat) by lia.
    destruct (lookup_lt_is_Some_2 _ _ Hs') as [c Hc].
    rewrite (Covered_test_lookup _ _ _ Hc). simpl bind.
    assert (Hone : exists new1,
              (if c then Ok st
               else
                 SubRC <- getRegClass NDEBUG TRI s ;;
                 r <- scan_super_classes N RCId s (SuperRegClassMasks SubRC)
                        st false ;;
                 Ok (fst r)) = Ok (push_list new1 st) /\
              fresh (Covered st) new1 /\
              forall i, i ∈ new1 <->
                Covered st !! i = Some false /\
                (i = s /\ is_subreg_class TRI RCId i = true)).
    { destruct c.
      - exists []. rewrite push_list_nil. split; [reflexivity|].
        split; [apply fresh_nil|]. intros i. split; [intros H; inversion H|].
        intros (Hu & -> & _). congruence.
      - assert (HsN : (s < length (RegClasses TRI))%nat)
          by (unfold getNumRegClasses in *; lia).
        destruct (lookup_lt_is_Some_2 _ _ HsN) as [RC HRC].
        rewrite (getRegClass_lookup _ _ HRC). simpl bind.
        destruct Hwf as [_ Hwf].
        destruct (Hwf _ _ HRC) as (_ & _ & _ & Hmasks).
        rewrite scan_super_classes_spec by assumption. simpl bind.
        assert (Esub : is_subreg_class TRI RCId s
                       = existsb (fun mask => has_bit mask RCId)
                           (SuperRegClassMasks RC))
          by (unfold is_subreg_class; now rewrite HRC).
        rewrite <- Esub. destruct (is_subreg_class TRI RCId s) eqn:Hhit.
        + exists [s]. split; [reflexivity|]. split.
          * split; [apply NoDup_singleton|]. intros i Hi.
            apply list_elem_of_singleton in Hi as ->. exact Hc.
          * intros i. rewrite list_elem_of_singleton. split.
            -- intros ->. auto.
            -- intros (_ & -> & _). reflexivity.
        + exists []. rewrite push_list_nil. split; [reflexivity|].
          split; [apply fresh_nil|]. intros i.
          split; [intros H; inversion H|].
          intros (_ & -> & E). congruence. }
    destruct Hone as (new1 & E1 & F1 & I1). rewrite E1. simpl bind.
    destruct (IH (S s) (push_list new1 st)) as (new2 & E2 & F2 & I2);
      try assumption; try lia.
    { simpl. now rewrite cover_list_length. }
    exists (new2 ++ new1). rewrite push_list_app. split; [exact E2|].
    split; [now apply fresh_app|].
    intros i. rewrite (fresh_compose _ _ _ _ _ F1 I1 I2).
    split; intros [Hu H]; (split; [assumption|]).
    + destruct H as [[? ?] | [-> ?]]; split; auto; lia.
    + destruct H as [Hr Hsub].
      destruct (decide (i = s)) as [->|Hne]; [right; auto|].
      left. split; [lia | assumption].
Qed.

(** One round of the loop pops a class and pushes its subclasses and its
    subreg-classes that are not covered, once each. *)
Lemma worklist_round_spec (st : CoverageState) (RCId : nat)
    (WorkList' : list nat) :
  wf_TRI TRI -> WorkList st = RCId :: WorkList' -> (RCId < N)%nat ->
  length (Covered st) = N ->
  exists new,
    worklist_round NDEBUG TRI N st
    = Ok (push_list new
            {| Covered := Covered st; WorkList := WorkList';
               MaxSize := Z.max (MaxSize st) (class_width TRI RCId);
               Pushed := Pushed st |}) /\
    fresh (Covered st) new /\
    forall i, i ∈ new <->
      Covered st !! i = Some false /\
      (is_subclass TRI RCId i = true \/ is_subreg_class TRI RCId i = true).
Proof.
  intros Hwf HWL HR Hlen. unfold worklist_round. rewrite HWL.
  assert (HRN : (RCId < length (RegClasses TRI))%nat)
    by (unfold getNumRegClasses in *; lia).
  destruct (lookup_lt_is_Some_2 _ _ HRN) as [RC HRC].
  rewrite (getRegClass_lookup _ _ HRC). simpl bind.
  pose proof Hwf as [_ Hwf'].
  destruct (Hwf' _ _ HRC) as (_ & [Hwlen Hwu] & Hwin & _).
  assert (Ew : class_width TRI RCId = wrap32 (RC_Size RC * 8))
    by (unfold class_width; now rewrite HRC).
  rewrite <- Ew.
  set (st1 := {| Covered := Covered st; WorkList := WorkList';
                 MaxSize := Z.max (MaxSize st) (class_width TRI RCId);
                 Pushed := Pushed st |}).
  destruct (scan_subclasses_spec (SubClassMask RC) 0 st1)
    as (new1 & E1 & F1 & I1); try assumption.
  { pose proof (Nat.div_mod_eq (N + 31) 32).
    assert ((N + 31) mod 32 < 32)%nat by (apply Nat.mod_upper_bound; lia).
    lia. }
  { intros j Hj. simpl. rewrite Hlen. now apply Hwin. }
  rewrite E1. simpl bind.
  destruct (scan_subreg_classes_spec RCId N 0 (push_list new1 st1))
    as (new2 & E2 & F2 & I2); try assumption; try lia.
  { simpl. now rewrite cover_list_length. }
  exists (new2 ++ new1). rewrite push_list_app. split; [exact E2|].
  split; [now apply (fresh_app (Covered st))|].
  intros i. rewrite (fresh_compose (Covered st) _ _ _ _ F1 I1 I2).
  assert (Esub : forall j, is_subclass TRI RCId j = has_bit (SubClassMask RC) j)
    by (intros j; unfold is_subclass; now rewrite HRC).
  split; intros [Hu H]; (split; [assumption|]).
  - destruct H as [[_ H] | (j & _ & Hj & ->)]; [now right | left].
    now rewrite Esub.
  - destruct H as [H | H].
    + right. exists i. rewrite <- Esub. repeat split; [|assumption].
      rewrite Esub in H. apply Hwin in H. simpl.
      pose proof (Nat.Div0.mod_le i 32). lia.
    + left. split; [|assumption]. apply lookup_lt_Some in Hu. lia.
Qed.

Lemma is_subclass_lt (i j : nat) :
  wf_TRI TRI -> is_subclass TRI i j = true -> (j < N)%nat.
Proof.
  intros [_ Hwf]. unfold is_subclass.
  destruct (RegClasses TRI !! i) as [RC|] eqn:HRC; [|discriminate].
  destruct (Hwf _ _ HRC) as (_ & _ & Hin & _). apply Hin.
Qed.

Lemma is_subreg_class_lt (i j : nat) :
  is_subreg_class TRI i j = true -> (j < N)%nat.
Proof.
  unfold is_subreg_class.
  destruct (RegClasses TRI !! j) as [RC|] eqn:HRC; [|discriminate].
  intros _. now apply lookup_lt_Some in HRC.
Qed.

(** The [do ... while] loop ends within as many rounds as there are classes
    on the worklist or not covered.  It pushes classes that were not
    covered, once each; the size it ends with is the largest of the one it
    starts with and those of the classes it pops; and the classes it ends
    with cover the subclasses and the subreg-classes of those it pops. *)
Lemma worklist_loop_spec (fuel : nat) :
  forall st : CoverageState,
  wf_TRI TRI -> length (Covered st) = N -> WorkList st <> [] ->
  (forall i, i ∈ WorkList st -> Covered st !! i = Some true) ->
  (uncovered_count (Covered st) + length (WorkList st) <= fuel)%nat ->
  exists new M,
    worklist_loop NDEBUG TRI fuel N st
    = Ok {| Covered := cover_list new (Covered st); WorkList := [];
            MaxSize := M; Pushed := new ++ Pushed st |} /\
    fresh (Covered st) new /\
    MaxSize st <= M /\
    (forall i, i ∈ WorkList st ++ new -> class_width TRI i <= M) /\
    (M = MaxSize st \/
     exists i, i ∈ WorkList st ++ new /\ M = class_width TRI i) /\
    (forall i j, i ∈ WorkList st ++ new ->
       is_subclass TRI i j = true \/ is_subreg_class TRI i j = true ->
       cover_list new (Covered st) !! j = Some true).
Proof.
  induction fuel as [|fuel IH]; intros st Hwf Hlen Hne Hcov Hfuel.
  - destruct (WorkList st); [congruence | simpl in Hfuel; lia].
  - destruct (WorkList st) as [|RCId WL] eqn:HWL; [congruence|].
    assert (HR : (RCId < N)%nat).
    { rewrite <- Hlen. eapply lookup_lt_Some, Hcov. now left. }
    destruct (worklist_round_spec st RCId WL Hwf HWL HR Hlen)
      as (new1 & E1 & F1 & I1).
    simpl worklist_loop. rewrite E1. simpl bind.
    set (M1 := Z.max (MaxSize st) (class_width TRI RCId)) in *.
    assert (Hclos1 : forall j,
              is_subclass TRI RCId j = true \/
              is_subreg_class TRI RCId j = true ->
              cover_list new1 (Covered st) !! j = Some true).
    { intros j Hj.
      assert (Hj' : (j < length (Covered st))%nat).
      { rewrite Hlen. destruct Hj as [Hj|Hj];
          [eapply is_subclass_lt | eapply is_subreg_class_lt]; eassumption. }
      destruct (lookup_lt_is_Some_2 _ _ Hj') as [[|] Hc].
      - now apply cover_list_mono.
      - apply cover_list_in; [|assumption]. apply I1. auto. }
    destruct (new1 ++ WL) as [|x l] eqn:Hnext.
    + apply app_eq_nil in Hnext as [-> ->]. simpl.
      exists [], M1. split; [reflexivity|]. split; [apply fresh_nil|].
      split; [lia|].
      split; [|split].
      * intros i Hi. apply list_elem_of_singleton in Hi as ->. lia.
      * destruct (Z.max_spec (MaxSize st) (class_width TRI RCId))
          as [[_ E]|[_ E]]; [right | left]; [|exact E].
        exists RCId. split; [now left | exact E].
      * intros i j Hi. apply list_elem_of_singleton in Hi as ->.
        apply Hclos1.
    + simpl is_empty. cbv iota.
      set (st' := push_list new1
                    {| Covered := Covered st; WorkList := WL;
                       MaxSize := M1; Pushed := Pushed st |}).
      destruct (IH st') as (new2 & M & E2 & F2 & HM & Hw & Hmax & Hclos);
        try assumption.
      { simpl. now rewrite cover_list_length. }
      { simpl. rewrite Hnext. discriminate. }
      { simpl. intros i Hi. apply elem_of_app in Hi as [Hi|Hi].
        - apply cover_list_in; [assumption|]. eapply fresh_lt; eassumption.
        - apply cover_list_mono, Hcov. now right. }
      { simpl. rewrite length_app.
        pose proof (uncovered_count_cover_list _ _ F1).
        simpl in Hfuel. lia. }
      simpl in E2, F2, HM, Hw, Hmax, Hclos.
      exists (new2 ++ new1), M. rewrite cover_list_app, <- app_assoc.
      split; [exact E2|]. split; [now apply fresh_app|].
      split; [lia|].
      assert (Hsame : forall i, i ∈ (RCId :: WL) ++ new2 ++ new1 ->
                i = RCId \/ i ∈ (new1 ++ WL) ++ new2).
      { intros i. rewrite !elem_of_app, elem_of_cons. tauto. }
      split; [|split].
      * intros i Hi. destruct (Hsame i Hi) as [->|Hi']; [lia|]. now apply Hw.
      * destruct Hmax as [E | (i & Hi & E)].
        -- destruct (Z.max_spec (MaxSize st) (class_width TRI RCId))
             as [[_ E']|[_ E']]; [right | left]; [|lia].
           exists RCId. split; [now left | lia].
        -- right. exists i. split; [|exact E].
           revert Hi. rewrite !elem_of_app, elem_of_cons. tauto.
      * intros i j Hi Hj. destruct (Hsame i Hi) as [->|Hi'].
        -- apply cover_list_mono. now apply Hclos1.
        -- eapply Hclos; eassumption.
Qed.

(** More fuel does not change what the loop returns. *)
Lemma worklist_loop_fuel_mono (fuel : nat) :
  forall (fuel' : nat) (st st' : CoverageState),
  (fuel <= fuel')%nat ->
  worklist_loop NDEBUG TRI fuel N st = Ok st' ->
  worklist_loop NDEBUG TRI fuel' N st = Ok st'.
Proof.
  induction fuel as [|fuel IH]; intros fuel' st st' Hle H; [discriminate|].
  destruct fuel' as [|fuel']; [lia|]. simpl in *.
  apply bind_Ok_inv in H as (st1 & Hr & H). rewrite Hr. simpl bind.
  destruct (is_empty (WorkList st1)); [assumption|].
  apply IH; [lia | assumption].
Qed.

Lemma resize_length (bv : BitVector) (n : nat) :
  length (BitVector_resize bv n) = n.
Proof.
  unfold BitVector_resize.
  rewrite length_app, length_take, length_replicate. lia.
Qed.

Lemma resize_same (bv : BitVector) :
  BitVector_resize bv (length bv) = bv.
Proof.
  unfold BitVector_resize.
  now rewrite firstn_all, Nat.sub_diag, app_nil_r.
Qed.

Lemma resize_test (bv : BitVector) (n i : nat) :
  BitVector_resize bv n !! i = Some true -> bv !! i = Some true.
Proof.
  unfold BitVector_resize. intros H.
  apply lookup_app_Some in H as [H | [_ H]].
  - apply lookup_take_Some in H as [H _]. exact H.
  - apply lookup_replicate in H as [H _]. discriminate.
Qed.

Lemma BitVector_test_true (bv : BitVector) (i : nat) :
  BitVector_test bv i = true <-> bv !! i = Some true.
Proof.
  unfold BitVector_test. destruct (bv !! i) as [[|]|]; split; congruence.
Qed.

(** The worklist loop from the seed class, on the vector [bv]. *)
Lemma loop_from_seed (fuel : nat) (id : Z) (name : option string) (size : Z)
    (bv : BitVector) (RCId : nat) :
  wf_TRI TRI -> (RCId < N)%nat -> (N <= fuel)%nat -> length bv = N ->
  exists new M,
    (st0 <- push_and_cover
              {| Covered := bv; WorkList := []; MaxSize := size;
                 Pushed := [] |} RCId ;;
     st <- worklist_loop NDEBUG TRI fuel N st0 ;;
     Ok ({| ID := id; Name := name; Size := MaxSize st;
            ContainedRegClasses := Covered st |}, Pushed st))
    = Ok ({| ID := id; Name := name; Size := M;
             ContainedRegClasses := cover_list (new ++ [RCId]) bv |},
          new ++ [RCId]) /\
    fresh (BitVector_set bv RCId) new /\
    size <= M /\
    (forall i, i ∈ RCId :: new -> class_width TRI i <= M) /\
    (M = size \/ exists i, i ∈ RCId :: new /\ M = class_width TRI i) /\
    (forall i j, i ∈ RCId :: new ->
       is_subclass TRI i j = true \/ is_subreg_class TRI i j = true ->
       cover_list (new ++ [RCId]) bv !! j = Some true).
Proof.
  intros Hwf HR Hfuel Hlen.
  rewrite push_and_cover_fresh by (simpl; lia). simpl bind.
  set (st0 := push_list [RCId]
                {| Covered := bv; WorkList := []; MaxSize := size;
                   Pushed := [] |}).
  assert (Hseed : Covered st0 !! RCId = Some true).
  { simpl. unfold BitVector_set. apply list_lookup_insert_eq. lia. }
  destruct (worklist_loop_spec fuel st0 Hwf)
    as (new & M & E & F & HM & Hw & Hmax & Hclos).
  { simpl. unfold BitVector_set. now rewrite length_insert. }
  { discriminate. }
  { simpl. intros i Hi. apply list_elem_of_singleton in Hi as ->.
    exact Hseed. }
  { simpl. pose proof (uncovered_count_lt _ _ Hseed) as Hlt. simpl in Hlt.
    unfold BitVector_set in *. rewrite length_insert in Hlt. lia. }
  exists new, M. rewrite E. simpl bind. simpl in *.
  rewrite cover_list_app. simpl cover_list.
  repeat split; try assumption; apply F.
Qed.

(** addRegBankCoverage on one bank: either the bank is valid and covers the
    seed class, and nothing is done; or the loop runs, and ends. *)
Lemma addRegBankCoverage_RB_spec (fuel : nat) (RB : RegisterBank)
    (RCId : nat) :
  wf_TRI TRI -> (RCId < N)%nat -> sized_for TRI RB -> (N <= fuel)%nat ->
  (RegisterBank_isValid RB = true /\
   ContainedRegClasses RB !! RCId = Some true /\
   forall fuel', addRegBankCoverage_RB NDEBUG TRI fuel' RB RCId = Ok (RB, []))
  \/
  (RegisterBank_isValid RB && BitVector_test (ContainedRegClasses RB) RCId
   = false /\
   length (start_vector TRI RB) = N /\
   exists new M,
     addRegBankCoverage_RB NDEBUG TRI fuel RB RCId
     = Ok ({| ID := ID RB; Name := Name RB; Size := M;
              ContainedRegClasses :=
                cover_list (new ++ [RCId]) (start_vector TRI RB) |},
           new ++ [RCId]) /\
     fresh (BitVector_set (start_vector TRI RB) RCId) new /\
     Size RB <= M /\
     (forall i, i ∈ RCId :: new -> class_width TRI i <= M) /\
     (M = Size RB \/ exists i, i ∈ RCId :: new /\ M = class_width TRI i) /\
     (forall i j, i ∈ RCId :: new ->
        is_subclass TRI i j = true \/ is_subreg_class TRI i j = true ->
        cover_list (new ++ [RCId]) (start_vector TRI RB) !! j = Some true)).
Proof.
  intros Hwf HR Hsized Hfuel.
  assert (HRN : (RCId < length (RegClasses TRI))%nat)
    by (unfold getNumRegClasses in *; lia).
  destruct (lookup_lt_is_Some_2 _ _ HRN) as [RC HRC].
  pose proof Hwf as [_ Hwf']. destruct (Hwf' _ _ HRC) as (HID & _).
  unfold addRegBankCoverage_RB.
  destruct (RegisterBank_isValid RB) eqn:Hvalid; simpl negb; cbv iota.
  - rewrite (getRegClass_lookup _ _ HRC). simpl bind.
    unfold RegisterBank_covers. rewrite Hvalid, assert_true. simpl bind.
    rewrite HID.
    assert (HRl : (RCId < length (ContainedRegClasses RB))%nat)
      by (rewrite (Hsized Hvalid); exact HR).
    destruct (lookup_lt_is_Some_2 _ _ HRl) as [c Hc].
    unfold BitVector_test. rewrite Hc. simpl bind. destruct c.
    + left. repeat split.
    + right. split; [reflexivity|].
      assert (Hlen : length (start_vector TRI RB) = N)
        by (unfold start_vector; rewrite Hvalid; now apply Hsized).
      unfold start_vector in *. rewrite Hvalid in *.
      split; [assumption|]. apply loop_from_seed; assumption.
  - right. split; [reflexivity|].
    assert (Hlen : length (start_vector TRI RB) = N)
      by (unfold start_vector; rewrite Hvalid; apply resize_length).
    unfold start_vector in *. rewrite Hvalid in *.
    split; [assumption|]. simpl bind. apply loop_from_seed; assumption.
Qed.

Lemma addRegBankCoverage_RB_fuel_mono (fuel fuel' : nat) (RB : RegisterBank)
    (RCId : nat) (r : RegisterBank * list nat) :
  (fuel <= fuel')%nat ->
  addRegBankCoverage_RB NDEBUG TRI fuel RB RCId = Ok r ->
  addRegBankCoverage_RB NDEBUG TRI fuel' RB RCId = Ok r.
Proof.
  intros Hle H. unfold addRegBankCoverage_RB in *.
  apply bind_Ok_inv in H as (done & Hd & H). rewrite Hd. simpl bind.
  destruct done; [assumption|].
  apply bind_Ok_inv in H as (st0 & H0 & H). rewrite H0. simpl bind.
  apply bind_Ok_inv in H as (st & Hl & H).
  now rewrite (worklist_loop_fuel_mono _ _ _ _ Hle Hl).
Qed.

Lemma bank_inv_sized (RB : RegisterBank) : bank_inv TRI RB -> sized_for TRI RB.
Proof.
  intros [_ [E|E]] Hv; [|assumption]. unfold RegisterBank_isValid in Hv.
  rewrite E in Hv. simpl in Hv. now rewrite andb_false_r in Hv.
Qed.

(** A call of addRegBankCoverage that returns had its seed class in the
    catalog. *)
Lemma addRegBankCoverage_RB_seed (fuel : nat) (RB : RegisterBank)
    (RCId : nat) (r : RegisterBank * list nat) :
  addRegBankCoverage_RB NDEBUG TRI fuel RB RCId = Ok r -> sized_for TRI RB ->
  (RCId < N)%nat.
Proof.
  intros H Hs. unfold addRegBankCoverage_RB in H.
  destruct (RegisterBank_isValid RB) eqn:Hv; simpl negb in H; cbv iota in H.
  - apply bind_Ok_inv in H as (done & Hd & _).
    apply bind_Ok_inv in Hd as (RC & Hg & _). unfold getRegClass in Hg.
    destruct (RegClasses TRI !! RCId) eqn:E.
    + now apply lookup_lt_Some in E.
    + apply bind_Ok_inv in Hg as (? & _ & Hg). discriminate.
  - simpl bind in H. apply bind_Ok_inv in H as (st0 & H0 & _).
    unfold push_and_cover in H0. simpl in H0. rewrite resize_length in H0.
    destruct (Nat.ltb_spec RCId N); [assumption | discriminate].
Qed.

Lemma addRegBankCoverage_RB_inv (fuel : nat) (RB RB' : RegisterBank)
    (RCId : nat) (pushes : list nat) :
  wf_TRI TRI -> bank_inv TRI RB ->
  addRegBankCoverage_RB NDEBUG TRI fuel RB RCId = Ok (RB', pushes) ->
  bank_inv TRI RB'.
Proof.
  intros Hwf Hinv H. pose proof (bank_inv_sized _ Hinv) as Hs.
  pose proof (addRegBankCoverage_RB_seed _ _ _ _ H Hs) as HR.
  apply (addRegBankCoverage_RB_fuel_mono fuel (Nat.max fuel N)) in H; [|lia].
  destruct (addRegBankCoverage_RB_spec (Nat.max fuel N) RB RCId Hwf HR Hs)
    as [(_ & _ & E) | (_ & Hlen & new & M & E & F & HM & Hw & _)]; [lia| |].
  - rewrite E in H. now injection H as <- _.
  - rewrite E in H. injection H as <- _. split.
    + intros i Hi. simpl in *. apply BitVector_test_true in Hi.
      apply cover_list_inv in Hi as [Hi|Hi].
      * destruct Hinv as [Hh _]. specialize (Hh i).
        assert (Ht : BitVector_test (ContainedRegClasses RB) i = true).
        { apply BitVector_test_true. unfold start_vector in Hi.
          destruct (RegisterBank_isValid RB); [assumption|].
          now apply resize_test in Hi. }
        specialize (Hh Ht). lia.
      * apply Hw. apply elem_of_app in Hi as [Hi|Hi]; [now right|].
        apply list_elem_of_singleton in Hi as ->. now left.
    + right. simpl. now rewrite cover_list_length.
Qed.

(** C6: in an array of banks built by createRegisterBank and
    addRegBankCoverage over a well-formed catalog, the size of a bank is at
    least the bit-width of every register class the bank covers. *)
Theorem bank_size_covers_classes (RegBanks : list RegisterBank) :
  wf_TRI TRI -> built NDEBUG TRI RegBanks ->
  forall (ID : nat) (RB : RegisterBank) (i : nat) (RC : TargetRegisterClass),
  RegBanks !! ID = Some RB -> RegClasses TRI !! i = Some RC ->
  BitVector_test (ContainedRegClasses RB) i = true ->
  wrap32 (RC_Size RC * 8) <= Size RB.
Proof.
  intros Hwf Hb.
  assert (Hall : forall ID RB, RegBanks !! ID = Some RB -> bank_inv TRI RB).
  { induction Hb as [n | RBs RBs' ID Name Hb IH Hc | RBs RBs' fuel ID RCId Hb IH Hc].
    - intros ID RB H. apply lookup_replicate in H as [-> _].
      split; [|now left]. intros i Hi. discriminate.
    - intros ID' RB' H. unfold createRegisterBank in Hc.
      apply bind_Ok_inv in Hc as (RB & Hg & Hc).
      apply bind_Ok_inv in Hc as (u & _ & Hc). injection Hc as <-.
      unfold getRegBank_ID in Hg.
      destruct (RBs !! ID) as [RB0|] eqn:E;
        [injection Hg as -> | apply bind_Ok_inv in Hg as (? & _ & Hg);
                              discriminate].
      destruct (decide (ID = ID')) as [<-|Hne].
      + rewrite list_lookup_insert_eq in H by (now apply lookup_lt_Some in E).
        injection H as <-. apply (IH ID RB E).
      + rewrite list_lookup_insert_ne in H by assumption. now apply (IH ID').
    - intros ID' RB' H. unfold addRegBankCoverage in Hc.
      apply bind_Ok_inv in Hc as (RB & Hg & Hc).
      apply bind_Ok_inv in Hc as ([RB1 p] & Hr & Hc). injection Hc as <-.
      unfold getRegBank_ID in Hg.
      destruct (RBs !! ID) as [RB0|] eqn:E;
        [injection Hg as -> | apply bind_Ok_inv in Hg as (? & _ & Hg);
                              discriminate].
      destruct (decide (ID = ID')) as [<-|Hne].
      + rewrite list_lookup_insert_eq in H by (now apply lookup_lt_Some in E).
        injection H as <-. simpl.
        eapply addRegBankCoverage_RB_inv; [assumption | | eassumption].
        now apply (IH ID).
      + rewrite list_lookup_insert_ne in H by assumption. now apply (IH ID'). }
  intros ID RB i RC HRB HRC Ht.
  destruct (Hall ID RB HRB) as [Hh _]. specialize (Hh i Ht).
  unfold class_width in Hh. now rewrite HRC in Hh.
Qed.

Lemma getRegBank_ID_lookup (RegBanks : list RegisterBank) (ID : nat)
    (RB : RegisterBank) :
  RegBanks !! ID = Some RB -> getRegBank_ID NDEBUG RegBanks ID = Ok RB.
Proof. intros H. unfold getRegBank_ID. now rewrite H. Qed.

(** C5: over a well-formed catalog of [N] classes, addRegBankCoverage
    returns, and its worklist loop needs no more than [N] rounds: every
    [fuel] from [N] on is enough.  No class is pushed on the worklist twice,
    every class pushed is in the catalog, and every class pushed after the
    seed was not covered when the loop started; so at most [N] classes are
    pushed. *)
Theorem addRegBankCoverage_terminates (RegBanks : list RegisterBank)
    (ID RCId : nat) (RB : RegisterBank) (fuel : nat) :
  wf_TRI TRI -> RegBanks !! ID = Some RB -> sized_for TRI RB ->
  (RCId < N)%nat -> (N <= fuel)%nat ->
  exists RB' pushes,
    addRegBankCoverage_RB NDEBUG TRI fuel RB RCId = Ok (RB', pushes) /\
    addRegBankCoverage NDEBUG TRI fuel RegBanks ID RCId
    = Ok (<[ID := RB']> RegBanks) /\
    NoDup pushes /\
    (forall i, i ∈ pushes -> (i < N)%nat) /\
    (forall i, i ∈ pushes ->
       i = RCId \/ start_vector TRI RB !! i = Some false) /\
    (length pushes <= N)%nat.
Proof.
  intros Hwf HRB Hs HR Hfuel.
  assert (Hreg : forall RB' pushes,
            addRegBankCoverage_RB NDEBUG TRI fuel RB RCId = Ok (RB', pushes) ->
            addRegBankCoverage NDEBUG TRI fuel RegBanks ID RCId
            = Ok (<[ID := RB']> RegBanks)).
  { intros RB' pushes E. unfold addRegBankCoverage.
    rewrite (getRegBank_ID_lookup _ _ _ HRB). simpl bind. now rewrite E. }
  destruct (addRegBankCoverage_RB_spec fuel RB RCId Hwf HR Hs Hfuel)
    as [(_ & _ & E) | (_ & Hlen & new & M & E & F & _)].
  - exists RB, []. split; [apply E|]. split; [eapply Hreg, E|].
    split; [constructor|].
    repeat split; try (intros i Hi; inversion Hi). simpl. lia.
  - eexists _, _. split; [exact E|]. split; [eapply Hreg, E|].
    assert (Hseed : BitVector_set (start_vector TRI RB) RCId !! RCId
                    = Some true).
    { unfold BitVector_set. apply list_lookup_insert_eq. lia. }
    assert (Hnin : RCId ∉ new).
    { intros Hin. destruct F as [_ F]. apply F in Hin. congruence. }
    split; [|split; [|split]].
    + apply NoDup_app. split; [apply F|]. split; [|apply NoDup_singleton].
      intros i Hi Hi'. apply list_elem_of_singleton in Hi' as ->. tauto.
    + intros i Hi. apply elem_of_app in Hi as [Hi|Hi].
      * pose proof (fresh_lt _ _ _ F Hi) as Hlt. unfold BitVector_set in Hlt.
        rewrite length_insert in Hlt. lia.
      * apply list_elem_of_singleton in Hi as ->. assumption.
    + intros i Hi. apply elem_of_app in Hi as [Hi|Hi].
      * right. destruct F as [_ F]. pose proof (F i Hi) as Hf.
        unfold BitVector_set in Hf.
        rewrite list_lookup_insert_ne in Hf; [assumption|].
        intros ->. tauto.
      * left. now apply list_elem_of_singleton in Hi.
    + pose proof (uncovered_count_cover_list _ _ F) as Hc.
      pose proof (uncovered_count_lt _ _ Hseed) as Hlt.
      unfold BitVector_set in Hlt. rewrite length_insert in Hlt.
      rewrite length_app. simpl. unfold BitVector_set in Hc. lia.
Qed.



End CoverageProofs.

(** ** The theorems on the example catalog *)

Lemma has_bit_one_word (w : Z) (k j : nat) :
  (0 <=? w) && (w <? 2 ^ Z.of_nat k) = true -> (k <= 32)%nat ->
  has_bit [w] j = true -> (j < k)%nat.
Proof.
  intros Hw Hk H. apply andb_true_iff in Hw as [Hw0 Hw1].
  apply Z.leb_le in Hw0. apply Z.ltb_lt in Hw1. unfold has_bit in H.
  destruct (Nat.lt_ge_cases j 32) as [Hlt|Hge].
  - rewrite Nat.div_small, Nat.mod_small in H by assumption. simpl in H.
    destruct (Nat.lt_ge_cases j k) as [|Hjk]; [assumption|].
    destruct (Z.eq_dec w 0) as [->|Hne];
      [rewrite Z.testbit_0_l in H; discriminate|].
    rewrite Z.bits_above_log2 in H; [discriminate | lia|].
    assert (Z.log2 w < Z.of_nat k) by (apply Z.log2_lt_pow2; lia). lia.
  - assert (1 <= j / 32)%nat
      by (apply Nat.div_le_lower_bound; lia).
    destruct (j / 32)%nat; [lia | discriminate].
Qed.

Lemma wf_TRI_cov : wf_TRI TRI_cov.
Proof.
  split; [vm_compute; reflexivity|].
  intros i RC H.
  assert (Hw : forall w, is_unsigned w -> wf_words 3 [w]).
  { intros w Hu. split; [vm_compute; lia | now constructor]. }
  destruct i as [|[|[|i]]]; simpl in H; try discriminate;
    injection H as <-; simpl; (split; [reflexivity|]);
    (split; [apply Hw; unfold is_unsigned; lia|]); split.
  - intros j Hj. apply (has_bit_one_word 3 2) in Hj;
      [unfold getNumRegClasses; simpl; lia | reflexivity | lia].
  - constructor.
  - intros j Hj. apply (has_bit_one_word 2 2) in Hj;
      [unfold getNumRegClasses; simpl; lia | reflexivity | lia].
  - constructor.
  - intros j Hj. apply (has_bit_one_word 4 3) in Hj;
      [unfold getNumRegClasses; simpl; lia | reflexivity | lia].
  - constructor; [apply Hw; unfold is_unsigned; lia | constructor].
Qed.

Lemma built_RegBanks1_ex : built false TRI_cov RegBanks1_ex.
Proof.
  apply (built_cover false TRI_cov RegBanks_ex RegBanks1_ex 3 0 0).
  - apply (built_create false TRI_cov (RegisterBankInfo_new 1) RegBanks_ex 0
             "GPR"%string); [apply built_new | reflexivity].
  - vm_compute. reflexivity.
Qed.

Lemma bank_size_covers_classes_witness :
  exists (RB : RegisterBank) (RC : TargetRegisterClass),
    RegBanks1_ex !! 0%nat = Some RB /\
    RegClasses TRI_cov !! 0%nat = Some RC /\
    BitVector_test (ContainedRegClasses RB) 0 = true /\
    wrap32 (RC_Size RC * 8) <= Size RB.
Proof.
  eexists _, _. split; [reflexivity|]. split; [reflexivity|].
  split; [reflexivity|].
  apply (bank_size_covers_classes false TRI_cov RegBanks1_ex wf_TRI_cov
           built_RegBanks1_ex 0 _ 0 _ eq_refl eq_refl eq_refl).
Defined.

Lemma addRegBankCoverage_terminates_witness :
  exists RB' pushes,
    addRegBankCoverage_RB false TRI_cov 3
      {| ID := 0; Name := Some "GPR"%string; Size := 0;
         ContainedRegClasses := [] |} 0 = Ok (RB', pushes) /\
    addRegBankCoverage false TRI_cov 3 RegBanks_ex 0 0
    = Ok (<[0%nat := RB']> RegBanks_ex) /\
    NoDup pushes /\
    (forall i, i ∈ pushes -> (i < getNumRegClasses TRI_cov)%nat) /\
    (forall i, i ∈ pushes ->
       i = 0%nat \/
       start_vector TRI_cov
         {| ID := 0; Name := Some "GPR"%string; Size := 0;
            ContainedRegClasses := [] |} !! i = Some false) /\
    (length pushes <= getNumRegClasses TRI_cov)%nat.
Proof.
  apply (addRegBankCoverage_terminates false TRI_cov RegBanks_ex 0 0 _ 3
           wf_TRI_cov eq_refl).
  - intros Hv. vm_compute in Hv. discriminate.
  - vm_compute. lia.
  - vm_compute. lia.
Defined.

(** On the example the loop pushes the seed class 0, then its subclass 1 and
    its subreg-class 2. *)
Example addRegBankCoverage_RB_ex :
  addRegBankCoverage_RB false TRI_cov 3
    {| ID := 0; Name := Some "GPR"%string; Size := 0;
       ContainedRegClasses := [] |} 0
  = Ok ({| ID := 0; Name := Some "GPR"%string; Size := 64;
           ContainedRegClasses := [true; true; true] |}, [2; 1; 0]%nat).
Proof. vm_compute. reflexivity. Qed.



(** The same on a bank that was created, with a seed class of no bytes:
    the size of the bank stays 0, the bank is not valid after the first
    call, and the second call pushes the seed class again. *)
Example addRegBankCoverage_empty_class_ex :
  addRegBankCoverage false TRI_void_ex 1 RegBanks_ex 0 0
  = Ok RegBanks_void_ex /\
  RegisterBank_isValid
    {| ID := 0; Name := Some "GPR"%string; Size := 0;
       ContainedRegClasses := [true] |} = false /\
  addRegBankCoverage_RB false TRI_void_ex 1
    {| ID := 0; Name := Some "GPR"%string; Size := 0;
       ContainedRegClasses := [true] |} 0
  = Ok ({| ID := 0; Name := Some "GPR"%string; Size := 0;
           ContainedRegClasses := [true] |}, [0%nat]).
Proof. vm_compute. repeat split; reflexivity. Qed.

Lemma getInstrPossibleMappings_default_first_witness :
  getInstrPossibleMappings false TRI_ex MRI_ex
    (RegisterBankInfo_base false TRI_ex MRI_ex no_constraint bank_of_class_ex)
    copy_ex
  = Ok [ {| IM_ID := DefaultMappingID; Cost := 1; NumOperands := 2;
            OperandsMapping :=
              [single_mapping bank_F64 64; single_mapping bank_F64 64] |} ].
Proof.
  apply (proj1 (proj2 (getInstrPossibleMappings_default_first false TRI_ex
                         MRI_ex no_constraint bank_of_class_ex
                         (RegisterBankInfo_base false TRI_ex MRI_ex
                            no_constraint bank_of_class_ex) copy_ex))).
  - vm_compute. reflexivity.
  - reflexivity.
  - intros _. vm_compute. reflexivity.
Defined.

(** * Further properties of the code *)

(** ** The array of banks *)

Lemma getRegBank_ID_Ok (NDEBUG : bool) (RegBanks : list RegisterBank)
    (i : nat) (RB : RegisterBank) :
  getRegBank_ID NDEBUG RegBanks i = Ok RB <-> RegBanks !! i = Some RB.
Proof.
  unfold getRegBank_ID. destruct (RegBanks !! i) as [RB0|].
  - split; congruence.
  - split; [|discriminate]. intros H.
    apply bind_Ok_inv in H as (? & _ & H). discriminate.
Qed.

Lemma assert_Ok (NDEBUG c : bool) (msg : string) (u : unit) :
  assert NDEBUG c msg = Ok u <-> (NDEBUG = false -> c = true).
Proof.
  unfold assert. destruct u, NDEBUG, c; simpl; split; try congruence; auto.
  intros H. discriminate H. reflexivity.
Qed.

(** createRegisterBank returns exactly when the bank is in the array and,
    where assertions are on, has no identifier yet. *)
Lemma createRegisterBank_Ok (NDEBUG : bool) (RegBanks R : list RegisterBank)
    (BankID : nat) (BankName : string) :
  createRegisterBank NDEBUG RegBanks BankID BankName = Ok R <->
  exists RB, RegBanks !! BankID = Some RB /\
    (NDEBUG = false -> ID RB = InvalidID) /\
    R = <[BankID := {| ID := Z.of_nat BankID; Name := Some BankName;
                       Size := Size RB;
                       ContainedRegClasses := ContainedRegClasses RB |}]>
          RegBanks.
Proof.
  unfold createRegisterBank, RegisterBank_getID. split.
  - intros H. apply bind_Ok_inv in H as (RB & Hg & H).
    apply getRegBank_ID_Ok in Hg.
    apply bind_Ok_inv in H as (u & Ha & H).
    pose proof (proj1 (assert_Ok _ _ _ _) Ha) as Ha'.
    injection H as <-. exists RB. split; [assumption|]. split; [|reflexivity].
    intros Hd. apply Z.eqb_eq, Ha', Hd.
  - intros (RB & Hl & Ha & ->).
    rewrite (proj2 (getRegBank_ID_Ok NDEBUG _ _ _) Hl). simpl bind.
    rewrite assert_when; [reflexivity|].
    intros Hd. apply Z.eqb_eq, Ha, Hd.
Qed.

(** X1: a call of createRegisterBank that returns has given the bank at that
    index its identifier, the index, and its name, has kept its size and
    the classes it covers, and has left every other bank and the length of
    the array as they were; where assertions are on, the bank had no
    identifier before. *)
Theorem createRegisterBank_lookup (NDEBUG : bool)
    (RegBanks RegBanks' : list RegisterBank) (BankID : nat)
    (BankName : string) :
  createRegisterBank NDEBUG RegBanks BankID BankName = Ok RegBanks' ->
  length RegBanks' = length RegBanks /\
  (exists RB, RegBanks !! BankID = Some RB /\
     (NDEBUG = false -> ID RB = InvalidID) /\
     getRegBank_ID NDEBUG RegBanks' BankID
     = Ok {| ID := Z.of_nat BankID; Name := Some BankName; Size := Size RB;
             ContainedRegClasses := ContainedRegClasses RB |}) /\
  (forall j, j <> BankID ->
     getRegBank_ID NDEBUG RegBanks' j = getRegBank_ID NDEBUG RegBanks j).
Proof.
  intros H. apply createRegisterBank_Ok in H as (RB & Hl & Ha & ->).
  split; [apply length_insert|]. split.
  - exists RB. repeat split; try assumption.
    apply getRegBank_ID_Ok, list_lookup_insert_eq.
    now apply lookup_lt_Some in Hl.
  - intros j Hj. unfold getRegBank_ID.
    now rewrite list_lookup_insert_ne by congruence.
Qed.

(** X2: a bank is created once.  After a call of createRegisterBank for a
    bank has returned, a second call for the same bank stops on the
    assertion of line 82 where assertions are on; under NDEBUG it returns,
    and has only changed the name.  The array has at most UINT_MAX banks,
    its length being an [unsigned]. *)
Theorem createRegisterBank_once (NDEBUG : bool)
    (RegBanks RegBanks' : list RegisterBank) (BankID : nat)
    (Name1 Name2 : string) :
  Z.of_nat (length RegBanks) <= UINT_MAX ->
  createRegisterBank NDEBUG RegBanks BankID Name1 = Ok RegBanks' ->
  createRegisterBank false RegBanks' BankID Name2
  = Fail (AssertionFailed "A register bank should be created only once") /\
  exists RB, RegBanks !! BankID = Some RB /\
    createRegisterBank true RegBanks' BankID Name2
    = Ok (<[BankID := {| ID := Z.of_nat BankID; Name := Some Name2;
                         Size := Size RB;
                         ContainedRegClasses := ContainedRegClasses RB |}]>
            RegBanks).
Proof.
  intros Hlen H. apply createRegisterBank_Ok in H as (RB & Hl & Ha & ->).
  pose proof (lookup_lt_Some _ _ _ Hl) as Hlt.
  assert (Hl' : forall nd,
            getRegBank_ID nd
              (<[BankID := {| ID := Z.of_nat BankID; Name := Some Name1;
                              Size := Size RB;
                              ContainedRegClasses := ContainedRegClasses RB |}]>
                 RegBanks) BankID
            = Ok {| ID := Z.of_nat BankID; Name := Some Name1;
                    Size := Size RB;
                    ContainedRegClasses := ContainedRegClasses RB |}).
  { intros nd. now apply getRegBank_ID_Ok, list_lookup_insert_eq. }
  split.
  - unfold createRegisterBank. rewrite Hl'. simpl bind.
    unfold RegisterBank_getID, InvalidID. simpl ID.
    replace (Z.of_nat BankID =? UINT_MAX) with false
      by (symmetry; apply Z.eqb_neq; lia).
    reflexivity.
  - exists RB. split; [assumption|].
    unfold createRegisterBank. rewrite Hl'. simpl bind.
    now rewrite list_insert_insert_eq.
Qed.

(** X3: banks can be created in any order.  When createRegisterBank for one
    bank and then for another one return, so do the two calls in the other
    order, with the same array of banks. *)
Theorem createRegisterBank_commute (NDEBUG : bool)
    (RegBanks R1 R12 : list RegisterBank) (ID1 ID2 : nat)
    (Name1 Name2 : string) :
  ID1 <> ID2 ->
  createRegisterBank NDEBUG RegBanks ID1 Name1 = Ok R1 ->
  createRegisterBank NDEBUG R1 ID2 Name2 = Ok R12 ->
  exists R2,
    createRegisterBank NDEBUG RegBanks ID2 Name2 = Ok R2 /\
    createRegisterBank NDEBUG R2 ID1 Name1 = Ok R12.
Proof.
  intros Hne H1 H2.
  apply createRegisterBank_Ok in H1 as (RB1 & Hl1 & Ha1 & ->).
  apply createRegisterBank_Ok in H2 as (RB2 & Hl2 & Ha2 & ->).
  rewrite list_lookup_insert_ne in Hl2 by assumption.
  eexists. split.
  - apply createRegisterBank_Ok. exists RB2. repeat split; assumption.
  - apply createRegisterBank_Ok. exists RB1. repeat split.
    + now rewrite list_lookup_insert_ne by congruence.
    + assumption.
    + apply list_insert_insert_ne. congruence.
Qed.

(** The loop of RegisterBankInfo::verify accepts the banks from [Idx] on
    exactly when each has its index as identifier and is accepted by
    RegisterBank::verify. *)
Lemma RegisterBankInfo_verify_loop_Ok
    (RegisterBank_verify : RegisterBank -> result unit)
    (RegBanks : list RegisterBank) (n : nat) :
  forall Idx, (Idx + n = length RegBanks)%nat ->
  RegisterBankInfo_verify_loop false RegisterBank_verify RegBanks n Idx
  = Ok tt <->
  forall i RB, (Idx <= i)%nat -> RegBanks !! i = Some RB ->
    ID RB = Z.of_nat i /\ RegisterBank_verify RB = Ok tt.
Proof.
  induction n as [|n IH]; intros Idx Hlen.
  - simpl. split; [|reflexivity]. intros _ i RB Hi Hl.
    apply lookup_lt_Some in Hl. lia.
  - simpl RegisterBankInfo_verify_loop.
    assert (Hlt : (Idx < length RegBanks)%nat) by lia.
    destruct (lookup_lt_is_Some_2 _ _ Hlt) as [RB0 Hl0].
    rewrite (proj2 (getRegBank_ID_Ok false _ _ _) Hl0). simpl bind.
    unfold RegisterBank_getID. split.
    + intros H. apply bind_Ok_inv in H as (u & Ha & H).
      apply assert_debug_Ok, Z.eqb_eq in Ha.
      apply bind_Ok_inv in H as ([] & Hv & H).
      assert (Hn : (S Idx + n = length RegBanks)%nat) by lia.
      pose proof (proj1 (IH (S Idx) Hn) H) as H'. intros i RB Hi Hl.
      destruct (decide (i = Idx)) as [->|Hne].
      * rewrite Hl0 in Hl. injection Hl as <-. auto.
      * apply H'; [lia | assumption].
    + intros H. destruct (H Idx RB0 (Nat.le_refl _) Hl0) as [Hid Hv].
      rewrite Hid, Z.eqb_refl, Hv. simpl bind.
      assert (Hn : (S Idx + n = length RegBanks)%nat) by lia.
      apply (proj2 (IH (S Idx) Hn)).
      intros i RB Hi Hl. apply H; [lia | assumption].
Qed.

(** X4: with assertions on, RegisterBankInfo::verify returns exactly when
    every bank of the array has its index in the array as identifier and is
    accepted by RegisterBank::verify; so it stops on an array that still
    holds a bank that was not created. *)
Theorem RegisterBankInfo_verify_ids
    (RegisterBank_verify : RegisterBank -> result unit)
    (RegBanks : list RegisterBank) :
  (RegisterBankInfo_verify false RegisterBank_verify RegBanks = Ok tt <->
   forall i RB, RegBanks !! i = Some RB ->
     ID RB = Z.of_nat i /\ RegisterBank_verify RB = Ok tt) /\
  (forall NumRegBanks, (0 < NumRegBanks)%nat ->
     RegisterBankInfo_verify false RegisterBank_verify
       (RegisterBankInfo_new NumRegBanks)
     = Fail (AssertionFailed "ID does not match the index in the array")).
Proof.
  split.
  - unfold RegisterBankInfo_verify.
    rewrite RegisterBankInfo_verify_loop_Ok by reflexivity.
    split; intros H i RB; [apply H; lia | intros _; apply H].
  - intros [|n] Hn; [lia|]. reflexivity.
Qed.

(** ** What addRegBankCoverage leaves as it was *)

Section CoverageFrame.

Variable NDEBUG : bool.
Variable TRI : TargetRegisterInfo.

Local Abbreviation N := (getNumRegClasses TRI).

Lemma getRegClass_Ok (i : nat) (RC : TargetRegisterClass) :
  getRegClass NDEBUG TRI i = Ok RC <-> RegClasses TRI !! i = Some RC.
Proof.
  unfold getRegClass. destruct (RegClasses TRI !! i) as [RC0|].
  - split; congruence.
  - split; [|discriminate]. intros H.
    apply bind_Ok_inv in H as (? & _ & H). discriminate.
Qed.

(** A call of addRegBankCoverage returns exactly when the bank is in the
    array and the call on that bank returns. *)
Lemma addRegBankCoverage_Ok (fuel : nat) (RegBanks R : list RegisterBank)
    (BankID RCId : nat) :
  addRegBankCoverage NDEBUG TRI fuel RegBanks BankID RCId = Ok R <->
  exists RB RB' pushes, RegBanks !! BankID = Some RB /\
    addRegBankCoverage_RB NDEBUG TRI fuel RB RCId = Ok (RB', pushes) /\
    R = <[BankID := RB']> RegBanks.
Proof.
  unfold addRegBankCoverage. split.
  - intros H. apply bind_Ok_inv in H as (RB & Hg & H).
    apply getRegBank_ID_Ok in Hg.
    apply bind_Ok_inv in H as ([RB' p] & Hr & H). injection H as <-.
    exists RB, RB', p. auto.
  - intros (RB & RB' & p & Hl & Hr & ->).
    rewrite (proj2 (getRegBank_ID_Ok NDEBUG _ _ _) Hl). simpl bind.
    now rewrite Hr.
Qed.

(** The call on a bank keeps the identifier and the name of the bank, and
    returns only for a seed class of the catalog. *)
Lemma addRegBankCoverage_RB_frame (fuel : nat) (RB RB' : RegisterBank)
    (RCId : nat) (pushes : list nat) :
  addRegBankCoverage_RB NDEBUG TRI fuel RB RCId = Ok (RB', pushes) ->
  ID RB' = ID RB /\ Name RB' = Name RB /\ (RCId < N)%nat.
Proof.
  unfold addRegBankCoverage_RB. intros H.
  destruct (RegisterBank_isValid RB) eqn:Hv; simpl negb in H; cbv iota in H.
  - apply bind_Ok_inv in H as (done & Hd & H).
    apply bind_Ok_inv in Hd as (RC & Hg & _). apply getRegClass_Ok in Hg.
    apply lookup_lt_Some in Hg.
    destruct done.
    + injection H as <- _. auto.
    + apply bind_Ok_inv in H as (st0 & _ & H).
      apply bind_Ok_inv in H as (st & _ & H). injection H as <- _. auto.
  - simpl bind in H. apply bind_Ok_inv in H as (st0 & H0 & H).
    apply bind_Ok_inv in H as (st & _ & H). injection H as <- _.
    unfold push_and_cover in H0. simpl in H0. rewrite resize_length in H0.
    destruct (Nat.ltb_spec RCId N); [auto | discriminate].
Qed.

(** X5: a call of addRegBankCoverage that returns has kept the length of the
    array, every bank but the one it was called for, and the identifier and
    the name of that one. *)
Theorem addRegBankCoverage_frame (fuel : nat)
    (RegBanks RegBanks' : list RegisterBank) (BankID RCId : nat) :
  addRegBankCoverage NDEBUG TRI fuel RegBanks BankID RCId = Ok RegBanks' ->
  length RegBanks' = length RegBanks /\
  (forall j, j <> BankID -> RegBanks' !! j = RegBanks !! j) /\
  exists RB RB', RegBanks !! BankID = Some RB /\
    RegBanks' !! BankID = Some RB' /\
    ID RB' = ID RB /\ Name RB' = Name RB.
Proof.
  intros H. apply addRegBankCoverage_Ok in H as (RB & RB' & p & Hl & Hr & ->).
  apply addRegBankCoverage_RB_frame in Hr as (Hid & Hname & _).
  split; [apply length_insert|]. split.
  - intros j Hj. now rewrite list_lookup_insert_ne by congruence.
  - exists RB, RB'. repeat split; try assumption.
    apply list_lookup_insert_eq. now apply lookup_lt_Some in Hl.
Qed.

(** X6: addRegBankCoverage returns only for a bank of the array and a seed
    class of the catalog.  For a bank identifier or a register-class
    identifier out of range the call stops before the loop, whatever the
    fuel, and it stops on an assertion or in undefined behaviour, never for
    want of fuel nor on an unreachable statement: on the assertion of
    getRegBank or of getRegClass, which only a build with assertions has,
    or else in undefined behaviour, on the access past the end of the array
    or the bit set past the end of the coverage vector. *)
Theorem addRegBankCoverage_in_range (fuel : nat)
    (RegBanks : list RegisterBank) (BankID RCId : nat) :
  (length RegBanks <= BankID)%nat \/ (N <= RCId)%nat ->
  exists f,
    addRegBankCoverage NDEBUG TRI fuel RegBanks BankID RCId = Fail f /\
    (f = UndefinedBehaviour \/
     NDEBUG = false /\
     (f = AssertionFailed "Accessing an unknown register bank" \/
      f = AssertionFailed "Register Class ID out of range")).
Proof.
  intros Hout. unfold addRegBankCoverage, getRegBank_ID.
  destruct (RegBanks !! BankID) as [RB|] eqn:Hl.
  - apply lookup_lt_Some in Hl.
    assert (HR : (N <= RCId)%nat) by lia.
    simpl bind. unfold addRegBankCoverage_RB.
    destruct (RegisterBank_isValid RB) eqn:Hv; simpl negb; cbv iota.
    + unfold getRegClass.
      rewrite (proj2 (lookup_ge_None (RegClasses TRI) RCId))
        by (unfold getNumRegClasses in HR; lia).
      unfold assert. destruct NDEBUG; simpl; eexists; split;
        try reflexivity; auto.
    + simpl bind. unfold push_and_cover. simpl Covered.
      rewrite resize_length.
      destruct (Nat.ltb_spec RCId N) as [Hlt|_]; [lia|].
      simpl. eexists; split; [reflexivity | now left].
  - unfold assert. destruct NDEBUG; simpl; eexists; split;
      try reflexivity; auto.
Qed.

End CoverageFrame.

(** ** The classes addRegBankCoverage covers *)

Lemma reaches_trans (TRI : TargetRegisterInfo) (i j k : nat) :
  reaches TRI i j -> reaches TRI j k -> reaches TRI i k.
Proof.
  intros Hij Hjk. induction Hjk as [|k l _ IH He]; [assumption|].
  eapply reaches_step; eassumption.
Qed.

Lemma reaches_edge (TRI : TargetRegisterInfo) (i j : nat) :
  coverage_edge TRI i j -> reaches TRI i j.
Proof. intros He. eapply reaches_step; [apply reaches_refl | exact He]. Qed.

Lemma closed_reaches (TRI : TargetRegisterInfo) (RB : RegisterBank)
    (i j : nat) :
  bank_closed TRI RB ->
  BitVector_test (ContainedRegClasses RB) i = true -> reaches TRI i j ->
  BitVector_test (ContainedRegClasses RB) j = true.
Proof.
  intros Hcl Hi Hr. induction Hr as [|j k _ IH He]; [assumption|].
  eapply Hcl; eassumption.
Qed.

Lemma class_width_nonneg (TRI : TargetRegisterInfo) (i : nat) :
  0 <= class_width TRI i.
Proof.
  unfold class_width, wrap32. destruct (RegClasses TRI !! i); [|lia].
  apply Z.mod_pos_bound. lia.
Qed.

(** The invariant of a bank is about its size and the classes it covers. *)
Lemma bank_inv_closure_ext (TRI : TargetRegisterInfo) (RB RB' : RegisterBank) :
  Size RB' = Size RB -> ContainedRegClasses RB' = ContainedRegClasses RB ->
  bank_inv_closure TRI RB -> bank_inv_closure TRI RB'.
Proof.
  unfold bank_inv_closure, bank_inv, bank_holds_classes, bank_closed,
    bank_size_attained.
  intros -> ->. tauto.
Qed.

(** Two banks that satisfy the invariant and cover the same classes are the
    same, up to their identifiers and names. *)
Lemma bank_inv_closure_eq (TRI : TargetRegisterInfo) (RB1 RB2 : RegisterBank) :
  bank_inv_closure TRI RB1 -> bank_inv_closure TRI RB2 ->
  ID RB1 = ID RB2 -> Name RB1 = Name RB2 ->
  length (ContainedRegClasses RB1) = length (ContainedRegClasses RB2) ->
  (forall j, BitVector_test (ContainedRegClasses RB1) j = true <->
             BitVector_test (ContainedRegClasses RB2) j = true) ->
  RB1 = RB2.
Proof.
  intros ((Hh1 & _) & _ & Ha1) ((Hh2 & _) & _ & Ha2) Hid Hname Hlen Hcov.
  assert (Hc : ContainedRegClasses RB1 = ContainedRegClasses RB2).
  { apply list_eq. intros i. specialize (Hcov i). unfold BitVector_test in Hcov.
    destruct (ContainedRegClasses RB1 !! i) as [b1|] eqn:E1;
      destruct (ContainedRegClasses RB2 !! i) as [b2|] eqn:E2.
    - f_equal. destruct b1, b2; try reflexivity; destruct Hcov; auto.
      symmetry; auto.
    - apply lookup_lt_Some in E1. apply lookup_ge_None in E2. lia.
    - apply lookup_lt_Some in E2. apply lookup_ge_None in E1. lia.
    - reflexivity. }
  assert (Hs : Size RB1 = Size RB2).
  { unfold bank_holds_classes, bank_size_attained in *.
    assert (H1 : 0 <= Size RB1).
    { destruct Ha1 as [->|(i & _ & <-)]; [lia | apply class_width_nonneg]. }
    assert (H2 : 0 <= Size RB2).
    { destruct Ha2 as [->|(i & _ & <-)]; [lia | apply class_width_nonneg]. }
    assert (H12 : Size RB1 <= Size RB2).
    { destruct Ha1 as [E|(i & Hi & <-)]; [lia|]. apply Hh2, Hcov, Hi. }
    assert (H21 : Size RB2 <= Size RB1).
    { destruct Ha2 as [E|(i & Hi & <-)]; [lia|]. apply Hh1, Hcov, Hi. }
    lia. }
  destruct RB1, RB2. simpl in *. congruence.
Qed.

Section CoverageClosure.

Variable NDEBUG : bool.
Variable TRI : TargetRegisterInfo.

Local Abbreviation N := (getNumRegClasses TRI).

(** Every class the loop pushes is reached from a class of the worklist it
    starts with. *)
Lemma worklist_loop_reach (fuel : nat) :
  forall st st' : CoverageState,
  wf_TRI TRI -> length (Covered st) = N ->
  (forall i, i ∈ WorkList st -> (i < N)%nat) ->
  worklist_loop NDEBUG TRI fuel N st = Ok st' ->
  forall i, i ∈ Pushed st' ->
    i ∈ Pushed st \/ exists w, w ∈ WorkList st /\ reaches TRI w i.
Proof.
  induction fuel as [|fuel IH]; intros st st' Hwf Hlen HWL H; [discriminate|].
  simpl in H. apply bind_Ok_inv in H as (st1 & Hr & H).
  destruct (WorkList st) as [|RCId WL] eqn:EWL;
    [unfold worklist_round in Hr; rewrite EWL in Hr; discriminate|].
  assert (HR : (RCId < N)%nat) by (apply HWL; now left).
  destruct (worklist_round_spec NDEBUG TRI st RCId WL Hwf EWL HR Hlen)
    as (new1 & E1 & F1 & I1).
  rewrite E1 in Hr. injection Hr as <-.
  assert (Hnew1 : forall i, i ∈ new1 -> reaches TRI RCId i).
  { intros i Hi. apply reaches_edge. now apply I1 in Hi as [_ He]. }
  simpl WorkList in H.
  destruct (is_empty (new1 ++ WL)).
  - injection H as <-. simpl. intros i Hi.
    apply elem_of_app in Hi as [Hi|Hi]; [right | now left].
    exists RCId. split; [now left | auto].
  - intros i Hi. eapply IH in H; [| assumption | | | exact Hi].
    + simpl in H. destruct H as [H | (w & Hw & Hreach)].
      * apply elem_of_app in H as [H|H]; [right | now left].
        exists RCId. split; [now left | auto].
      * right. apply elem_of_app in Hw as [Hw|Hw].
        -- exists RCId. split; [now left|].
           eapply reaches_trans; [apply Hnew1, Hw | exact Hreach].
        -- exists w. split; [now right | exact Hreach].
    + simpl. now rewrite cover_list_length.
    + simpl. intros w Hw. apply elem_of_app in Hw as [Hw|Hw].
      * rewrite <- Hlen. eapply fresh_lt; eassumption.
      * apply HWL. now right.
Qed.

(** Every class a call of addRegBankCoverage pushes is reached from the seed
    class. *)
Lemma addRegBankCoverage_RB_reach (fuel : nat) (RB RB' : RegisterBank)
    (RCId : nat) (pushes : list nat) :
  wf_TRI TRI -> sized_for TRI RB ->
  addRegBankCoverage_RB NDEBUG TRI fuel RB RCId = Ok (RB', pushes) ->
  forall i, i ∈ pushes -> reaches TRI RCId i.
Proof.
  intros Hwf Hs H.
  pose proof (addRegBankCoverage_RB_frame _ _ _ _ _ _ _ H) as (_ & _ & HR).
  unfold addRegBankCoverage_RB in H.
  apply bind_Ok_inv in H as (done & Hd & H). destruct done.
  { injection H as _ <-. intros i Hi. inversion Hi. }
  apply bind_Ok_inv in H as (st0 & H0 & H).
  apply bind_Ok_inv in H as (st & Hl & H). injection H as _ <-.
  assert (Hlen : length (ContainedRegClasses
                   (if negb (RegisterBank_isValid RB)
                    then {| ID := ID RB; Name := Name RB; Size := Size RB;
                            ContainedRegClasses :=
                              BitVector_resize (ContainedRegClasses RB) N |}
                    else RB)) = N).
  { destruct (RegisterBank_isValid RB) eqn:Hv; simpl;
      [now apply Hs | apply resize_length]. }
  rewrite push_and_cover_fresh in H0 by (simpl; lia). injection H0 as <-.
  intros i Hi.
  eapply worklist_loop_reach in Hl; [| assumption | | | exact Hi].
  - simpl in Hl. destruct Hl as [Hl | (w & Hw & Hreach)].
    + apply list_elem_of_singleton in Hl as ->. apply reaches_refl.
    + apply list_elem_of_singleton in Hw as ->. exact Hreach.
  - simpl. unfold BitVector_set. now rewrite length_insert.
  - simpl. intros w Hw. now apply list_elem_of_singleton in Hw as ->.
Qed.

Lemma start_vector_test (RB : RegisterBank) (i : nat) :
  bank_inv TRI RB ->
  start_vector TRI RB !! i = Some true <->
  ContainedRegClasses RB !! i = Some true.
Proof.
  intros [_ Hb]. unfold start_vector.
  destruct (RegisterBank_isValid RB); [reflexivity|]. split.
  - apply resize_test.
  - intros H. destruct Hb as [E|E].
    + rewrite E in H. discriminate.
    + now rewrite <- E, resize_same.
Qed.

(** addRegBankCoverage on a bank that satisfies the invariant: the bank it
    gives satisfies it, and covers the classes the bank covered and those
    reached from the seed class. *)
Lemma addRegBankCoverage_RB_post (fuel : nat) (RB RB' : RegisterBank)
    (RCId : nat) (pushes : list nat) :
  wf_TRI TRI -> bank_inv_closure TRI RB ->
  addRegBankCoverage_RB NDEBUG TRI fuel RB RCId = Ok (RB', pushes) ->
  bank_inv_closure TRI RB' /\
  length (ContainedRegClasses RB') = N /\
  Size RB <= Size RB' /\
  (forall j, BitVector_test (ContainedRegClasses RB') j = true <->
     BitVector_test (ContainedRegClasses RB) j = true \/ reaches TRI RCId j).
Proof.
  intros Hwf (Hinv & Hcl & Hatt) H.
  pose proof (bank_inv_sized _ _ Hinv) as Hs.
  pose proof (addRegBankCoverage_RB_frame _ _ _ _ _ _ _ H) as (_ & _ & HR).
  pose proof (addRegBankCoverage_RB_reach _ _ _ _ _ Hwf Hs H) as Hreach.
  pose proof (addRegBankCoverage_RB_inv _ _ _ _ _ _ _ Hwf Hinv H) as Hinv'.
  apply (addRegBankCoverage_RB_fuel_mono _ _ fuel (Nat.max fuel N)) in H;
    [|lia].
  destruct (addRegBankCoverage_RB_spec NDEBUG TRI (Nat.max fuel N) RB RCId
              Hwf HR Hs)
    as [(Hv & Hc & E) | (_ & Hlen & new & M & E & F & HM & Hw & Hmax & Hclos)];
    [lia| |].
  - rewrite E in H. injection H as <- <-.
    split; [split; [exact Hinv | split; assumption]|].
    split; [now apply Hs|].
    split; [lia|]. intros j. split; [now left|].
    intros [Hj|Hj]; [assumption|].
    eapply closed_reaches; [exact Hcl | | exact Hj].
    now apply BitVector_test_true.
  - rewrite E in H. injection H as <- <-.
    set (Cov := cover_list (new ++ [RCId]) (start_vector TRI RB)) in *.
    assert (Hin : forall i, i ∈ RCId :: new -> Cov !! i = Some true).
    { intros i Hi. apply cover_list_in.
      - apply elem_of_app. apply elem_of_cons in Hi as [->|Hi];
          [right; now apply list_elem_of_singleton | now left].
      - apply elem_of_cons in Hi as [->|Hi]; [lia|].
        pose proof (fresh_lt _ _ _ F Hi) as Hlt. unfold BitVector_set in Hlt.
        now rewrite length_insert in Hlt. }
    assert (Hold : forall i,
              BitVector_test (ContainedRegClasses RB) i = true ->
              Cov !! i = Some true).
    { intros i Hi. apply cover_list_mono, start_vector_test; [assumption|].
      now apply BitVector_test_true. }
    assert (Hcl' : forall i j, Cov !! i = Some true ->
              coverage_edge TRI i j -> Cov !! j = Some true).
    { intros i j Hi He. apply cover_list_inv in Hi as [Hi|Hi].
      - apply Hold. apply (Hcl i j); [|assumption].
        apply BitVector_test_true. now apply start_vector_test in Hi.
      - apply (Hclos i j); [|exact He].
        apply elem_of_app in Hi as [Hi|Hi]; [now right|].
        apply list_elem_of_singleton in Hi as ->. now left. }
    split; [|split; [|split]].
    + split; [assumption|]. split.
      * intros i j Hi He. simpl in *. apply BitVector_test_true.
        apply BitVector_test_true in Hi. eapply Hcl'; eassumption.
      * unfold bank_size_attained. simpl.
        destruct Hmax as [-> | (i & Hi & ->)].
        -- destruct Hatt as [E0 | (i & Hi & Ew)]; [now left | right].
           exists i. split; [|assumption].
           now apply BitVector_test_true, Hold.
        -- right. exists i. split; [|reflexivity].
           now apply BitVector_test_true, Hin.
    + simpl. unfold Cov. now rewrite cover_list_length.
    + simpl. exact HM.
    + intros j. simpl. rewrite BitVector_test_true. split.
      * intros Hj. apply cover_list_inv in Hj as [Hj|Hj].
        -- left. apply BitVector_test_true.
           now apply start_vector_test in Hj.
        -- right. now apply Hreach.
      * intros [Hj|Hj]; [now apply Hold|].
        induction Hj as [|j k _ IH He]; [apply Hin; now left|].
        eapply Hcl'; eassumption.
Qed.

(** Every bank of a built array satisfies the invariant. *)
Lemma built_inv_closure (RegBanks : list RegisterBank) :
  wf_TRI TRI -> built NDEBUG TRI RegBanks ->
  forall BankID RB, RegBanks !! BankID = Some RB -> bank_inv_closure TRI RB.
Proof.
  intros Hwf Hb.
  induction Hb as [n | RBs RBs' I BankName Hb IH Hc
                     | RBs RBs' fuel I RCId Hb IH Hc]; intros BankID RB' H.
  - apply lookup_replicate in H as [-> _]. split; [split|split].
    + intros i Hi. discriminate.
    + now left.
    + intros i j Hi. discriminate.
    + now left.
  - apply createRegisterBank_Ok in Hc as (RB & Hl & _ & ->).
    destruct (decide (I = BankID)) as [<-|Hne].
    + rewrite list_lookup_insert_eq in H by (now apply lookup_lt_Some in Hl).
      injection H as <-.
      apply (bank_inv_closure_ext TRI RB); [reflexivity.. | now apply (IH I)].
    + rewrite list_lookup_insert_ne in H by assumption. now apply (IH BankID).
  - apply addRegBankCoverage_Ok in Hc as (RB & RB1 & p & Hl & Hr & ->).
    destruct (decide (I = BankID)) as [<-|Hne].
    + rewrite list_lookup_insert_eq in H by (now apply lookup_lt_Some in Hl).
      injection H as <-.
      eapply addRegBankCoverage_RB_post; [assumption | | exact Hr].
      now apply (IH I).
    + rewrite list_lookup_insert_ne in H by assumption. now apply (IH BankID).
Qed.

End CoverageClosure.

Section CoverageOrder.

Variable NDEBUG : bool.
Variable TRI : TargetRegisterInfo.

Local Abbreviation N := (getNumRegClasses TRI).

(** What a call returns does not depend on the fuel. *)
Lemma addRegBankCoverage_RB_fuel_det (fuel fuel' : nat) (RB : RegisterBank)
    (RCId : nat) (r r' : RegisterBank * list nat) :
  addRegBankCoverage_RB NDEBUG TRI fuel RB RCId = Ok r ->
  addRegBankCoverage_RB NDEBUG TRI fuel' RB RCId = Ok r' -> r = r'.
Proof.
  intros H H'.
  apply (addRegBankCoverage_RB_fuel_mono _ _ _ (Nat.max fuel fuel')) in H;
    [|lia].
  apply (addRegBankCoverage_RB_fuel_mono _ _ _ (Nat.max fuel fuel')) in H';
    [|lia].
  congruence.
Qed.

(** With fuel for as many rounds as there are classes, a call for a class
    of the catalog returns. *)
Lemma addRegBankCoverage_RB_total (fuel : nat) (RB : RegisterBank)
    (RCId : nat) :
  wf_TRI TRI -> bank_inv TRI RB -> (RCId < N)%nat -> (N <= fuel)%nat ->
  exists RB' pushes,
    addRegBankCoverage_RB NDEBUG TRI fuel RB RCId = Ok (RB', pushes).
Proof.
  intros Hwf Hinv HR Hfuel.
  destruct (addRegBankCoverage_RB_spec NDEBUG TRI fuel RB RCId Hwf HR
              (bank_inv_sized _ _ Hinv) Hfuel)
    as [(_ & _ & E) | (_ & _ & new & M & E & _)]; eauto.
Qed.

(** X7: the classes a bank covers are closed under subclasses and
    subreg-classes.  In an array of banks built by createRegisterBank and
    addRegBankCoverage over a well-formed catalog, a bank that covers a
    class covers every class that the subclass mask of that class names and
    every class one of whose super-register-class masks names that class. *)
Theorem built_banks_closed (RegBanks : list RegisterBank) (BankID : nat)
    (RB : RegisterBank) (i j : nat) :
  wf_TRI TRI -> built NDEBUG TRI RegBanks -> RegBanks !! BankID = Some RB ->
  BitVector_test (ContainedRegClasses RB) i = true ->
  is_subclass TRI i j = true \/ is_subreg_class TRI i j = true ->
  BitVector_test (ContainedRegClasses RB) j = true.
Proof.
  intros Hwf Hb Hl Hi He.
  destruct (built_inv_closure NDEBUG TRI RegBanks Hwf Hb BankID RB Hl)
    as (_ & Hcl & _).
  exact (Hcl i j Hi He).
Qed.

(** X8: the size of a bank is the largest bit-width of the classes it
    covers.  In an array of banks built by createRegisterBank and
    addRegBankCoverage over a well-formed catalog, the size of a bank is at
    least the bit-width of every class it covers and is the bit-width of
    one of them, unless it is zero. *)
Theorem bank_size_is_max (RegBanks : list RegisterBank) (BankID : nat)
    (RB : RegisterBank) :
  wf_TRI TRI -> built NDEBUG TRI RegBanks -> RegBanks !! BankID = Some RB ->
  (forall i RC, RegClasses TRI !! i = Some RC ->
     BitVector_test (ContainedRegClasses RB) i = true ->
     wrap32 (RC_Size RC * 8) <= Size RB) /\
  (Size RB = 0 \/
   exists i RC, RegClasses TRI !! i = Some RC /\
     BitVector_test (ContainedRegClasses RB) i = true /\
     Size RB = wrap32 (RC_Size RC * 8)).
Proof.
  intros Hwf Hb Hl.
  destruct (built_inv_closure NDEBUG TRI RegBanks Hwf Hb BankID RB Hl)
    as ((Hh & Hlen) & _ & Hatt).
  split.
  - intros i RC HRC Hi. specialize (Hh i Hi). unfold class_width in Hh.
    now rewrite HRC in Hh.
  - destruct Hatt as [E | (i & Hi & Ew)]; [now left | right].
    assert (Hlt : (i < N)%nat).
    { apply BitVector_test_true, lookup_lt_Some in Hi.
      destruct Hlen as [E|E]; rewrite E in Hi; [simpl in Hi|]; lia. }
    destruct (lookup_lt_is_Some_2 (RegClasses TRI) i Hlt) as [RC HRC].
    exists i, RC. repeat split; try assumption.
    unfold class_width in Ew. now rewrite HRC in Ew.
Qed.

(** X9: addRegBankCoverage adds to a bank exactly the classes reached from
    the seed class through subclasses and subreg-classes.  After a call on
    a built array over a well-formed catalog has returned, the bank covers
    a class exactly when it covered it before or the class is reached from
    the seed class; no class is dropped and the size does not shrink. *)
Theorem addRegBankCoverage_exact (fuel : nat)
    (RegBanks RegBanks' : list RegisterBank) (BankID RCId : nat) :
  wf_TRI TRI -> built NDEBUG TRI RegBanks ->
  addRegBankCoverage NDEBUG TRI fuel RegBanks BankID RCId = Ok RegBanks' ->
  exists RB RB', RegBanks !! BankID = Some RB /\
    RegBanks' !! BankID = Some RB' /\
    Size RB <= Size RB' /\
    forall j, BitVector_test (ContainedRegClasses RB') j = true <->
      BitVector_test (ContainedRegClasses RB) j = true \/ reaches TRI RCId j.
Proof.
  intros Hwf Hb H.
  apply addRegBankCoverage_Ok in H as (RB & RB' & p & Hl & Hr & ->).
  pose proof (built_inv_closure NDEBUG TRI RegBanks Hwf Hb BankID RB Hl)
    as Hinv.
  destruct (addRegBankCoverage_RB_post NDEBUG TRI _ _ _ _ _ Hwf Hinv Hr)
    as (_ & _ & Hsize & Hcov).
  exists RB, RB'. repeat split; try assumption; try apply Hcov.
  apply list_lookup_insert_eq. now apply lookup_lt_Some in Hl.
Qed.

(** X10: the order of two calls of addRegBankCoverage does not matter.  When
    a call for one bank and seed class and then a call for another bank and
    seed class return, on a built array over a well-formed catalog, the two
    calls in the other order return as well, with fuel for as many rounds
    as the catalog has classes, and give the same array of banks. *)
Theorem addRegBankCoverage_commute (f1 f2 f3 f4 : nat)
    (RegBanks R1 R12 : list RegisterBank) (IDa IDb A B : nat) :
  wf_TRI TRI -> built NDEBUG TRI RegBanks ->
  addRegBankCoverage NDEBUG TRI f1 RegBanks IDa A = Ok R1 ->
  addRegBankCoverage NDEBUG TRI f2 R1 IDb B = Ok R12 ->
  (N <= f3)%nat -> (N <= f4)%nat ->
  exists R2,
    addRegBankCoverage NDEBUG TRI f3 RegBanks IDb B = Ok R2 /\
    addRegBankCoverage NDEBUG TRI f4 R2 IDa A = Ok R12.
Proof.
  intros Hwf Hb H1 H2 Hf3 Hf4.
  apply addRegBankCoverage_Ok in H1 as (RBa & RBa' & pa & Hla & Hra & ->).
  apply addRegBankCoverage_Ok in H2 as (RBx & RBb' & pb & Hlx & Hrb & ->).
  pose proof (lookup_lt_Some _ _ _ Hla) as Hlta.
  pose proof (addRegBankCoverage_RB_frame _ _ _ _ _ _ _ Hra)
    as (Hida & Hnamea & HA).
  pose proof (addRegBankCoverage_RB_frame _ _ _ _ _ _ _ Hrb)
    as (Hidb & Hnameb & HB).
  pose proof (built_inv_closure NDEBUG TRI RegBanks Hwf Hb) as Hall.
  pose proof (Hall IDa RBa Hla) as Hinva.
  destruct (decide (IDa = IDb)) as [<-|Hne].
  - rewrite list_lookup_insert_eq in Hlx by assumption. injection Hlx as <-.
    destruct (addRegBankCoverage_RB_post NDEBUG TRI _ _ _ _ _ Hwf Hinva Hra)
      as (Hinva' & Hlena' & _ & Hcova').
    destruct (addRegBankCoverage_RB_post NDEBUG TRI _ _ _ _ _ Hwf Hinva' Hrb)
      as (Hinvb' & Hlenb' & _ & Hcovb').
    destruct (addRegBankCoverage_RB_total f3 RBa B Hwf (proj1 Hinva) HB Hf3)
      as (RB2 & p2 & Hr2).
    destruct (addRegBankCoverage_RB_post NDEBUG TRI _ _ _ _ _ Hwf Hinva Hr2)
      as (Hinv2 & Hlen2 & _ & Hcov2).
    destruct (addRegBankCoverage_RB_total f4 RB2 A Hwf (proj1 Hinv2) HA Hf4)
      as (RB21 & p21 & Hr21).
    destruct (addRegBankCoverage_RB_post NDEBUG TRI _ _ _ _ _ Hwf Hinv2 Hr21)
      as (Hinv21 & Hlen21 & _ & Hcov21).
    pose proof (addRegBankCoverage_RB_frame _ _ _ _ _ _ _ Hr2)
      as (Hid2 & Hname2 & _).
    pose proof (addRegBankCoverage_RB_frame _ _ _ _ _ _ _ Hr21)
      as (Hid21 & Hname21 & _).
    assert (Heq : RBb' = RB21).
    { apply (bank_inv_closure_eq TRI); try assumption; try congruence.
      intros j. rewrite Hcovb', Hcova', Hcov21, Hcov2. tauto. }
    exists (<[IDa := RB2]> RegBanks). split.
    + apply addRegBankCoverage_Ok. exists RBa, RB2, p2. auto.
    + apply addRegBankCoverage_Ok. exists RB2, RB21, p21.
      split; [now apply list_lookup_insert_eq|]. split; [assumption|].
      rewrite !list_insert_insert_eq. now rewrite Heq.
  - rewrite list_lookup_insert_ne in Hlx by assumption.
    pose proof (Hall IDb RBx Hlx) as Hinvx.
    destruct (addRegBankCoverage_RB_total f3 RBx B Hwf (proj1 Hinvx) HB Hf3)
      as (RB2 & p2 & Hr2).
    pose proof (addRegBankCoverage_RB_fuel_det _ _ _ _ _ _ Hr2 Hrb) as E2.
    injection E2 as -> ->.
    destruct (addRegBankCoverage_RB_total f4 RBa A Hwf (proj1 Hinva) HA Hf4)
      as (RB21 & p21 & Hr21).
    pose proof (addRegBankCoverage_RB_fuel_det _ _ _ _ _ _ Hr21 Hra) as E21.
    injection E21 as -> ->.
    exists (<[IDb := RBb']> RegBanks). split.
    + apply addRegBankCoverage_Ok. exists RBx, RBb', pb. auto.
    + apply addRegBankCoverage_Ok. exists RBa, RBa', pa.
      split; [now rewrite list_lookup_insert_ne by congruence|].
      split; [assumption|]. apply list_insert_insert_ne. congruence.
Qed.

End CoverageOrder.

(** ** What the verifiers accept *)

(** X11: on a mask that respects its bit-width, the assertion of
    PartialMapping::verify on the computation of the active width (line
    360) never fails: with assertions on, the call returns, or it stops
    because no bank is set (line 348) or because the bank is too small
    (line 362). *)
Theorem PartialMapping_verify_outcomes (pm : PartialMapping) :
  wf_APInt (Mask pm) ->
  PartialMapping_verify false pm = Ok tt \/
  PartialMapping_verify false pm
  = Fail (AssertionFailed "Register bank not set") \/
  PartialMapping_verify false pm
  = Fail (AssertionFailed "Register bank too small for Mask").
Proof.
  intros Hwf. unfold PartialMapping_verify.
  destruct (RegBank pm) as [rb|]; [|right; left; reflexivity].
  simpl non_null. rewrite assert_true. simpl bind.
  unfold getBoolValue, getBitWidth, RegisterBank_getSize.
  set (aw := if negb (VAL (Mask pm) =? 0)
             then wrap32 (BitWidth (Mask pm) - countLeadingZeros (Mask pm)
                          - countTrailingZeros (Mask pm))
             else 0).
  assert (Haw : (aw <=? BitWidth (Mask pm)) = true).
  { unfold aw. destruct (Z.eqb_spec (VAL (Mask pm)) 0) as [E|Hne]; simpl negb;
      cbv iota.
    - destruct Hwf as [[? ?] _]. apply Z.leb_le. lia.
    - destruct (ActiveWidth_spans (Mask pm) Hwf Hne) as (lo & hi & Hsp & _).
      destruct (ActiveWidth_bounds (Mask pm) lo hi (proj1 Hwf) Hsp)
        as (Hb & Hwrap & _).
      rewrite Hwrap. apply Z.leb_le. lia. }
  rewrite Haw, assert_true. simpl bind.
  destruct (Size rb >=? aw); [left | right; right]; reflexivity.
Qed.

Lemma masks_or_perm (l l' : list PartialMapping) (acc : Z) :
  l ≡ₚ l' -> masks_or l acc = masks_or l' acc.
Proof.
  intros Hp. revert acc.
  induction Hp as [|pm l l' _ IH|pm1 pm2 l|l l' l'' _ IH1 _ IH2]; intros acc.
  - reflexivity.
  - unfold masks_or in *. simpl. apply IH.
  - unfold masks_or. simpl. f_equal.
    rewrite <- !Z.lor_assoc. f_equal. apply Z.lor_comm.
  - now rewrite IH1.
Qed.

(** What ValueMapping::verify accepts, one way and the other. *)
Lemma ValueMapping_verify_sound (vm : ValueMapping) (w : Z) :
  ValueMapping_verify false vm w = Ok tt ->
  BreakDown vm <> [] /\
  Forall (fun pm => getBitWidth (Mask pm) = w /\
                    PartialMapping_verify false pm = Ok tt) (BreakDown vm) /\
  masks_or (BreakDown vm) 0 = Z.ones w.
Proof.
  unfold ValueMapping_verify. intros H. inv_Ok H.
  destruct (last (BreakDown vm)) as [back|] eqn:Hlast; [|discriminate].
  inv_Ok Hb. apply ValueMapping_verify_loop_sound in Hbba as [HF ->].
  unfold isAllOnesValue in Hbbb. simpl in Hbbb. unfold getBitWidth in *.
  rewrite Zmod_0_l in Hbbb. apply Z.eqb_eq in Hbbb.
  assert (Hw : BitWidth (Mask back) = w) by lia. rewrite Hw in *.
  repeat split; try assumption.
  intros E. rewrite E in Ha. discriminate.
Qed.

Lemma ValueMapping_verify_complete (vm : ValueMapping) (w : Z) :
  BreakDown vm <> [] ->
  Forall (fun pm => getBitWidth (Mask pm) = w /\
                    PartialMapping_verify false pm = Ok tt) (BreakDown vm) ->
  masks_or (BreakDown vm) 0 = Z.ones w ->
  ValueMapping_verify false vm w = Ok tt.
Proof.
  intros Hne HF Hor. unfold ValueMapping_verify.
  destruct (last (BreakDown vm)) as [back|] eqn:Hlast.
  - assert (Hw : getBitWidth (Mask back) = w).
    { rewrite Forall_forall in HF. apply HF.
      apply last_Some in Hlast as [l' ->]. apply elem_of_app. right.
      now left. }
    assert (He : negb (is_empty (BreakDown vm)) = true)
      by (destruct (BreakDown vm); [congruence | reflexivity]).
    rewrite He, assert_true. simpl bind.
    rewrite Hw, Z.eqb_refl, assert_true. simpl bind.
    rewrite (ValueMapping_verify_loop_complete w (BreakDown vm))
      by assumption.
    simpl bind. unfold isAllOnesValue. simpl BitWidth. simpl VAL.
    rewrite Zmod_0_l, Hor, Z.eqb_refl. apply assert_true.
  - apply last_None in Hlast. congruence.
Qed.

(** X12: with assertions on, ValueMapping::verify accepts a ValueMapping
    for a bit-width exactly when its break-down is not empty, every partial
    mapping of it has a mask of that bit-width and is accepted by
    PartialMapping::verify, and the bitwise OR of the masks is the all-ones
    value of that width. *)
Theorem ValueMapping_verify_accepts (vm : ValueMapping) (w : Z) :
  ValueMapping_verify false vm w = Ok tt <->
  BreakDown vm <> [] /\
  Forall (fun pm => getBitWidth (Mask pm) = w /\
                    PartialMapping_verify false pm = Ok tt) (BreakDown vm) /\
  masks_or (BreakDown vm) 0 = Z.ones w.
Proof.
  split; [apply ValueMapping_verify_sound|].
  intros (Hne & HF & Hor). now apply ValueMapping_verify_complete.
Qed.

(** X13: what ValueMapping::verify accepts does not depend on the order of
    the partial mappings: with assertions on, a ValueMapping that is
    accepted for a bit-width is accepted for it with its partial mappings in
    any other order. *)
Theorem ValueMapping_verify_permutation (vm : ValueMapping)
    (l : list PartialMapping) (w : Z) :
  ValueMapping_verify false vm w = Ok tt -> BreakDown vm ≡ₚ l ->
  ValueMapping_verify false {| BreakDown := l |} w = Ok tt.
Proof.
  intros H Hp. apply ValueMapping_verify_sound in H as (Hne & HF & Hor).
  apply ValueMapping_verify_complete; simpl.
  - intros ->. apply Permutation_nil_r in Hp. contradiction.
  - now rewrite <- Hp.
  - now rewrite <- (masks_or_perm _ _ 0 Hp).
Qed.

Lemma ones_bit_counts (w : Z) :
  0 < w ->
  countTrailingZeros {| BitWidth := w; VAL := Z.ones w |} = 0 /\
  countLeadingZeros {| BitWidth := w; VAL := Z.ones w |} = 0.
Proof.
  intros Hw. unfold countTrailingZeros, countLeadingZeros. simpl.
  destruct (Z.to_nat w) as [|n] eqn:E; [lia|]. cbn [ctz_scan clz_scan]. split.
  - rewrite Z.ones_spec_low by lia. reflexivity.
  - rewrite Z.ones_spec_low by lia. reflexivity.
Qed.

(** The decomposition setOperandMapping gives is accepted for its width. *)
Lemma single_mapping_verifies (NDEBUG : bool) (RB : RegisterBank) (w : Z) :
  0 < w < 2 ^ 32 -> (NDEBUG = false -> w <= Size RB) ->
  ValueMapping_verify NDEBUG (single_mapping RB w) w = Ok tt.
Proof.
  intros Hw Hfit. unfold ValueMapping_verify, single_mapping. simpl.
  rewrite assert_true. simpl bind. unfold getBitWidth. simpl.
  rewrite Z.eqb_refl, !assert_true. simpl bind.
  unfold PartialMapping_verify. simpl. rewrite assert_true. simpl bind.
  unfold getBoolValue, getBitWidth, RegisterBank_getSize. simpl.
  destruct (ones_bit_counts w) as [-> ->]; [lia|].
  assert (Hne : (Z.ones w =? 0) = false).
  { apply Z.eqb_neq. intros E.
    pose proof (Z.ones_spec_low w 0) as Hb. rewrite E, Z.testbit_0_l in Hb.
    discriminate Hb. lia. }
  rewrite Hne. simpl negb. cbv iota.
  replace (wrap32 (w - 0 - 0)) with w
    by (unfold wrap32; rewrite Z.mod_small; lia).
  rewrite Z.leb_refl, assert_true. simpl bind.
  rewrite assert_when by (intros Hd; apply Z.geb_le, Hfit, Hd). simpl bind.
  unfold isAllOnesValue, APInt_or, APInt_make. simpl.
  rewrite Zmod_0_l, Z.lor_0_l, Z.eqb_refl. apply assert_true.
Qed.

(** X14: what setOperandMapping writes is accepted by ValueMapping::verify.
    On an operand of the mapping that has no decomposition yet, for a width
    that is an [unsigned] other than zero and, where assertions are on, not
    above the size of the bank, setOperandMapping returns; the operand then
    has one partial mapping, which ValueMapping::verify accepts for that
    width, and the other operands, the identifier, the cost and the number
    of operands of the mapping are as before. *)
Theorem setOperandMapping_verifies (NDEBUG : bool) (IM : InstructionMapping)
    (OpIdx : nat) (MaskSize : Z) (RB : RegisterBank) :
  0 < MaskSize < 2 ^ 32 -> (NDEBUG = false -> MaskSize <= Size RB) ->
  (OpIdx < NumOperands IM)%nat ->
  OperandsMapping IM !! OpIdx = Some {| BreakDown := [] |} ->
  exists IM',
    setOperandMapping NDEBUG IM OpIdx MaskSize RB = Ok IM' /\
    (VM <- getOperandMapping NDEBUG IM' OpIdx ;;
     ValueMapping_verify NDEBUG VM MaskSize) = Ok tt /\
    getOperandMapping NDEBUG IM' OpIdx = Ok (single_mapping RB MaskSize) /\
    (forall j, j <> OpIdx ->
       OperandsMapping IM' !! j = OperandsMapping IM !! j) /\
    IM_ID IM' = IM_ID IM /\ Cost IM' = Cost IM /\
    NumOperands IM' = NumOperands IM.
Proof.
  intros Hw Hfit Hi Hl. eexists. split.
  - now apply setOperandMapping_empty.
  - assert (Hg : getOperandMapping NDEBUG
                   {| IM_ID := IM_ID IM; Cost := Cost IM;
                      NumOperands := NumOperands IM;
                      OperandsMapping :=
                        <[OpIdx := single_mapping RB MaskSize]>
                          (OperandsMapping IM) |} OpIdx
                 = Ok (single_mapping RB MaskSize)).
    { apply getOperandMapping_lookup; [assumption|]. simpl.
      apply list_lookup_insert_eq. now apply lookup_lt_Some in Hl. }
    rewrite Hg. simpl bind. split; [now apply single_mapping_verifies|].
    split; [reflexivity|]. split; [|repeat split].
    intros j Hj. simpl. now rewrite list_lookup_insert_ne by congruence.
Qed.

Lemma getOperandMapping_Ok (NDEBUG : bool) (IM : InstructionMapping)
    (i : nat) (VM : ValueMapping) :
  getOperandMapping NDEBUG IM i = Ok VM <->
  OperandsMapping IM !! i = Some VM /\
  (NDEBUG = false -> (i < NumOperands IM)%nat).
Proof.
  unfold getOperandMapping. split.
  - intros H. apply bind_Ok_inv in H as (u & Ha & H).
    pose proof (proj1 (assert_Ok _ _ _ _) Ha) as Ha'.
    destruct (OperandsMapping IM !! i); [|discriminate]. injection H as <-.
    split; [reflexivity|]. intros Hd. apply Nat.ltb_lt, Ha', Hd.
  - intros [Hl Ha]. rewrite assert_when, Hl; [reflexivity|].
    intros Hd. apply Nat.ltb_lt, Ha, Hd.
Qed.

Lemma getOperand_Ok (NDEBUG : bool) (MI : MachineInstr) (i : nat)
    (MO : MachineOperand) :
  getOperand NDEBUG MI i = Ok MO <-> Operands MI !! i = Some MO.
Proof.
  unfold getOperand. destruct (Operands MI !! i) as [MO0|].
  - split; congruence.
  - split; [|discriminate]. intros H.
    apply bind_Ok_inv in H as (? & _ & H). discriminate.
Qed.

Section VerifyInstruction.

Variable TRI : TargetRegisterInfo.
Variable MRI : MachineRegisterInfo.

Lemma InstructionMapping_verify_step (MO : MachineOperand)
    (VM : ValueMapping) :
  match MO with
  | MO_Other =>
      assert false (is_empty (BreakDown VM))
        "We should not care about non-reg mapping"
  | MO_Register Reg =>
      if Reg =? 0 then Ok tt
      else
        RegSize <- getSizeInBits false TRI MRI Reg ;;
        ValueMapping_verify false VM RegSize
  end = Ok tt <-> slot_accepted TRI MRI MO VM.
Proof.
  unfold slot_accepted. destruct MO as [Reg|].
  - destruct (Z.eqb_spec Reg 0) as [->|Hne].
    + split; [intros _ Hne; contradiction | reflexivity].
    + split.
      * intros H _. apply bind_Ok_inv in H as (w & Hs & H). eauto.
      * intros H. destruct (H Hne) as (w & Hs & Hv). now rewrite Hs.
  - rewrite assert_debug_Ok. now destruct (BreakDown VM).
Qed.

Lemma InstructionMapping_verify_loop_Ok (IM : InstructionMapping)
    (MI : MachineInstr) (n : nat) :
  forall Idx, (Idx + n = getNumOperands MI)%nat ->
  InstructionMapping_verify_loop false TRI MRI IM MI n Idx = Ok tt <->
  forall i MO, (Idx <= i)%nat -> Operands MI !! i = Some MO ->
    (i < NumOperands IM)%nat /\
    exists VM, OperandsMapping IM !! i = Some VM /\
      slot_accepted TRI MRI MO VM.
Proof.
  induction n as [|n IH]; intros Idx Hlen; unfold getNumOperands in Hlen.
  - simpl. split; [|reflexivity]. intros _ i MO Hi Hl.
    apply lookup_lt_Some in Hl. lia.
  - assert (Hlt : (Idx < length (Operands MI))%nat) by lia.
    destruct (lookup_lt_is_Some_2 _ _ Hlt) as [MO0 HMO0].
    assert (Hn : (S Idx + n = getNumOperands MI)%nat)
      by (unfold getNumOperands; lia).
    cbn [InstructionMapping_verify_loop].
    rewrite (proj2 (getOperand_Ok false MI Idx MO0) HMO0).
    change (bind (Ok MO0) ?k) with (k MO0). cbv beta. split.
    + intros H. apply bind_Ok_inv in H as (VM & Hg & H).
      apply getOperandMapping_Ok in Hg as [Hl0 Hlt0].
      apply bind_Ok_inv in H as ([] & Hstep & H).
      apply InstructionMapping_verify_step in Hstep.
      pose proof (proj1 (IH (S Idx) Hn) H) as H'.
      intros i MO Hi Hl. destruct (decide (i = Idx)) as [->|Hne].
      * rewrite HMO0 in Hl. injection Hl as <-. split; [now apply Hlt0|].
        now exists VM.
      * apply H'; [lia | assumption].
    + intros H.
      destruct (H Idx MO0 (Nat.le_refl _) HMO0) as (Hlt0 & VM & Hl0 & Hacc).
      rewrite (proj2 (getOperandMapping_Ok false IM Idx VM))
        by (split; [assumption | now intros _]).
      simpl bind.
      rewrite (proj2 (InstructionMapping_verify_step MO0 VM) Hacc).
      simpl bind. apply (proj2 (IH (S Idx) Hn)).
      intros i MO Hi Hl. apply H; [lia | assumption].
Qed.

(** What InstructionMapping::verify accepts, one way and the other. *)
Lemma InstructionMapping_verify_sound (IM : InstructionMapping)
    (MI : MachineInstr) :
  InstructionMapping_verify false TRI MRI IM MI = Ok tt ->
  NumOperands IM = getNumOperands MI /\
  forall i MO, Operands MI !! i = Some MO ->
    exists VM, OperandsMapping IM !! i = Some VM /\
      slot_accepted TRI MRI MO VM.
Proof.
  unfold InstructionMapping_verify. intros H.
  apply bind_Ok_inv in H as (u & Ha & H).
  apply assert_debug_Ok, Nat.eqb_eq in Ha. split; [assumption|].
  rewrite Ha in H.
  pose proof (proj1 (InstructionMapping_verify_loop_Ok IM MI _ 0 eq_refl) H)
    as H'.
  intros i MO Hl. apply (H' i MO); [lia | assumption].
Qed.

Lemma InstructionMapping_verify_complete (IM : InstructionMapping)
    (MI : MachineInstr) :
  NumOperands IM = getNumOperands MI ->
  (forall i MO, Operands MI !! i = Some MO ->
     exists VM, OperandsMapping IM !! i = Some VM /\
       slot_accepted TRI MRI MO VM) ->
  InstructionMapping_verify false TRI MRI IM MI = Ok tt.
Proof.
  unfold InstructionMapping_verify. intros Hn H.
  rewrite Hn, Nat.eqb_refl, assert_true. simpl bind.
  apply (proj2 (InstructionMapping_verify_loop_Ok IM MI _ 0 eq_refl)).
  intros i MO _ Hl. split; [|now apply H].
  rewrite Hn. unfold getNumOperands. now apply lookup_lt_Some in Hl.
Qed.


(** Where assertions are on, the mappings getInstrPossibleMappings checks
    are each accepted by InstructionMapping::verify. *)
Lemma verify_mappings_Ok (l : InstructionMappings) (MI : MachineInstr) :
  verify_mappings false TRI MRI l MI = Ok tt ->
  Forall (fun m => InstructionMapping_verify false TRI MRI m MI = Ok tt) l.
Proof.
  induction l as [|m l IH]; intros H; [constructor|]. simpl in H.
  apply bind_Ok_inv in H as ([] & Hm & H). constructor; auto.
Qed.

(** X22: with assertions on, every mapping getInstrPossibleMappings returns,
    the default one and the alternative ones of the target, has been
    accepted by InstructionMapping::verify for the instruction; so each has
    as many operands as the instruction. *)
Theorem getInstrPossibleMappings_verified (T : RegisterBankInfoTarget)
    (MI : MachineInstr) (l : InstructionMappings) :
  getInstrPossibleMappings false TRI MRI T MI = Ok l ->
  Forall (fun m => InstructionMapping_verify false TRI MRI m MI = Ok tt /\
                   NumOperands m = getNumOperands MI) l.
Proof.
  unfold getInstrPossibleMappings. intros H.
  apply bind_Ok_inv in H as (Default & _ & H).
  apply bind_Ok_inv in H as (Alts & _ & H).
  apply bind_Ok_inv in H as ([] & Hv & H). injection H as <-.
  apply verify_mappings_Ok in Hv.
  eapply Forall_impl; [exact Hv|]. intros m Hm. split; [assumption|].
  now apply InstructionMapping_verify_sound in Hm as [Hn _].
Qed.

End VerifyInstruction.

(** ** What getInstrMappingImpl returns *)

Lemma setOperandMapping_Ok (NDEBUG : bool) (IM IM' : InstructionMapping)
    (i : nat) (MaskSize : Z) (RB : RegisterBank) :
  setOperandMapping NDEBUG IM i MaskSize RB = Ok IM' ->
  (NDEBUG = false -> MaskSize <= Size RB) /\
  exists VM, OperandsMapping IM !! i = Some VM /\
    IM' = {| IM_ID := IM_ID IM; Cost := Cost IM;
             NumOperands := NumOperands IM;
             OperandsMapping :=
               <[i := {| BreakDown :=
                           BreakDown VM
                           ++ BreakDown (single_mapping RB MaskSize) |}]>
                 (OperandsMapping IM) |}.
Proof.
  unfold setOperandMapping, RegisterBank_getSize. intros H.
  apply bind_Ok_inv in H as (u & Ha & H).
  pose proof (proj1 (assert_Ok _ _ _ _) Ha) as Ha'.
  apply bind_Ok_inv in H as (VM & Hg & H).
  apply getOperandMapping_Ok in Hg as [Hl _]. injection H as <-.
  split; [intros Hd; apply Z.leb_le, Ha', Hd|].
  exists VM. split; [assumption|]. now rewrite full_mask.
Qed.

Lemma slot_ok_propagate (RB : RegisterBank) (RegSize : Z)
    (l : list ValueMapping) :
  Forall slot_ok l -> Forall slot_ok (map (propagate_slot RB RegSize) l).
Proof.
  intros H. apply Forall_map. eapply Forall_impl; [exact H|].
  intros VM Hok. unfold propagate_slot.
  destruct (is_empty (BreakDown VM)); [right; eauto | assumption].
Qed.

Lemma propagate_slot_nonempty (RB : RegisterBank) (RegSize : Z)
    (VM : ValueMapping) :
  BreakDown (propagate_slot RB RegSize VM) <> [].
Proof.
  unfold propagate_slot. destruct (BreakDown VM) eqn:E; simpl;
    [discriminate | now rewrite E].
Qed.

Section InferenceShape.

Variable NDEBUG : bool.
Variable TRI : TargetRegisterInfo.
Variable MRI : MachineRegisterInfo.
Variable getRegClassConstraint :
  MachineInstr -> nat -> option TargetRegisterClass.
Variable getRegBankFromRegClass : TargetRegisterClass -> RegisterBank.

Local Abbreviation operand_step' :=
  (operand_step NDEBUG TRI MRI getRegClassConstraint getRegBankFromRegClass).
Local Abbreviation operands_loop' :=
  (operands_loop NDEBUG TRI MRI getRegClassConstraint getRegBankFromRegClass).
Local Abbreviation classified' :=
  (classified NDEBUG TRI MRI getRegClassConstraint getRegBankFromRegClass).
Local Abbreviation after_first_loop' :=
  (after_first_loop NDEBUG TRI MRI getRegClassConstraint
     getRegBankFromRegClass).
Local Abbreviation getInstrMappingImpl' :=
  (getInstrMappingImpl NDEBUG TRI MRI getRegClassConstraint
     getRegBankFromRegClass).
Local Abbreviation getInstrMapping_base' :=
  (getInstrMapping_base NDEBUG TRI MRI getRegClassConstraint
     getRegBankFromRegClass).
Local Abbreviation base :=
  (RegisterBankInfo_base NDEBUG TRI MRI getRegClassConstraint
     getRegBankFromRegClass).
Local Abbreviation empty_slot := {| BreakDown := [] |}.

(** The ways the body of the first loop is left. *)
Lemma operand_step_cases (MI : MachineInstr) (k : nat) (MO : MachineOperand)
    (s : InferState) (c : control InferState InstructionMapping) :
  operand_step' MI k MO s = Ok c ->
  c = Continue s \/
  (isCopy MI || isPHI MI = false /\ c = Return InstructionMapping_invalid) \/
  (isCopy MI || isPHI MI = true /\
   exists s', s' = mkInferState (st_Mapping s) false (st_RegBank s)
                     (st_RegSize s) /\
     (c = Continue s' \/ c = Break s')) \/
  (exists RB RegSize M,
     setOperandMapping NDEBUG (st_Mapping s) k RegSize RB = Ok M /\
     c = Continue (mkInferState M (st_CompleteMapping s) (Some RB) RegSize)).
Proof.
  unfold operand_step. intros H. destruct MO as [Reg|];
    [|injection H as <-; now left].
  destruct (Reg =? 0); [injection H as <-; now left|].
  apply bind_Ok_inv in H as ([RB|] & _ & H).
  - apply bind_Ok_inv in H as (w & _ & H).
    apply bind_Ok_inv in H as (M & Hset & H). injection H as <-.
    right. right. right. eauto.
  - destruct (isCopy MI || isPHI MI); simpl negb in H; cbv iota in H.
    + right. right. left. split; [reflexivity|]. eexists. split; [reflexivity|].
      simpl in H. destruct (non_null (st_RegBank s)); injection H as <-; auto.
    + injection H as <-. right. left. auto.
Qed.

Lemma scan_inv_next (MI : MachineInstr) (n k : nat) (s : InferState) :
  (k < n)%nat -> scan_inv NDEBUG MI n k s -> scan_inv NDEBUG MI n (S k) s.
Proof.
  intros Hk (Hid & Hc & Hn & (done & Hom & Hlen & Hok) & Hfit & Hcopy).
  repeat split; try assumption. exists (done ++ [empty_slot]).
  rewrite Hom, length_app, <- app_assoc. simpl.
  replace (n - k)%nat with (S (n - S k)) by lia.
  repeat split; [lia|]. apply Forall_app. split; [assumption|].
  constructor; [now left | constructor].
Qed.

Lemma scan_inv_shape (MI : MachineInstr) (n k : nat) (s : InferState) :
  (k <= n)%nat -> scan_inv NDEBUG MI n k s -> mapping_shape n (st_Mapping s).
Proof.
  intros Hk (Hid & Hc & Hn & (done & Hom & Hlen & Hok) & _).
  repeat split; try assumption; rewrite Hom.
  - rewrite length_app, length_replicate. lia.
  - apply Forall_app. split; [assumption|].
    apply Forall_replicate. now left.
Qed.

(** The first loop keeps the invariant, and gives no mapping but the invalid
    one when it returns from the function. *)
Lemma operands_loop_inv (MI : MachineInstr) (n : nat) :
  forall ops k s r,
  (k + length ops = n)%nat -> scan_inv NDEBUG MI n k s ->
  operands_loop' MI k ops s = Ok r ->
  match r with
  | inl s' => exists k', (k' <= n)%nat /\ scan_inv NDEBUG MI n k' s'
  | inr m => m = InstructionMapping_invalid
  end.
Proof.
  induction ops as [|MO ops IH]; intros k s r Hlen Hinv H.
  - injection H as <-. exists k. split; [simpl in Hlen; lia | assumption].
  - simpl length in Hlen. simpl in H.
    apply bind_Ok_inv in H as (c & Hstep & H).
    apply operand_step_cases in Hstep
      as [-> | [[_ ->] | [[Hcopy (s' & Es & [-> | ->])]
                         | (RB & w & M & Hset & ->)]]].
    + apply (IH (S k) s r); [lia | | assumption].
      apply scan_inv_next; [lia | assumption].
    + now injection H as <-.
    + assert (Hinv' : scan_inv NDEBUG MI n k s').
      { destruct Hinv as (Hid & Hc & Hn & Hdone & Hfit & _). subst s'.
        repeat split; try assumption. intros _. exact Hcopy. }
      apply (IH (S k) s' r); [lia | | assumption].
      apply scan_inv_next; [lia | assumption].
    + injection H as <-. exists k. split; [lia|].
      destruct Hinv as (Hid & Hc & Hn & Hdone & Hfit & _). subst s'.
      repeat split; try assumption. intros _. exact Hcopy.
    + apply (IH (S k) _ r) in H; [assumption | lia |].
      destruct Hinv as (Hid & Hc & Hn & (done & Hom & Hdl & Hok) & _ & Hcopy).
      apply setOperandMapping_Ok in Hset as (Hfit & VM & Hl & ->).
      replace (n - k)%nat with (S (n - S k)) in Hom by lia.
      simpl replicate in Hom. rewrite Hom in Hl. subst k.
      rewrite list_lookup_middle in Hl by reflexivity.
      injection Hl as <-. simpl app.
      repeat split; try assumption.
      * exists (done ++ [single_mapping RB w]). simpl. rewrite Hom.
        rewrite insert_middle, <- app_assoc.
        repeat split; [rewrite length_app; simpl; lia|].
        apply Forall_app. split; [assumption|].
        constructor; [right; eauto | constructor].
      * simpl. intros RB' E. injection E as <-. exact Hfit.
Qed.

Lemma getInstrMappingImpl_unfold (MI : MachineInstr) :
  getInstrMappingImpl' MI
  = (r <- after_first_loop' MI ;;
     match r with
     | inr early => Ok early
     | inl s =>
         if st_CompleteMapping s then Ok (st_Mapping s)
         else
           assert NDEBUG (isCopy MI || isPHI MI)
             "We should have bailed on non-copies at this point" ;;;
           match st_RegBank s with
           | None => Ok InstructionMapping_invalid
           | Some RegBank =>
               propagate_loop NDEBUG (getNumOperands MI) 0 (st_RegSize s)
                 RegBank (st_Mapping s)
           end
     end).
Proof.
  unfold getInstrMappingImpl, after_first_loop.
  now destruct (InstructionMapping_make NDEBUG DefaultMappingID 1
                  (getNumOperands MI)).
Qed.

(** What the first loop leaves when it is left without a [return]. *)
Lemma after_first_loop_inv (MI : MachineInstr)
    (r : InferState + InstructionMapping) :
  after_first_loop' MI = Ok r ->
  match r with
  | inl s => exists k, (k <= getNumOperands MI)%nat /\
               scan_inv NDEBUG MI (getNumOperands MI) k s
  | inr m => m = InstructionMapping_invalid
  end.
Proof.
  unfold after_first_loop. rewrite InstructionMapping_make_default.
  simpl bind. apply operands_loop_inv; [reflexivity|].
  repeat split; try discriminate. exists []. rewrite Nat.sub_0_r.
  repeat split. constructor.
Qed.

(** getInstrMappingImpl from what its first loop leaves: the mapping as it
    is when it is complete, the invalid mapping when no bank was found, and
    else the mapping with the bank and the width remembered in every slot
    that was empty. *)
Lemma getInstrMappingImpl_after (MI : MachineInstr) (s : InferState) :
  after_first_loop' MI = Ok (inl s) ->
  getInstrMappingImpl' MI
  = Ok (if st_CompleteMapping s then st_Mapping s
        else match st_RegBank s with
             | None => InstructionMapping_invalid
             | Some RB =>
                 {| IM_ID := DefaultMappingID; Cost := 1;
                    NumOperands := getNumOperands MI;
                    OperandsMapping :=
                      map (propagate_slot RB (st_RegSize s))
                        (OperandsMapping (st_Mapping s)) |}
             end).
Proof.
  intros H. rewrite getInstrMappingImpl_unfold, H. simpl bind.
  destruct (after_first_loop_inv MI _ H) as (k & Hk & Hinv).
  pose proof (scan_inv_shape MI _ k s Hk Hinv) as (Hid & Hc & Hn & Hlen & _).
  destruct Hinv as (_ & _ & _ & _ & Hfit & Hcopy).
  destruct (st_CompleteMapping s); [reflexivity|].
  rewrite Hcopy, assert_true by reflexivity. simpl bind.
  destruct (st_RegBank s) as [RB|]; [|reflexivity].
  pose proof (propagate_loop_spec NDEBUG RB (st_RegSize s) (Hfit RB eq_refl)
                (OperandsMapping (st_Mapping s)) [] (st_Mapping s) eq_refl)
    as Hp.
  simpl in Hp. rewrite Hlen in Hp. rewrite Hp by assumption.
  now rewrite Hid, Hc, Hn.
Qed.

(** A mapping getInstrMappingImpl returns is the invalid one or a default
    mapping for the instruction. *)
Lemma getInstrMappingImpl_Ok_shape (MI : MachineInstr)
    (m : InstructionMapping) :
  getInstrMappingImpl' MI = Ok m ->
  m = InstructionMapping_invalid \/ mapping_shape (getNumOperands MI) m.
Proof.
  intros H. destruct (after_first_loop' MI) as [[s|m']|f] eqn:E.
  - rewrite (getInstrMappingImpl_after MI s E) in H. injection H as <-.
    destruct (after_first_loop_inv MI _ E) as (k & Hk & Hinv).
    pose proof (scan_inv_shape MI _ k s Hk Hinv) as Hshape.
    destruct (st_CompleteMapping s); [now right|].
    destruct (st_RegBank s) as [RB|]; [right | now left].
    destruct Hshape as (_ & _ & _ & Hlen & Hok).
    repeat split; simpl; [now rewrite length_map|].
    now apply slot_ok_propagate.
  - rewrite getInstrMappingImpl_unfold, E in H. simpl in H. injection H as <-.
    left. exact (after_first_loop_inv MI _ E).
  - rewrite getInstrMappingImpl_unfold, E in H. discriminate.
Qed.

(** X17: getInstrMappingImpl returns nothing but the invalid mapping or a
    default mapping for the instruction: the default identifier, cost 1, as
    many operands as the instruction and a slot for each, which is empty or
    holds one partial mapping, of all the bits of a value, in a bank; no
    value is split between banks. *)
Theorem getInstrMappingImpl_shape (MI : MachineInstr)
    (m : InstructionMapping) :
  getInstrMappingImpl' MI = Ok m ->
  m = InstructionMapping_invalid \/
  (IM_ID m = DefaultMappingID /\ Cost m = 1 /\
   NumOperands m = getNumOperands MI /\
   length (OperandsMapping m) = getNumOperands MI /\
   Forall (fun VM => BreakDown VM = [] \/
             exists RB MaskSize, VM = single_mapping RB MaskSize)
     (OperandsMapping m)).
Proof. apply getInstrMappingImpl_Ok_shape. Qed.

(** The first loop stops neither on the assertion of getRegBank on
    NoRegister nor on the assertion of line 288. *)
Lemma operands_loop_failures (MI : MachineInstr) (f : failure) :
  forall ops k s, operands_loop' MI k ops s = Fail f ->
  f <> AssertionFailed "NoRegister does not have a register bank" /\
  f <> AssertionFailed "We should have bailed on non-copies at this point".
Proof.
  induction ops as [|MO ops IH]; intros k s E; [discriminate|].
  simpl in E. destruct (operand_step' MI k MO s) as [c|f'] eqn:Es.
  - simpl in E. destruct c as [s'|s'|m]; try discriminate. eauto.
  - simpl in E. injection E as ->. unfold operand_step in Es.
    destruct MO as [Reg|]; [|discriminate].
    destruct (Reg =? 0) eqn:Hreg; [discriminate|].
    unfold operand_bank, getRegBank, getSizeInBits, sizeInBits_of_class,
      MRI_getRegClass, setOperandMapping, getOperandMapping, assert in Es.
    rewrite Hreg in Es. simpl negb in Es. rewrite orb_true_r in Es.
    split; intros ->;
      repeat match type of Es with
             | context [match ?x with _ => _ end] => destruct x; simpl in Es
             end; discriminate.
Qed.

(** X23: two assertions getInstrMappingImpl can reach never fail, and its
    second loop never stops.  getRegBank is not called on NoRegister, so
    that its assertion of line 218 holds; the first loop ends with an
    incomplete mapping on a copy-like instruction only, so that the
    assertion of line 288 holds; and the bank propagated has held the width
    propagated, so that what stops getInstrMappingImpl has stopped its
    first loop. *)
Theorem getInstrMappingImpl_failures (MI : MachineInstr) (f : failure) :
  getInstrMappingImpl' MI = Fail f ->
  after_first_loop' MI = Fail f /\
  f <> AssertionFailed "NoRegister does not have a register bank" /\
  f <> AssertionFailed "We should have bailed on non-copies at this point".
Proof.
  intros H. destruct (after_first_loop' MI) as [[s|m']|f'] eqn:E.
  - rewrite (getInstrMappingImpl_after MI s E) in H. discriminate.
  - rewrite getInstrMappingImpl_unfold, E in H. discriminate.
  - rewrite getInstrMappingImpl_unfold, E in H. injection H as ->.
    split; [reflexivity|]. revert E. unfold after_first_loop.
    rewrite InstructionMapping_make_default. simpl bind.
    apply operands_loop_failures.
Qed.

End InferenceShape.

(** ** The mapping of an instruction and its verification *)

Section InferenceOutcomes.

Variable NDEBUG : bool.
Variable TRI : TargetRegisterInfo.
Variable MRI : MachineRegisterInfo.
Variable getRegClassConstraint :
  MachineInstr -> nat -> option TargetRegisterClass.
Variable getRegBankFromRegClass : TargetRegisterClass -> RegisterBank.

Local Abbreviation classifies' :=
  (classifies NDEBUG TRI MRI getRegClassConstraint getRegBankFromRegClass).
Local Abbreviation classified' :=
  (classified NDEBUG TRI MRI getRegClassConstraint getRegBankFromRegClass).
Local Abbreviation after_first_loop' :=
  (after_first_loop NDEBUG TRI MRI getRegClassConstraint
     getRegBankFromRegClass).
Local Abbreviation getInstrMappingImpl' :=
  (getInstrMappingImpl NDEBUG TRI MRI getRegClassConstraint
     getRegBankFromRegClass).
Local Abbreviation getInstrMapping_base' :=
  (getInstrMapping_base NDEBUG TRI MRI getRegClassConstraint
     getRegBankFromRegClass).
Local Abbreviation base :=
  (RegisterBankInfo_base NDEBUG TRI MRI getRegClassConstraint
     getRegBankFromRegClass).
Local Abbreviation empty_slot := {| BreakDown := [] |}.

Lemma classified_lookup (MI : MachineInstr) (cs : list operand_class) :
  forall k ops i MO,
  classified' MI k ops cs -> ops !! i = Some MO ->
  exists c, cs !! i = Some c /\ classifies' MI (k + i) MO c.
Proof.
  induction cs as [|c cs IH]; intros k [|MO0 ops] i MO H Hl; simpl in H;
    try tauto; [discriminate|].
  destruct H as [Hc H]. destruct i as [|i].
  - injection Hl as <-. exists c. now rewrite Nat.add_0_r.
  - destruct (IH (S k) ops i MO H Hl) as (c' & Hc' & Hcl).
    exists c'. split; [assumption|].
    now replace (k + S i)%nat with (S k + i)%nat by lia.
Qed.

(** getInstrMappingImpl on an instruction each operand of which is skipped
    or yields a bank. *)
Lemma getInstrMappingImpl_resolved (MI : MachineInstr)
    (cs : list operand_class) :
  classified' MI 0 (Operands MI) cs ->
  Forall (fun c => is_Unresolved c = false) cs ->
  getInstrMappingImpl' MI
  = Ok {| IM_ID := DefaultMappingID; Cost := 1;
          NumOperands := getNumOperands MI;
          OperandsMapping := map scan_slot cs |}.
Proof.
  intros Hc HF. unfold getInstrMappingImpl, getNumOperands.
  rewrite InstructionMapping_make_default. simpl bind.
  pose proof (operands_loop_resolved NDEBUG TRI MRI getRegClassConstraint
                getRegBankFromRegClass MI cs 0 (Operands MI)
                (mkInferState
                   (mkInstructionMapping DefaultMappingID 1
                      (length (Operands MI))
                      (replicate (length (Operands MI)) empty_slot))
                   true None 0) [] 0 [] Hc HF eq_refl) as E.
  rewrite app_nil_r in E. rewrite E.
  - simpl. now rewrite app_nil_r.
  - simpl. now rewrite Nat.add_0_r.
  - simpl. now rewrite Nat.add_0_r.
Qed.

(** X16: on an instruction, copy-like or not, each register operand of which
    has a bank, of its own or from the register-class constraint,
    getInstrMappingImpl returns the default mapping, of cost 1, in which a
    register operand has one partial mapping, of all the bits of its
    register, in the bank of that operand, and an operand that is not a
    register, or is NoRegister, has an empty decomposition. *)
Theorem getInstrMappingImpl_complete (MI : MachineInstr)
    (cs : list operand_class) :
  classified' MI 0 (Operands MI) cs ->
  Forall (fun c => is_Unresolved c = false) cs ->
  exists m, getInstrMappingImpl' MI = Ok m /\
    IM_ID m = DefaultMappingID /\ Cost m = 1 /\
    NumOperands m = getNumOperands MI /\
    InstructionMapping_isValid m = true /\
    forall i c, cs !! i = Some c ->
      OperandsMapping m !! i
      = Some match c with
             | Yields RB RegSize => single_mapping RB RegSize
             | _ => {| BreakDown := [] |}
             end.
Proof.
  intros Hc HF. eexists.
  split; [exact (getInstrMappingImpl_resolved MI cs Hc HF)|].
  repeat split. intros i c Hi. simpl.
  rewrite list_lookup_fmap, Hi. now destruct c.
Qed.

(** The loop of InstructionMapping::verify on the mapping of an instruction
    each operand of which is skipped or yields a bank. *)
Lemma verify_loop_resolved (MI : MachineInstr) (cs : list operand_class)
    (M : InstructionMapping) :
  classified' MI 0 (Operands MI) cs ->
  Forall (fun c => is_Unresolved c = false) cs -> Forall width_ok cs ->
  OperandsMapping M = map scan_slot cs -> NumOperands M = length cs ->
  forall n Idx, (Idx + n = length cs)%nat ->
  InstructionMapping_verify_loop NDEBUG TRI MRI M MI n Idx = Ok tt.
Proof.
  intros Hc HU HW HM HN. pose proof (classified_length _ _ _ _ _ _ _ _ _ Hc)
    as Hlen.
  induction n as [|n IH]; intros Idx Hn; [reflexivity|].
  assert (Hlt : (Idx < length (Operands MI))%nat) by lia.
  destruct (lookup_lt_is_Some_2 _ _ Hlt) as [MO HMO].
  destruct (classified_lookup MI cs 0 _ Idx MO Hc HMO) as (c & Hci & Hcl).
  simpl in Hcl. cbn [InstructionMapping_verify_loop].
  unfold getOperand. rewrite HMO. simpl bind.
  rewrite (getOperandMapping_lookup NDEBUG M Idx (scan_slot c))
    by (lia || (rewrite HM, list_lookup_fmap, Hci; reflexivity)).
  simpl bind.
  assert (Hstep :
    match MO with
    | MO_Other =>
        assert NDEBUG (is_empty (BreakDown (scan_slot c)))
          "We should not care about non-reg mapping"
    | MO_Register Reg =>
        if Reg =? 0 then Ok tt
        else
          RegSize <- getSizeInBits NDEBUG TRI MRI Reg ;;
          ValueMapping_verify NDEBUG (scan_slot c) RegSize
    end = Ok tt).
  { rewrite Forall_forall in HU, HW.
    pose proof (HU c (list_elem_of_lookup_2 _ _ _ Hci)) as Hu.
    pose proof (HW c (list_elem_of_lookup_2 _ _ _ Hci)) as Hw.
    destruct c as [| |RB w]; [| discriminate |].
    - destruct Hcl as [-> | ->]; [apply assert_true | reflexivity].
    - destruct Hcl as (Reg & -> & Hne & _ & Hs & Hfit).
      apply Z.eqb_neq in Hne. rewrite Hne, Hs. simpl bind.
      now apply single_mapping_verifies. }
  rewrite Hstep. simpl bind. apply IH. lia.
Qed.

(** X20: the mapping getInstrMappingImpl gives an instruction is accepted by
    InstructionMapping::verify when every register operand has a bank.  On
    an instruction each register operand of which has a bank, of its own or
    from the register-class constraint, and a size in bits that is an
    [unsigned] other than zero, the mapping getInstrMappingImpl returns is
    accepted by InstructionMapping::verify; when the opcode is not a
    generic one, getInstrPossibleMappings of the base class returns that
    mapping and no other, also where assertions are on. *)
Theorem complete_mapping_verifies (MI : MachineInstr)
    (cs : list operand_class) :
  classified' MI 0 (Operands MI) cs ->
  Forall (fun c => is_Unresolved c = false) cs -> Forall width_ok cs ->
  exists m, getInstrMappingImpl' MI = Ok m /\
    InstructionMapping_verify NDEBUG TRI MRI m MI = Ok tt /\
    (isPreISelGenericOpcode (getOpcode MI) = false ->
     getInstrPossibleMappings NDEBUG TRI MRI base MI = Ok [m]).
Proof.
  intros Hc HU HW. pose proof (classified_length _ _ _ _ _ _ _ _ _ Hc) as Hlen.
  pose proof (getInstrMappingImpl_resolved MI cs Hc HU) as Hm.
  eexists. split; [exact Hm|].
  assert (Hv : InstructionMapping_verify NDEBUG TRI MRI
                 {| IM_ID := DefaultMappingID; Cost := 1;
                    NumOperands := getNumOperands MI;
                    OperandsMapping := map scan_slot cs |} MI = Ok tt).
  { unfold InstructionMapping_verify. simpl NumOperands.
    rewrite Nat.eqb_refl, assert_true. simpl bind.
    apply (verify_loop_resolved MI cs); try assumption; reflexivity. }
  split; [exact Hv|]. intros Hgen.
  unfold getInstrPossibleMappings. simpl getInstrMapping.
  unfold getInstrMapping_base. rewrite Hgen. simpl negb. cbv iota.
  rewrite Hm. simpl bind. simpl verify_mappings. rewrite Hv.
  now destruct NDEBUG.
Qed.

(** X18: a copy or a phi none of whose registers has a bank cannot be
    mapped by the base class.  On a copy-like instruction no operand of
    which yields a bank, and one operand of which is a register without a
    bank, getInstrMappingImpl returns the invalid mapping, and
    getInstrMapping of the base class reaches its llvm_unreachable. *)
Theorem getInstrMapping_copy_no_bank (MI : MachineInstr)
    (cs : list operand_class) :
  isCopy MI || isPHI MI = true ->
  classified' MI 0 (Operands MI) cs ->
  Forall (fun c => is_Yields c = false) cs ->
  existsb is_Unresolved cs = true ->
  getInstrMappingImpl' MI = Ok InstructionMapping_invalid /\
  getInstrMapping_base' MI
  = Fail (Unreachable "The target must implement this").
Proof.
  intros Hcopy Hc HY HU.
  assert (Hm : getInstrMappingImpl' MI = Ok InstructionMapping_invalid).
  { unfold getInstrMappingImpl.
    rewrite InstructionMapping_make_default. simpl bind.
    pose proof (operands_loop_no_bank NDEBUG TRI MRI getRegClassConstraint
                  getRegBankFromRegClass MI cs Hcopy 0 (Operands MI)
                  (mkInferState
                     (mkInstructionMapping DefaultMappingID 1
                        (getNumOperands MI)
                        (replicate (getNumOperands MI) empty_slot))
                     true None 0) [] Hc HY eq_refl) as E.
    rewrite app_nil_r in E. rewrite E. simpl. rewrite HU. simpl.
    now rewrite Hcopy, assert_true. }
  split; [exact Hm|]. unfold getInstrMapping_base.
  assert (Hgen : isPreISelGenericOpcode (getOpcode MI) = false).
  { unfold isCopy, isPHI in Hcopy. now destruct (getOpcode MI). }
  rewrite Hgen. simpl negb. cbv iota. now rewrite Hm.
Qed.

(** X19: getInstrMapping of the base class never returns the invalid
    mapping.  For a generic opcode it reaches its llvm_unreachable without
    looking at the operands; and a mapping it returns is the one
    getInstrMappingImpl returns for an opcode that is not generic, a valid
    default mapping with as many operands as the instruction. *)
Theorem getInstrMapping_base_valid (MI : MachineInstr) :
  (isPreISelGenericOpcode (getOpcode MI) = true ->
   getInstrMapping_base' MI
   = Fail (Unreachable "The target must implement this")) /\
  (forall m, getInstrMapping_base' MI = Ok m ->
     isPreISelGenericOpcode (getOpcode MI) = false /\
     getInstrMappingImpl' MI = Ok m /\
     InstructionMapping_isValid m = true /\
     mapping_shape (getNumOperands MI) m).
Proof.
  unfold getInstrMapping_base. split.
  - intros ->. reflexivity.
  - intros m H. destruct (isPreISelGenericOpcode (getOpcode MI));
      [discriminate|]. simpl negb in H. cbv iota in H.
    apply bind_Ok_inv in H as ([m'|] & H1 & H); [|discriminate].
    injection H as ->. apply bind_Ok_inv in H1 as (m' & Hm & H1).
    destruct (InstructionMapping_isValid m') eqn:Hv; [|discriminate].
    injection H1 as ->. split; [reflexivity|]. split; [assumption|].
    split; [assumption|].
    apply getInstrMappingImpl_Ok_shape in Hm as [-> | Hs];
      [discriminate | exact Hs].
Qed.

(** X21: the mapping getInstrMappingImpl propagates gives a decomposition to
    every operand, also to an operand that is not a register.  When the
    first loop of getInstrMappingImpl ends with an incomplete mapping and a
    bank, the mapping returned is valid and has that bank, at the width
    remembered, in every slot the loop left empty, so that no slot is
    empty; where assertions are on and the instruction has an operand that
    is not a register, as a phi has, InstructionMapping::verify stops on
    that mapping, and so does getInstrPossibleMappings of the base
    class. *)
Theorem propagated_mapping_rejected (MI : MachineInstr) (s : InferState)
    (RB : RegisterBank) :
  after_first_loop' MI = Ok (inl s) ->
  st_CompleteMapping s = false -> st_RegBank s = Some RB ->
  exists m, getInstrMappingImpl' MI = Ok m /\
    InstructionMapping_isValid m = true /\
    OperandsMapping m
    = map (propagate_slot RB (st_RegSize s)) (OperandsMapping (st_Mapping s)) /\
    (forall i VM, OperandsMapping m !! i = Some VM -> BreakDown VM <> []) /\
    (NDEBUG = false -> (exists i, Operands MI !! i = Some MO_Other) ->
     (exists f, InstructionMapping_verify NDEBUG TRI MRI m MI = Fail f) /\
     (exists f, getInstrPossibleMappings NDEBUG TRI MRI base MI = Fail f)).
Proof.
  intros Hafter Hinc Hbank.
  pose proof (getInstrMappingImpl_after NDEBUG TRI MRI getRegClassConstraint
                getRegBankFromRegClass MI s Hafter) as Hm.
  rewrite Hinc, Hbank in Hm.
  eexists. split; [exact Hm|]. split; [reflexivity|].
  split; [reflexivity|]. simpl OperandsMapping.
  assert (Hfull : forall i VM,
            map (propagate_slot RB (st_RegSize s))
              (OperandsMapping (st_Mapping s)) !! i = Some VM ->
            BreakDown VM <> []).
  { intros i VM Hl. rewrite list_lookup_fmap in Hl.
    destruct (OperandsMapping (st_Mapping s) !! i); [|discriminate].
    injection Hl as <-. apply propagate_slot_nonempty. }
  split; [exact Hfull|]. intros Hd (i & HMO).
  set (m := {| IM_ID := DefaultMappingID; Cost := 1;
               NumOperands := getNumOperands MI;
               OperandsMapping :=
                 map (propagate_slot RB (st_RegSize s))
                   (OperandsMapping (st_Mapping s)) |}) in *.
  assert (Hv : exists f, InstructionMapping_verify NDEBUG TRI MRI m MI
                         = Fail f).
  { destruct (InstructionMapping_verify NDEBUG TRI MRI m MI) as [[]|f] eqn:Hv;
      [exfalso | now exists f].
    rewrite Hd in Hv. apply InstructionMapping_verify_sound in Hv as [_ Hv].
    destruct (Hv i MO_Other HMO) as (VM & Hl & Hempty).
    exact (Hfull i VM Hl Hempty). }
  split; [exact Hv|]. destruct Hv as [f Hv].
  destruct (after_first_loop_inv NDEBUG TRI MRI getRegClassConstraint
              getRegBankFromRegClass MI _ Hafter)
    as (k & _ & _ & _ & _ & _ & _ & Hcopy).
  specialize (Hcopy Hinc).
  assert (Hgen : isPreISelGenericOpcode (getOpcode MI) = false).
  { unfold isCopy, isPHI in Hcopy. now destruct (getOpcode MI). }
  exists f. unfold getInstrPossibleMappings. simpl getInstrMapping.
  unfold getInstrMapping_base. rewrite Hgen. simpl negb. cbv iota.
  rewrite Hm. simpl bind. rewrite Hd in *. simpl verify_mappings.
  now rewrite Hv.
Qed.

End InferenceOutcomes.

(** X24: the mapping propagated on a copy is accepted exactly when the two
    registers have the same size.  With assertions on, for a copy whose
    first operand is a register with no bank and no register-class
    constraint and whose second operand is a register in a bank that holds
    its size in bits, an [unsigned] other than zero, getInstrMappingImpl
    gives both operands that bank at the size of the second register, and
    InstructionMapping::verify accepts that mapping if and only if the
    first register has the size of the second. *)
Theorem copy_mapping_verifies_iff (TRI : TargetRegisterInfo)
    (MRI : MachineRegisterInfo)
    (getRegClassConstraint : MachineInstr -> nat -> option TargetRegisterClass)
    (getRegBankFromRegClass : TargetRegisterClass -> RegisterBank)
    (MI : MachineInstr) (RB : RegisterBank) (Reg0 Reg1 w0 w1 : Z) :
  getOpcode MI = COPY ->
  Operands MI = [MO_Register Reg0; MO_Register Reg1] ->
  Reg0 <> 0 -> Reg1 <> 0 ->
  getRegBank false TRI MRI getRegBankFromRegClass Reg0 = Ok None ->
  getRegClassConstraint MI 0%nat = None ->
  getRegBank false TRI MRI getRegBankFromRegClass Reg1 = Ok (Some RB) ->
  getSizeInBits false TRI MRI Reg0 = Ok w0 ->
  getSizeInBits false TRI MRI Reg1 = Ok w1 ->
  0 < w1 < 2 ^ 32 -> w1 <= Size RB ->
  getInstrMappingImpl false TRI MRI getRegClassConstraint
    getRegBankFromRegClass MI
  = Ok {| IM_ID := DefaultMappingID; Cost := 1; NumOperands := 2;
          OperandsMapping := [single_mapping RB w1; single_mapping RB w1] |} /\
  (InstructionMapping_verify false TRI MRI
     {| IM_ID := DefaultMappingID; Cost := 1; NumOperands := 2;
        OperandsMapping := [single_mapping RB w1; single_mapping RB w1] |} MI
   = Ok tt <-> w0 = w1).
Proof.
  intros Hopc Hops H0 H1 Hb0 Hc0 Hb1 Hs0 Hs1 Hw Hfit.
  assert (Hcopy : isCopy MI || isPHI MI = true)
    by (unfold isCopy; now rewrite Hopc).
  split.
  - rewrite (getInstrMappingImpl_propagates false TRI MRI
               getRegClassConstraint getRegBankFromRegClass MI
               [MO_Register Reg0; MO_Register Reg1] []
               [Unresolved] [] [] [] RB w1 Hcopy).
    + unfold getNumOperands. rewrite Hops. reflexivity.
    + now rewrite Hops.
    + simpl. repeat split.
      * exists Reg0. repeat split; try assumption.
        now apply operand_bank_None.
      * exists Reg1. split; [reflexivity|]. split; [assumption|].
        split; [now apply operand_bank_Some|]. split; [assumption|].
        now intros _.
    + repeat constructor.
    + constructor.
    + constructor.
    + right. repeat split.
  - split.
    + intros H. apply InstructionMapping_verify_sound in H as [_ H].
      rewrite Hops in H.
      destruct (H 0%nat (MO_Register Reg0) eq_refl) as (VM & Hl & Hacc).
      injection Hl as <-. destruct (Hacc H0) as (w & Hs & Hv).
      rewrite Hs0 in Hs. injection Hs as <-.
      apply ValueMapping_verify_sound in Hv as (_ & HF & _).
      inversion HF as [|? ? [Hwidth _] _]. symmetry. exact Hwidth.
    + intros ->. apply InstructionMapping_verify_complete.
      * unfold getNumOperands. now rewrite Hops.
      * rewrite Hops. intros [|[|i]] MO Hl; try discriminate;
          injection Hl as <-; eexists; (split; [reflexivity|]); intros _;
          exists w1; (split; [assumption|]);
          apply single_mapping_verifies; auto.
Qed.

(** ** The register-class constraint *)

Section Constraint.

Variable NDEBUG : bool.
Variable TRI : TargetRegisterInfo.
Variable MRI : MachineRegisterInfo.
Variable getRegBankFromRegClass : TargetRegisterClass -> RegisterBank.
(** Two answers to [MI.getRegClassConstraint]. *)
Variables constraint1 constraint2 :
  MachineInstr -> nat -> option TargetRegisterClass.

Local Abbreviation getRegBank' :=
  (getRegBank NDEBUG TRI MRI getRegBankFromRegClass).

Lemma operand_step_constraint (MI : MachineInstr) (k : nat)
    (MO : MachineOperand) (s : InferState) :
  (forall Reg, MO = MO_Register Reg -> Reg <> 0 ->
     getRegBank' Reg = Ok None -> constraint1 MI k = constraint2 MI k) ->
  operand_step NDEBUG TRI MRI constraint1 getRegBankFromRegClass MI k MO s
  = operand_step NDEBUG TRI MRI constraint2 getRegBankFromRegClass MI k MO s.
Proof.
  intros H. unfold operand_step, operand_bank.
  destruct MO as [Reg|]; [|reflexivity].
  destruct (Z.eqb_spec Reg 0) as [|Hne]; [reflexivity|].
  destruct (getRegBank' Reg) as [[RB|]|f] eqn:E; try reflexivity.
  simpl bind. now rewrite (H Reg eq_refl Hne E).
Qed.

Lemma operands_loop_constraint (MI : MachineInstr) :
  forall ops k s,
  (forall i Reg, ops !! i = Some (MO_Register Reg) -> Reg <> 0 ->
     getRegBank' Reg = Ok None ->
     constraint1 MI (k + i) = constraint2 MI (k + i)) ->
  operands_loop NDEBUG TRI MRI constraint1 getRegBankFromRegClass MI k ops s
  = operands_loop NDEBUG TRI MRI constraint2 getRegBankFromRegClass MI k ops s.
Proof.
  induction ops as [|MO ops IH]; intros k s H; [reflexivity|].
  rewrite !operands_loop_cons.
  rewrite (operand_step_constraint MI k MO s).
  - destruct (operand_step NDEBUG TRI MRI constraint2 getRegBankFromRegClass
                MI k MO s) as [[s'|s'|m]|f]; try reflexivity.
    simpl bind. apply IH. intros i Reg Hl Hne Hb.
    replace (S k + i)%nat with (k + S i)%nat by lia. now apply (H (S i) Reg).
  - intros Reg -> Hne Hb. rewrite <- (Nat.add_0_r k). now apply (H 0%nat Reg).
Qed.

(** X25: the register-class constraint of an operand counts only when the
    register of the operand has no bank of its own.  getInstrMappingImpl
    and getInstrMapping of the base class give the same for two answers to
    [getRegClassConstraint] that agree on every operand that is a register,
    other than NoRegister, for which getRegBank gives no bank. *)
Theorem constraint_only_without_bank (MI : MachineInstr) :
  (forall i Reg, Operands MI !! i = Some (MO_Register Reg) -> Reg <> 0 ->
     getRegBank' Reg = Ok None -> constraint1 MI i = constraint2 MI i) ->
  getInstrMappingImpl NDEBUG TRI MRI constraint1 getRegBankFromRegClass MI
  = getInstrMappingImpl NDEBUG TRI MRI constraint2 getRegBankFromRegClass MI
  /\
  getInstrMapping_base NDEBUG TRI MRI constraint1 getRegBankFromRegClass MI
  = getInstrMapping_base NDEBUG TRI MRI constraint2 getRegBankFromRegClass MI.
Proof.
  intros H.
  assert (E : getInstrMappingImpl NDEBUG TRI MRI constraint1
                getRegBankFromRegClass MI
              = getInstrMappingImpl NDEBUG TRI MRI constraint2
                  getRegBankFromRegClass MI).
  { unfold getInstrMappingImpl.
    destruct (InstructionMapping_make NDEBUG DefaultMappingID 1
                (getNumOperands MI)) as [M|f]; [|reflexivity].
    simpl bind. now rewrite (operands_loop_constraint MI (Operands MI) 0). }
  split; [exact E|]. unfold getInstrMapping_base. now rewrite E.
Qed.

End Constraint.

(** ** More on the examples *)

Lemma createRegisterBank_lookup_witness :
  length RegBanks_ex = length (RegisterBankInfo_new 1) /\
  (exists RB, RegisterBankInfo_new 1 !! 0%nat = Some RB /\
     (false = false -> ID RB = InvalidID) /\
     getRegBank_ID false RegBanks_ex 0
     = Ok {| ID := Z.of_nat 0; Name := Some "GPR"%string; Size := Size RB;
             ContainedRegClasses := ContainedRegClasses RB |}) /\
  (forall j, j <> 0%nat ->
     getRegBank_ID false RegBanks_ex j
     = getRegBank_ID false (RegisterBankInfo_new 1) j).
Proof.
  apply (createRegisterBank_lookup false (RegisterBankInfo_new 1) RegBanks_ex
           0 "GPR").
  reflexivity.
Defined.

Lemma createRegisterBank_once_witness :
  createRegisterBank false RegBanks_ex 0 "G"
  = Fail (AssertionFailed "A register bank should be created only once") /\
  exists RB, RegisterBankInfo_new 1 !! 0%nat = Some RB /\
    createRegisterBank true RegBanks_ex 0 "G"
    = Ok (<[0%nat := {| ID := Z.of_nat 0; Name := Some "G"%string;
                        Size := Size RB;
                        ContainedRegClasses := ContainedRegClasses RB |}]>
            (RegisterBankInfo_new 1)).
Proof.
  apply (createRegisterBank_once false (RegisterBankInfo_new 1) RegBanks_ex 0
           "GPR" "G").
  - unfold UINT_MAX. simpl. lia.
  - reflexivity.
Defined.

Lemma createRegisterBank_commute_witness :
  exists R2,
    createRegisterBank false (RegisterBankInfo_new 2) 1 "FPR" = Ok R2 /\
    createRegisterBank false R2 0 "GPR" = Ok RegBanks_two_ex.
Proof.
  apply (createRegisterBank_commute false (RegisterBankInfo_new 2)
           [ {| ID := 0; Name := Some "GPR"%string; Size := 0;
                ContainedRegClasses := [] |}; RegisterBank_default ]
           RegBanks_two_ex 0 1 "GPR" "FPR").
  - lia.
  - reflexivity.
  - reflexivity.
Defined.

Lemma addRegBankCoverage_frame_witness :
  length RegBanks1_ex = length RegBanks_ex /\
  (forall j, j <> 0%nat -> RegBanks1_ex !! j = RegBanks_ex !! j) /\
  exists RB RB', RegBanks_ex !! 0%nat = Some RB /\
    RegBanks1_ex !! 0%nat = Some RB' /\
    ID RB' = ID RB /\ Name RB' = Name RB.
Proof.
  apply (addRegBankCoverage_frame false TRI_cov 3 RegBanks_ex RegBanks1_ex
           0 0).
  vm_compute. reflexivity.
Defined.

Lemma addRegBankCoverage_in_range_witness :
  exists f,
    addRegBankCoverage false TRI_cov 3 RegBanks_ex 0 3 = Fail f /\
    (f = UndefinedBehaviour \/
     false = false /\
     (f = AssertionFailed "Accessing an unknown register bank" \/
      f = AssertionFailed "Register Class ID out of range")).
Proof.
  apply (addRegBankCoverage_in_range false TRI_cov 3 RegBanks_ex 0 3).
  right. vm_compute. lia.
Defined.

(** The stops of addRegBankCoverage out of range, on [TRI_cov]: with
    assertions, an unknown bank and an unknown seed class of a valid bank
    stop on the assertions of getRegBank and of getRegClass; a bank that is
    not valid yet, and a build without assertions, end in undefined
    behaviour. *)
Example addRegBankCoverage_out_of_range_ex :
  addRegBankCoverage false TRI_cov 3 RegBanks1_ex 1 0
  = Fail (AssertionFailed "Accessing an unknown register bank") /\
  addRegBankCoverage false TRI_cov 3 RegBanks1_ex 0 3
  = Fail (AssertionFailed "Register Class ID out of range") /\
  addRegBankCoverage false TRI_cov 3 RegBanks_ex 0 3
  = Fail UndefinedBehaviour /\
  addRegBankCoverage true TRI_cov 3 RegBanks1_ex 1 0
  = Fail UndefinedBehaviour /\
  addRegBankCoverage true TRI_cov 3 RegBanks1_ex 0 3
  = Fail UndefinedBehaviour.
Proof. vm_compute. repeat split; reflexivity. Qed.

Lemma built_RegBanks_ex : built false TRI_cov RegBanks_ex.
Proof.
  apply (built_create false TRI_cov (RegisterBankInfo_new 1) RegBanks_ex 0
           "GPR"%string); [apply built_new | reflexivity].
Qed.

Lemma built_banks_closed_witness :
  exists RB, RegBanks1_ex !! 0%nat = Some RB /\
    BitVector_test (ContainedRegClasses RB) 2 = true.
Proof.
  eexists. split; [reflexivity|].
  apply (built_banks_closed false TRI_cov RegBanks1_ex 0 _ 0 2 wf_TRI_cov
           built_RegBanks1_ex eq_refl).
  - reflexivity.
  - right. reflexivity.
Defined.

Lemma bank_size_is_max_witness :
  exists RB, RegBanks1_ex !! 0%nat = Some RB /\
    (forall i RC, RegClasses TRI_cov !! i = Some RC ->
       BitVector_test (ContainedRegClasses RB) i = true ->
       wrap32 (RC_Size RC * 8) <= Size RB) /\
    (Size RB = 0 \/
     exists i RC, RegClasses TRI_cov !! i = Some RC /\
       BitVector_test (ContainedRegClasses RB) i = true /\
       Size RB = wrap32 (RC_Size RC * 8)).
Proof.
  eexists. split; [reflexivity|].
  apply (bank_size_is_max false TRI_cov RegBanks1_ex 0 _ wf_TRI_cov
           built_RegBanks1_ex eq_refl).
Defined.

Lemma addRegBankCoverage_exact_witness :
  exists RB RB', RegBanks_ex !! 0%nat = Some RB /\
    RegBanks1_ex !! 0%nat = Some RB' /\
    Size RB <= Size RB' /\
    forall j, BitVector_test (ContainedRegClasses RB') j = true <->
      BitVector_test (ContainedRegClasses RB) j = true \/
      reaches TRI_cov 0 j.
Proof.
  apply (addRegBankCoverage_exact false TRI_cov 3 RegBanks_ex RegBanks1_ex
           0 0 wf_TRI_cov built_RegBanks_ex).
  vm_compute. reflexivity.
Defined.

Lemma addRegBankCoverage_commute_witness :
  exists R2,
    addRegBankCoverage false TRI_cov 3 RegBanks_ex 0 2 = Ok R2 /\
    addRegBankCoverage false TRI_cov 3 R2 0 1 = Ok RegBanks_c12_ex.
Proof.
  apply (addRegBankCoverage_commute false TRI_cov 3 3 3 3 RegBanks_ex
           RegBanks_c1_ex RegBanks_c12_ex 0 0 1 2 wf_TRI_cov
           built_RegBanks_ex).
  - vm_compute. reflexivity.
  - vm_compute. reflexivity.
  - vm_compute. lia.
  - vm_compute. lia.
Defined.

Lemma PartialMapping_verify_outcomes_witness :
  PartialMapping_verify false pm_mid4 = Ok tt \/
  PartialMapping_verify false pm_mid4
  = Fail (AssertionFailed "Register bank not set") \/
  PartialMapping_verify false pm_mid4
  = Fail (AssertionFailed "Register bank too small for Mask").
Proof.
  apply (PartialMapping_verify_outcomes pm_mid4).
  unfold wf_APInt, is_unsigned. simpl. lia.
Defined.

Lemma ValueMapping_verify_permutation_witness :
  ValueMapping_verify false {| BreakDown := [pm_high4; pm_low4] |} 8 = Ok tt.
Proof.
  apply (ValueMapping_verify_permutation vm_halves [pm_high4; pm_low4] 8).
  - vm_compute. reflexivity.
  - apply perm_swap.
Defined.

Lemma setOperandMapping_verifies_witness :
  exists IM',
    setOperandMapping false IM_empty2 0 64 bank_F64 = Ok IM' /\
    (VM <- getOperandMapping false IM' 0 ;;
     ValueMapping_verify false VM 64) = Ok tt /\
    getOperandMapping false IM' 0 = Ok (single_mapping bank_F64 64) /\
    (forall j, j <> 0%nat ->
       OperandsMapping IM' !! j = OperandsMapping IM_empty2 !! j) /\
    IM_ID IM' = IM_ID IM_empty2 /\ Cost IM' = Cost IM_empty2 /\
    NumOperands IM' = NumOperands IM_empty2.
Proof.
  apply (setOperandMapping_verifies false IM_empty2 0 64 bank_F64).
  - lia.
  - intros _. simpl. lia.
  - simpl. lia.
  - reflexivity.
Defined.

Lemma classifies_vreg4 (MI : MachineInstr) (k : nat) :
  classifies false TRI_ex MRI_ex no_constraint bank_of_class_ex MI k
    (MO_Register (vreg 4)) Unresolved.
Proof. exists (vreg 4). repeat split. unfold vreg; lia. Qed.

Lemma classified_add_ex :
  classified false TRI_ex MRI_ex no_constraint bank_of_class_ex add_ex 0
    (Operands add_ex) [Yields bank_G32 32; Yields bank_F64 32; Skipped].
Proof.
  cbn [classified Operands add_ex].
  split; [apply classifies_vreg3|]. split; [apply classifies_vreg1|].
  split; [left; reflexivity | exact I].
Qed.

Lemma getInstrMappingImpl_complete_witness :
  exists m,
    getInstrMappingImpl false TRI_ex MRI_ex no_constraint bank_of_class_ex
      add_ex = Ok m /\
    IM_ID m = DefaultMappingID /\ Cost m = 1 /\
    NumOperands m = getNumOperands add_ex /\
    InstructionMapping_isValid m = true /\
    forall i c,
      [Yields bank_G32 32; Yields bank_F64 32; Skipped] !! i = Some c ->
      OperandsMapping m !! i
      = Some match c with
             | Yields RB RegSize => single_mapping RB RegSize
             | _ => {| BreakDown := [] |}
             end.
Proof.
  apply (getInstrMappingImpl_complete false TRI_ex MRI_ex no_constraint
           bank_of_class_ex add_ex
           [Yields bank_G32 32; Yields bank_F64 32; Skipped]).
  - exact classified_add_ex.
  - repeat constructor.
Defined.

Lemma getInstrMappingImpl_shape_witness :
  {| IM_ID := DefaultMappingID; Cost := 1; NumOperands := 5;
     OperandsMapping :=
       [single_mapping bank_F64 64; single_mapping bank_F64 32;
        single_mapping bank_F64 64; single_mapping bank_F64 64;
        single_mapping bank_F64 64] |} = InstructionMapping_invalid \/
  (DefaultMappingID = DefaultMappingID /\ 1 = 1 /\
   5%nat = getNumOperands phi_ex /\
   length [single_mapping bank_F64 64; single_mapping bank_F64 32;
           single_mapping bank_F64 64; single_mapping bank_F64 64;
           single_mapping bank_F64 64] = getNumOperands phi_ex /\
   Forall (fun VM => BreakDown VM = [] \/
             exists RB MaskSize, VM = single_mapping RB MaskSize)
     [single_mapping bank_F64 64; single_mapping bank_F64 32;
      single_mapping bank_F64 64; single_mapping bank_F64 64;
      single_mapping bank_F64 64]).
Proof.
  apply (getInstrMappingImpl_shape false TRI_ex MRI_ex no_constraint
           bank_of_class_ex phi_ex).
  vm_compute. reflexivity.
Defined.

Lemma getInstrMappingImpl_failures_witness :
  after_first_loop false TRI_ex MRI_wide_ex no_constraint bank_of_class_ex
    copy_wide_ex
  = Fail (AssertionFailed "Register bank is too small") /\
  AssertionFailed "Register bank is too small"
  <> AssertionFailed "NoRegister does not have a register bank" /\
  AssertionFailed "Register bank is too small"
  <> AssertionFailed "We should have bailed on non-copies at this point".
Proof.
  apply (getInstrMappingImpl_failures false TRI_ex MRI_wide_ex no_constraint
           bank_of_class_ex copy_wide_ex).
  vm_compute. reflexivity.
Defined.

Lemma getInstrMapping_copy_no_bank_witness :
  getInstrMappingImpl false TRI_ex MRI_ex no_constraint bank_of_class_ex
    copy_nobank_ex = Ok InstructionMapping_invalid /\
  getInstrMapping_base false TRI_ex MRI_ex no_constraint bank_of_class_ex
    copy_nobank_ex
  = Fail (Unreachable "The target must implement this").
Proof.
  apply (getInstrMapping_copy_no_bank false TRI_ex MRI_ex no_constraint
           bank_of_class_ex copy_nobank_ex [Unresolved; Unresolved]).
  - reflexivity.
  - cbn [classified Operands copy_nobank_ex].
    split; [apply classifies_vreg0|]. split; [apply classifies_vreg4|].
    exact I.
  - repeat constructor.
  - reflexivity.
Defined.

Lemma complete_mapping_verifies_witness :
  exists m,
    getInstrMappingImpl false TRI_ex MRI_ex no_constraint bank_of_class_ex
      add_ex = Ok m /\
    InstructionMapping_verify false TRI_ex MRI_ex m add_ex = Ok tt /\
    (isPreISelGenericOpcode (getOpcode add_ex) = false ->
     getInstrPossibleMappings false TRI_ex MRI_ex
       (RegisterBankInfo_base false TRI_ex MRI_ex no_constraint
          bank_of_class_ex) add_ex = Ok [m]).
Proof.
  apply (complete_mapping_verifies false TRI_ex MRI_ex no_constraint
           bank_of_class_ex add_ex
           [Yields bank_G32 32; Yields bank_F64 32; Skipped]).
  - exact classified_add_ex.
  - repeat constructor.
  - repeat constructor; simpl; lia.
Defined.

Lemma propagated_mapping_rejected_witness :
  exists m,
    getInstrMappingImpl false TRI_ex MRI_ex no_constraint bank_of_class_ex
      phi_bb_ex = Ok m /\
    InstructionMapping_isValid m = true /\
    OperandsMapping m
    = map (propagate_slot bank_F64 (st_RegSize phi_bb_state))
        (OperandsMapping (st_Mapping phi_bb_state)) /\
    (forall i VM, OperandsMapping m !! i = Some VM -> BreakDown VM <> []) /\
    (false = false -> (exists i, Operands phi_bb_ex !! i = Some MO_Other) ->
     (exists f, InstructionMapping_verify false TRI_ex MRI_ex m phi_bb_ex
                = Fail f) /\
     (exists f,
        getInstrPossibleMappings false TRI_ex MRI_ex
          (RegisterBankInfo_base false TRI_ex MRI_ex no_constraint
             bank_of_class_ex) phi_bb_ex = Fail f)).
Proof.
  apply (propagated_mapping_rejected false TRI_ex MRI_ex no_constraint
           bank_of_class_ex phi_bb_ex phi_bb_state bank_F64).
  - vm_compute. reflexivity.
  - reflexivity.
  - reflexivity.
Defined.

(** On [phi_bb_ex] the two registers are given [bank_F64] at their 64 bits,
    and so is the block operand, which is what InstructionMapping::verify
    stops on. *)
Example phi_bb_ex_rejected :
  getInstrMappingImpl false TRI_ex MRI_ex no_constraint bank_of_class_ex
    phi_bb_ex
  = Ok {| IM_ID := DefaultMappingID; Cost := 1; NumOperands := 3;
          OperandsMapping := replicate 3 (single_mapping bank_F64 64) |} /\
  getInstrPossibleMappings false TRI_ex MRI_ex
    (RegisterBankInfo_base false TRI_ex MRI_ex no_constraint bank_of_class_ex)
    phi_bb_ex
  = Fail (AssertionFailed "We should not care about non-reg mapping") /\
  getInstrPossibleMappings true TRI_ex MRI_ex
    (RegisterBankInfo_base true TRI_ex MRI_ex no_constraint bank_of_class_ex)
    phi_bb_ex
  = Ok [ {| IM_ID := DefaultMappingID; Cost := 1; NumOperands := 3;
            OperandsMapping := replicate 3 (single_mapping bank_F64 64) |} ].
Proof. repeat split; vm_compute; reflexivity. Qed.

Lemma copy_mapping_verifies_iff_witness :
  getInstrMappingImpl false TRI_ex MRI_ex no_constraint bank_of_class_ex
    copy_ex
  = Ok {| IM_ID := DefaultMappingID; Cost := 1; NumOperands := 2;
          OperandsMapping :=
            [single_mapping bank_F64 64; single_mapping bank_F64 64] |} /\
  (InstructionMapping_verify false TRI_ex MRI_ex
     {| IM_ID := DefaultMappingID; Cost := 1; NumOperands := 2;
        OperandsMapping :=
          [single_mapping bank_F64 64; single_mapping bank_F64 64] |} copy_ex
   = Ok tt <-> 64 = 64).
Proof.
  apply (copy_mapping_verifies_iff TRI_ex MRI_ex no_constraint
           bank_of_class_ex copy_ex bank_F64 (vreg 4) (vreg 2) 64 64);
    first [reflexivity | unfold vreg; lia | simpl; lia].
Defined.

(** [%0 = COPY %2] copies a register of 64 bits to one of 32 bits: the
    mapping is not accepted. *)
Example copy_narrow_rejected :
  getInstrPossibleMappings false TRI_ex MRI_ex
    (RegisterBankInfo_base false TRI_ex MRI_ex no_constraint bank_of_class_ex)
    {| getOpcode := COPY;
       Operands := [MO_Register (vreg 0); MO_Register (vreg 2)] |}
  = Fail (AssertionFailed "BitWidth does not match").
Proof. vm_compute. reflexivity. Qed.

(** A register-class constraint on the second operand of an instruction. *)
Lemma constraint_only_without_bank_witness :
  getInstrMappingImpl false TRI_ex MRI_ex no_constraint bank_of_class_ex
    copy_ex
  = getInstrMappingImpl false TRI_ex MRI_ex constraint_ex bank_of_class_ex
      copy_ex /\
  getInstrMapping_base false TRI_ex MRI_ex no_constraint bank_of_class_ex
    copy_ex
  = getInstrMapping_base false TRI_ex MRI_ex constraint_ex bank_of_class_ex
      copy_ex.
Proof.
  apply (constraint_only_without_bank false TRI_ex MRI_ex bank_of_class_ex
           no_constraint constraint_ex copy_ex).
  intros [|[|i]] Reg Hl Hne Hb; try discriminate.
  - reflexivity.
  - injection Hl as <-. vm_compute in Hb. discriminate.
Defined.

Lemma getInstrPossibleMappings_verified_witness :
  Forall (fun m => InstructionMapping_verify false TRI_ex MRI_ex m copy_ex
                   = Ok tt /\
                   NumOperands m = getNumOperands copy_ex)
    [ {| IM_ID := DefaultMappingID; Cost := 1; NumOperands := 2;
         OperandsMapping :=
           [single_mapping bank_F64 64; single_mapping bank_F64 64] |} ].
Proof.
  apply (getInstrPossibleMappings_verified TRI_ex MRI_ex
           (RegisterBankInfo_base false TRI_ex MRI_ex no_constraint
              bank_of_class_ex) copy_ex).
  vm_compute. reflexivity.
Defined.
